(** * ThreadShell job scheduler: a shallow embedding and its properties

    The development follows the C++ sources
      include/job.h, include/scheduler.h, src/job.cpp, src/scheduler.cpp,
    and, of src/shell.cpp, the functions that read a line and turn it into
    calls of the scheduler.

    Conventions of the embedding.
    - A [JobPtr] (std::shared_ptr<JobMetadata>) is the index of the record in
      [all_jobs_]: every record is pushed there in the critical section that
      creates it and the vector is never erased from, so the index names the
      shared object.  All containers of pointers ([job_queue_],
      [active_jobs_], [completed_jobs_]) hold such indices, and a write through
      one pointer is seen through all of them.
    - [int] and [size_t] values are integers in [Z]; where the source can wrap
      the wrap-around is written out.
    - [double] values are exact rationals in [Q] (rounding is not modelled).
    - Clock readings, rand() results, fork() and waitpid() outcomes are
      inputs of the step that performs the call.  The calls to Logger only
      append to the CSV file and are left out.
    - A step of the transition system is a locked region of [mutex_], or a
      stretch of code of one thread that holds no lock.  The worker code is
      cut wherever it takes the mutex (this includes assign_core and
      release_core, which lock [mutex_] themselves), leaves a locked region,
      or blocks (condition wait, waitpid); the worker's local variable [job],
      the value assign_core has returned, and its program point are explicit
      in [Worker].
    - parse_job_script and every iteration of submit_job_array write to the
      new record after their call of submit_job has returned, without a
      lock.  The step of such a call ends with the return of submit_job; the
      writes that are left are kept in [callers_] and are a step of their
      own, so that workers can run in between.
    - The code of execute_job writes the fields of its job without a lock,
      so these writes can fall inside the locked region of another thread.
      This matters for suspend_job and resume_job, which test the status and
      then store one: their step takes the list of the lock-free steps of
      other threads that fall between the test and the store.  Of the
      other locked regions, kill_job stores KILLED without a test of the
      status; change_job_priority writes a field that no lock-free step
      reads or writes; submit_job_with_deps reads the status of each
      dependency once; the region at the end of the worker loop tests the
      status of the worker's own job, which no other thread writes without
      the lock: a lock-free step that falls inside one of them can be taken
      before or after it.  update_job_dependencies reads the status of a
      dependency once for every waiting job; a lock-free write of an
      outcome that falls inside its loop is taken before or after the
      loop. *)

From Stdlib Require Import ZArith QArith Lqa Ascii String.
From stdpp Require Import base decidable option list strings gmap.

Local Open Scope string_scope.
Local Open Scope list_scope.
Local Open Scope Z_scope.

(** ** Strings: the std::string operations used by the sources *)

Module Str.

(** [s.find(pat)]: index of the first occurrence, [None] for npos. *)
Fixpoint find (pat s : string) : option nat :=
  if String.prefix pat s then Some 0%nat
  else match s with
       | EmptyString => None
       | String _ s' => S <$> find pat s'
       end.

Definition contains (pat s : string) : bool :=
  match find pat s with Some _ => true | None => false end.

(** [s.substr(n)] for [n <= s.size()]. *)
Fixpoint drop (n : nat) (s : string) : string :=
  match n, s with
  | O, _ => s
  | S n', String _ s' => drop n' s'
  | S _, EmptyString => EmptyString
  end.

Fixpoint take (n : nat) (s : string) : string :=
  match n, s with
  | S n', String c s' => String c (take n' s')
  | _, _ => EmptyString
  end.

Definition is_blank (c : ascii) : bool :=
  (Ascii.eqb c " " || Ascii.eqb c "009")%bool.

(** [s.erase(0, s.find_first_not_of(" \t"))]; when every character is a
    blank the position is npos and the whole string is erased. *)
Fixpoint ltrim (s : string) : string :=
  match s with
  | String c s' => if is_blank c then ltrim s' else s
  | EmptyString => EmptyString
  end.

(** [s.erase(s.find_last_not_of(" \t") + 1)]; when every character is a
    blank, npos + 1 wraps to 0 and the whole string is erased. *)
Fixpoint rtrim (s : string) : string :=
  match s with
  | String c s' =>
      match rtrim s' with
      | EmptyString => if is_blank c then EmptyString else String c EmptyString
      | r => String c r
      end
  | EmptyString => EmptyString
  end.

(** Repeated [std::getline(stream, piece, delim)] until it fails: the
    pieces between delimiters; a final piece without delimiter is
    produced only when it is non-empty. *)
Fixpoint split_go (delim : ascii) (cur : string) (s : string) : list string :=
  match s with
  | EmptyString =>
      match cur with EmptyString => [] | _ => [cur] end
  | String c s' =>
      if Ascii.eqb c delim then cur :: split_go delim EmptyString s'
      else split_go delim (cur +:+ String c EmptyString) s'
  end.

Definition getlines (delim : ascii) (s : string) : list string :=
  split_go delim EmptyString s.

Definition tolower_ascii (c : ascii) : ascii :=
  let n := nat_of_ascii c in
  if ((65 <=? n) && (n <=? 90))%nat then ascii_of_nat (n + 32) else c.

Fixpoint tolower (s : string) : string :=
  match s with
  | EmptyString => EmptyString
  | String c s' => String (tolower_ascii c) (tolower s')
  end.

Definition is_digit (c : ascii) : bool :=
  let n := nat_of_ascii c in ((48 <=? n) && (n <=? 57))%nat.

(** isspace in the "C" locale. *)
Definition is_space (c : ascii) : bool :=
  let n := nat_of_ascii c in ((n =? 32) || ((9 <=? n) && (n <=? 13)))%nat.

Fixpoint skip_spaces (s : string) : string :=
  match s with
  | String c s' => if is_space c then skip_spaces s' else s
  | EmptyString => EmptyString
  end.

(** The leading decimal digits of [s], as a number, with their count. *)
Fixpoint digits_go (acc : Z) (n : nat) (s : string) : Z * nat :=
  match s with
  | String c s' =>
      if is_digit c
      then digits_go (10 * acc + (Z.of_nat (nat_of_ascii c) - 48)) (S n) s'
      else (acc, n)
  | EmptyString => (acc, n)
  end.

(** Sign and magnitude as strtol / strtoul read them (base 10): leading
    white space, an optional sign, then at least one digit. *)
Definition read_signed (s : string) : option (bool * Z) :=
  let s1 := skip_spaces s in
  let '(neg, s2) :=
    match s1 with
    | String "-" r => (true, r)
    | String "+" r => (false, r)
    | _ => (false, s1)
    end in
  let '(v, n) := digits_go 0 0 s2 in
  match n with O => None | _ => Some (neg, v) end.

(** Decimal text of a non-negative number (std::to_string on the values
    the sources pass). *)
Definition digit_char (d : Z) : ascii := ascii_of_nat (Z.to_nat (48 + d)).

Fixpoint to_string_go (fuel : nat) (n : Z) (acc : string) : string :=
  match fuel with
  | O => acc
  | S f =>
      let acc' := String (digit_char (n mod 10)) acc in
      if n / 10 =? 0 then acc' else to_string_go f (n / 10) acc'
  end.

Definition to_string (n : Z) : string :=
  if n <? 0 then String "-" (to_string_go 20 (- n) EmptyString)
  else to_string_go 20 n EmptyString.

End Str.

(** ** include/job.h: the job record *)

Inductive JobPriority := LOW | MEDIUM | HIGH | CRITICAL.

Inductive JobStatus :=
  PENDING | RUNNING | COMPLETED | FAILED | KILLED | SUSPENDED | WAITING_DEPS.

Inductive JobType := INTERACTIVE | BATCH | ARRAY_JOB.

#[global] Instance JobPriority_eq_dec : EqDecision JobPriority.
Proof. solve_decision. Defined.
#[global] Instance JobStatus_eq_dec : EqDecision JobStatus.
Proof. solve_decision. Defined.
#[global] Instance JobType_eq_dec : EqDecision JobType.
Proof. solve_decision. Defined.

(** [static_cast<int>(priority)] *)
Definition priority_rank (p : JobPriority) : Z :=
  match p with LOW => 0 | MEDIUM => 1 | HIGH => 2 | CRITICAL => 3 end.

Definition size_t_max : Z := 2 ^ 64 - 1.
Definition to_size_t (z : Z) : Z := z mod 2 ^ 64.
Definition int_min : Z := - 2 ^ 31.
Definition int_max : Z := 2 ^ 31 - 1.
(** Conversion to [int] (two's complement). *)
Definition to_int (z : Z) : Z := (z + 2 ^ 31) mod 2 ^ 32 - 2 ^ 31.

(** std::stoi: [None] stands for the exception it throws
    (std::invalid_argument without digits, std::out_of_range otherwise). *)
Definition stoi (s : string) : option Z :=
  match Str.read_signed s with
  | None => None
  | Some (neg, v) =>
      let r := if neg then - v else v in
      if (int_min <=? r) && (r <=? int_max) then Some r else None
  end.

(** std::stoul: a magnitude above ULONG_MAX is out of range; a minus sign
    negates in unsigned arithmetic. *)
Definition stoul (s : string) : option Z :=
  match Str.read_signed s with
  | None => None
  | Some (neg, v) =>
      if size_t_max <? v then None
      else Some (if neg then to_size_t (- v) else v)
  end.

Record ResourceLimits := {
  max_memory_mb : Z;     (* size_t *)
  max_runtime : Z;       (* seconds *)
  max_cpu_cores : Z      (* int *)
}.

Definition default_limits : ResourceLimits :=
  {| max_memory_mb := 1024; max_runtime := 3600; max_cpu_cores := 1 |}.

(** A system_clock time point: ticks since the epoch; the default
    constructed time point is 0. *)
Definition time_point := Z.
Definition ticks_per_ms : Z := 1000000.
Definition ticks_per_minute : Z := 60 * 1000 * ticks_per_ms.

(** duration_cast truncates toward zero. *)
Definition to_milliseconds (d : Z) : Z := Z.quot d ticks_per_ms.
Definition to_minutes (d : Z) : Z := Z.quot d ticks_per_minute.

(** The fields of JobMetadata that job.cpp and scheduler.cpp read or write
    ([assigned_cores], [dependents], [chained_commands] and
    [current_command_index] are never touched there). *)
Record JobMetadata := mkJob {
  job_id : Z;
  job_name : string;
  command : string;
  priority : JobPriority;
  status : JobStatus;
  type : JobType;
  assigned_core_id : Z;
  limits : ResourceLimits;
  memory_usage_mb : Z;
  thread_id : option nat;
  submit_time : time_point;
  start_time : time_point;
  end_time : time_point;
  actual_runtime : Z;
  dependencies : gset Z;
  array_job_id : Z;
  array_task_id : Z;
  cpu_utilization : Q;
  context_switches : Z;
  process_id : Z;
  exit_code : Z
}.

(** The constructor [JobMetadata(id, cmd, p)], called at time [now]. *)
Definition JobMetadata_new (id : Z) (cmd : string) (p : JobPriority)
    (now : time_point) : JobMetadata :=
  {| job_id := id; job_name := ""; command := cmd; priority := p;
     status := PENDING; type := INTERACTIVE; assigned_core_id := -1;
     limits := default_limits; memory_usage_mb := 0; thread_id := None;
     submit_time := now; start_time := 0; end_time := 0; actual_runtime := 0;
     dependencies := ∅; array_job_id := -1; array_task_id := -1;
     cpu_utilization := 0%Q; context_switches := 0; process_id := -1;
     exit_code := 0 |}.

(** Field assignments [job->f = v]. *)
Definition set_status (v : JobStatus) (j : JobMetadata) : JobMetadata :=
  mkJob (job_id j) (job_name j) (command j) (priority j) v (type j)
    (assigned_core_id j) (limits j) (memory_usage_mb j) (thread_id j)
    (submit_time j) (start_time j) (end_time j) (actual_runtime j)
    (dependencies j) (array_job_id j) (array_task_id j) (cpu_utilization j)
    (context_switches j) (process_id j) (exit_code j).

Definition set_priority (v : JobPriority) (j : JobMetadata) : JobMetadata :=
  mkJob (job_id j) (job_name j) (command j) v (status j) (type j)
    (assigned_core_id j) (limits j) (memory_usage_mb j) (thread_id j)
    (submit_time j) (start_time j) (end_time j) (actual_runtime j)
    (dependencies j) (array_job_id j) (array_task_id j) (cpu_utilization j)
    (context_switches j) (process_id j) (exit_code j).

Definition set_dependencies (v : gset Z) (j : JobMetadata) : JobMetadata :=
  mkJob (job_id j) (job_name j) (command j) (priority j) (status j) (type j)
    (assigned_core_id j) (limits j) (memory_usage_mb j) (thread_id j)
    (submit_time j) (start_time j) (end_time j) (actual_runtime j)
    v (array_job_id j) (array_task_id j) (cpu_utilization j)
    (context_switches j) (process_id j) (exit_code j).

(** [job->array_job_id = a; job->array_task_id = i; job->type = ARRAY_JOB]. *)
Definition set_array (a i : Z) (j : JobMetadata) : JobMetadata :=
  mkJob (job_id j) (job_name j) (command j) (priority j) (status j) ARRAY_JOB
    (assigned_core_id j) (limits j) (memory_usage_mb j) (thread_id j)
    (submit_time j) (start_time j) (end_time j) (actual_runtime j)
    (dependencies j) a i (cpu_utilization j)
    (context_switches j) (process_id j) (exit_code j).

(** The tail of parse_job_script: name (when non-empty), limits and type. *)
Definition set_script_fields (name : string) (l : ResourceLimits)
    (j : JobMetadata) : JobMetadata :=
  mkJob (job_id j) (if decide (name = "") then job_name j else name)
    (command j) (priority j) (status j) BATCH
    (assigned_core_id j) l (memory_usage_mb j) (thread_id j)
    (submit_time j) (start_time j) (end_time j) (actual_runtime j)
    (dependencies j) (array_job_id j) (array_task_id j) (cpu_utilization j)
    (context_switches j) (process_id j) (exit_code j).

(** execute_job, first three statements:
    [status = RUNNING; thread_id = this thread; start_time = now]. *)
Definition set_started (w : nat) (now : time_point) (j : JobMetadata)
    : JobMetadata :=
  mkJob (job_id j) (job_name j) (command j) (priority j) RUNNING (type j)
    (assigned_core_id j) (limits j) (memory_usage_mb j) (Some w)
    (submit_time j) now (end_time j) (actual_runtime j)
    (dependencies j) (array_job_id j) (array_task_id j) (cpu_utilization j)
    (context_switches j) (process_id j) (exit_code j).

Definition set_assigned_core_id (v : Z) (j : JobMetadata) : JobMetadata :=
  mkJob (job_id j) (job_name j) (command j) (priority j) (status j) (type j)
    v (limits j) (memory_usage_mb j) (thread_id j)
    (submit_time j) (start_time j) (end_time j) (actual_runtime j)
    (dependencies j) (array_job_id j) (array_task_id j) (cpu_utilization j)
    (context_switches j) (process_id j) (exit_code j).

Definition set_cpu (u : Q) (cs : Z) (j : JobMetadata) : JobMetadata :=
  mkJob (job_id j) (job_name j) (command j) (priority j) (status j) (type j)
    (assigned_core_id j) (limits j) (memory_usage_mb j) (thread_id j)
    (submit_time j) (start_time j) (end_time j) (actual_runtime j)
    (dependencies j) (array_job_id j) (array_task_id j) u cs
    (process_id j) (exit_code j).

Definition set_memory_usage_mb (v : Z) (j : JobMetadata) : JobMetadata :=
  mkJob (job_id j) (job_name j) (command j) (priority j) (status j) (type j)
    (assigned_core_id j) (limits j) v (thread_id j)
    (submit_time j) (start_time j) (end_time j) (actual_runtime j)
    (dependencies j) (array_job_id j) (array_task_id j) (cpu_utilization j)
    (context_switches j) (process_id j) (exit_code j).

Definition set_process_id (v : Z) (j : JobMetadata) : JobMetadata :=
  mkJob (job_id j) (job_name j) (command j) (priority j) (status j) (type j)
    (assigned_core_id j) (limits j) (memory_usage_mb j) (thread_id j)
    (submit_time j) (start_time j) (end_time j) (actual_runtime j)
    (dependencies j) (array_job_id j) (array_task_id j) (cpu_utilization j)
    (context_switches j) v (exit_code j).

(** [job->status = st; job->exit_code = c] *)
Definition set_outcome (st : JobStatus) (c : Z) (j : JobMetadata) : JobMetadata :=
  mkJob (job_id j) (job_name j) (command j) (priority j) st (type j)
    (assigned_core_id j) (limits j) (memory_usage_mb j) (thread_id j)
    (submit_time j) (start_time j) (end_time j) (actual_runtime j)
    (dependencies j) (array_job_id j) (array_task_id j) (cpu_utilization j)
    (context_switches j) (process_id j) c.

(** [job->end_time = now; job->actual_runtime = ms(end_time - start_time)] *)
Definition set_ended (now : time_point) (j : JobMetadata) : JobMetadata :=
  mkJob (job_id j) (job_name j) (command j) (priority j) (status j) (type j)
    (assigned_core_id j) (limits j) (memory_usage_mb j) (thread_id j)
    (submit_time j) (start_time j) now (to_milliseconds (now - start_time j))
    (dependencies j) (array_job_id j) (array_task_id j) (cpu_utilization j)
    (context_switches j) (process_id j) (exit_code j).

(** A pointer to a job record: its index in [all_jobs_]. *)
Abbreviation JobPtr := nat (only parsing).

(** ** src/job.cpp *)

(** [std::find_if(all_jobs.begin(), all_jobs.end(), job_id == id)]:
    the first record with that id. *)
Fixpoint find_job (id : Z) (all_jobs : list JobMetadata) : option JobMetadata :=
  match all_jobs with
  | [] => None
  | j :: rest => if decide (job_id j = id) then Some j else find_job id rest
  end.

(** One iteration of the loop of dependencies_satisfied:
    a dependency that is not found, or whose status is not COMPLETED,
    makes the function return false. *)
Definition dependency_completed (all_jobs : list JobMetadata) (dep_id : Z) : bool :=
  match find_job dep_id all_jobs with
  | None => false
  | Some d => bool_decide (status d = COMPLETED)
  end.

Definition dependencies_satisfied (j : JobMetadata)
    (all_jobs : list JobMetadata) : bool :=
  forallb (dependency_completed all_jobs) (elements (dependencies j)).

(** [std::regex_search(cmd, m, "sleep\\s+(\\d+)")] followed by
    [std::stoi(m[1])]: the leftmost "sleep" that is followed by white space
    and then digits; the captured group is the whole run of digits.
    Outer [None]: no match.  Inner [None]: stoi throws (out of range). *)
Definition sleep_match_here (s : string) : option (option Z) :=
  if String.prefix "sleep" s then
    let r := Str.drop 5 s in
    match r with
    | String c _ =>
        if Str.is_space c then
          let '(v, n) := Str.digits_go 0 0 (Str.skip_spaces r) in
          match n with
          | O => None
          | _ => Some (if v <=? int_max then Some v else None)
          end
        else None
    | EmptyString => None
    end
  else None.

Fixpoint sleep_search (s : string) : option (option Z) :=
  match sleep_match_here s with
  | Some r => Some r
  | None =>
      match s with
      | EmptyString => None
      | String _ s' => sleep_search s'
      end
  end.

(** JobMetadata::get_estimated_runtime, in seconds; [None] when stoi throws. *)
Definition get_estimated_runtime (j : JobMetadata) : option Z :=
  let cmd := Str.tolower (command j) in
  if Str.contains "sleep" cmd then
    match sleep_search cmd with
    | Some r => r
    | None => Some 10
    end
  else
    let b0 := 5 in
    let b1 := if Str.contains "for" cmd || Str.contains "while" cmd
              then b0 * 3 else b0 in
    let b2 := if Str.contains "find" cmd || Str.contains "grep" cmd
              then b1 * 2 else b1 in
    let b3 := if Str.contains "make" cmd || Str.contains "compile" cmd
              then b2 * 5 else b2 in
    let b4 := if Str.contains "download" cmd || Str.contains "wget" cmd
                 || Str.contains "curl" cmd
              then b3 * 4 else b3 in
    Some (to_int (b4 + Z.of_nat (String.length (command j)) / 20)).

(** JobMetadata::calculate_priority_score, evaluated at clock reading [now]. *)
Definition calculate_priority_score (now : time_point) (j : JobMetadata)
    : option Q :=
  match get_estimated_runtime j with
  | None => None
  | Some rt =>
      let score := inject_Z (priority_rank (priority j)) in
      let runtime_factor := (1 / (1 + inject_Z rt / 60))%Q in
      let score := (score + runtime_factor * (1 # 10))%Q in
      let wait_minutes := to_minutes (now - submit_time j) in
      let score := (score + inject_Z wait_minutes * (1 # 100))%Q in
      let score := if decide (status j = WAITING_DEPS)
                   then (score - 1)%Q else score in
      let score := if decide (type j = INTERACTIVE)
                   then (score + (2 # 10))%Q else score in
      let score := if decide (priority j = CRITICAL)
                   then (score + 2)%Q else score in
      Some score
  end.

Definition Qltb (x y : Q) : bool := negb (Qle_bool y x).

(** The comparator of include/job.h (namespace scope):
    [a->calculate_priority_score() < b->calculate_priority_score()]. *)
Definition JobCompare_score (now_a now_b : time_point) (a b : JobMetadata)
    : option bool :=
  match calculate_priority_score now_a a, calculate_priority_score now_b b with
  | Some sa, Some sb => Some (Qltb sa sb)
  | _, _ => None
  end.

(** ** include/scheduler.h: scheduler state *)

Inductive SchedulingPolicy :=
  PRIORITY_FIRST | SHORTEST_JOB_FIRST | ROUND_ROBIN | FAIR_SHARE.

Record SystemStats := mkStats {
  total_jobs_submitted : Z;
  total_jobs_completed : Z;
  total_jobs_failed : Z;
  total_jobs_killed : Z;
  average_turnaround_time : Q;
  average_wait_time : Q;
  system_throughput : Q;
  current_memory_usage_mb : Z;
  stats_start_time : time_point
}.

(** The comparator the queue is instantiated with: inside class
    JobScheduler the name JobCompare denotes the nested struct
    [JobScheduler::JobCompare], which compares the priority ranks. *)
Definition JobCompare (a b : JobMetadata) : bool :=
  priority_rank (priority a) <? priority_rank (priority b).

(** A worker thread: its program point in worker_function / execute_job
    together with its local variable [job]. *)
Inductive Worker :=
  | W_Idle                    (* loop head, or blocked in condition_.wait *)
  | W_Popped (job : JobPtr)   (* left the locked region; execute_job not begun *)
  | W_Started (job : JobPtr)  (* status = RUNNING written; before assign_core *)
  | W_Assigned (job : JobPtr) (core : Z)
                              (* assign_core has returned [core]; not stored yet *)
  | W_Waitpid (job : JobPtr)  (* core id stored; forked; blocked in waitpid *)
  | W_Release (job : JobPtr)  (* outcome written; before release_core *)
  | W_Finish (job : JobPtr)   (* execute_job returned; before taking the mutex *)
  | W_Exited.

(** A thread inside parse_job_script or submit_job_array that has got the
    pointer back from submit_job and has yet to write the fields it sets
    afterwards. *)
Inductive Caller :=
  | After_script (job : JobPtr) (job_name : string) (limits : ResourceLimits)
  | After_array (job : JobPtr) (array_job_id array_task_id : Z).

(** The members of class JobScheduler that the code reads or writes,
    followed by [callers_], which is no member of the class: like the program
    points in [worker_threads_] it holds the threads that are inside a call
    of the scheduler. *)
Record JobScheduler := mkSched {
  worker_threads_ : list Worker;
  job_queue_ : list JobPtr;
  all_jobs_ : list JobMetadata;
  active_jobs_ : list JobPtr;
  completed_jobs_ : list JobPtr;
  running_ : bool;
  num_cores_ : nat;
  core_availability_ : list bool;
  core_last_used_ : list time_point;
  max_concurrent_jobs_ : Z;
  cpu_affinity_enabled_ : bool;
  next_job_id_ : Z;
  current_policy_ : SchedulingPolicy;
  stats_ : SystemStats;
  callers_ : list Caller
}.

Definition with_workers (v : list Worker) (s : JobScheduler) : JobScheduler :=
  mkSched v (job_queue_ s) (all_jobs_ s) (active_jobs_ s) (completed_jobs_ s)
    (running_ s) (num_cores_ s) (core_availability_ s) (core_last_used_ s)
    (max_concurrent_jobs_ s) (cpu_affinity_enabled_ s) (next_job_id_ s)
    (current_policy_ s) (stats_ s) (callers_ s).

Definition with_queue (v : list JobPtr) (s : JobScheduler) : JobScheduler :=
  mkSched (worker_threads_ s) v (all_jobs_ s) (active_jobs_ s) (completed_jobs_ s)
    (running_ s) (num_cores_ s) (core_availability_ s) (core_last_used_ s)
    (max_concurrent_jobs_ s) (cpu_affinity_enabled_ s) (next_job_id_ s)
    (current_policy_ s) (stats_ s) (callers_ s).

Definition with_jobs (v : list JobMetadata) (s : JobScheduler) : JobScheduler :=
  mkSched (worker_threads_ s) (job_queue_ s) v (active_jobs_ s) (completed_jobs_ s)
    (running_ s) (num_cores_ s) (core_availability_ s) (core_last_used_ s)
    (max_concurrent_jobs_ s) (cpu_affinity_enabled_ s) (next_job_id_ s)
    (current_policy_ s) (stats_ s) (callers_ s).

Definition with_active (v : list JobPtr) (s : JobScheduler) : JobScheduler :=
  mkSched (worker_threads_ s) (job_queue_ s) (all_jobs_ s) v (completed_jobs_ s)
    (running_ s) (num_cores_ s) (core_availability_ s) (core_last_used_ s)
    (max_concurrent_jobs_ s) (cpu_affinity_enabled_ s) (next_job_id_ s)
    (current_policy_ s) (stats_ s) (callers_ s).

Definition with_completed (v : list JobPtr) (s : JobScheduler) : JobScheduler :=
  mkSched (worker_threads_ s) (job_queue_ s) (all_jobs_ s) (active_jobs_ s) v
    (running_ s) (num_cores_ s) (core_availability_ s) (core_last_used_ s)
    (max_concurrent_jobs_ s) (cpu_affinity_enabled_ s) (next_job_id_ s)
    (current_policy_ s) (stats_ s) (callers_ s).

Definition with_running (v : bool) (s : JobScheduler) : JobScheduler :=
  mkSched (worker_threads_ s) (job_queue_ s) (all_jobs_ s) (active_jobs_ s)
    (completed_jobs_ s) v (num_cores_ s) (core_availability_ s)
    (core_last_used_ s) (max_concurrent_jobs_ s) (cpu_affinity_enabled_ s)
    (next_job_id_ s) (current_policy_ s) (stats_ s) (callers_ s).

Definition with_cores (av : list bool) (lu : list time_point)
    (s : JobScheduler) : JobScheduler :=
  mkSched (worker_threads_ s) (job_queue_ s) (all_jobs_ s) (active_jobs_ s)
    (completed_jobs_ s) (running_ s) (num_cores_ s) av lu
    (max_concurrent_jobs_ s) (cpu_affinity_enabled_ s) (next_job_id_ s)
    (current_policy_ s) (stats_ s) (callers_ s).

Definition with_max_concurrent_jobs (v : Z) (s : JobScheduler) : JobScheduler :=
  mkSched (worker_threads_ s) (job_queue_ s) (all_jobs_ s) (active_jobs_ s)
    (completed_jobs_ s) (running_ s) (num_cores_ s) (core_availability_ s)
    (core_last_used_ s) v (cpu_affinity_enabled_ s) (next_job_id_ s)
    (current_policy_ s) (stats_ s) (callers_ s).

Definition with_cpu_affinity (v : bool) (s : JobScheduler) : JobScheduler :=
  mkSched (worker_threads_ s) (job_queue_ s) (all_jobs_ s) (active_jobs_ s)
    (completed_jobs_ s) (running_ s) (num_cores_ s) (core_availability_ s)
    (core_last_used_ s) (max_concurrent_jobs_ s) v (next_job_id_ s)
    (current_policy_ s) (stats_ s) (callers_ s).

Definition with_next_job_id (v : Z) (s : JobScheduler) : JobScheduler :=
  mkSched (worker_threads_ s) (job_queue_ s) (all_jobs_ s) (active_jobs_ s)
    (completed_jobs_ s) (running_ s) (num_cores_ s) (core_availability_ s)
    (core_last_used_ s) (max_concurrent_jobs_ s) (cpu_affinity_enabled_ s) v
    (current_policy_ s) (stats_ s) (callers_ s).

Definition with_policy (v : SchedulingPolicy) (s : JobScheduler) : JobScheduler :=
  mkSched (worker_threads_ s) (job_queue_ s) (all_jobs_ s) (active_jobs_ s)
    (completed_jobs_ s) (running_ s) (num_cores_ s) (core_availability_ s)
    (core_last_used_ s) (max_concurrent_jobs_ s) (cpu_affinity_enabled_ s)
    (next_job_id_ s) v (stats_ s) (callers_ s).

Definition with_stats (v : SystemStats) (s : JobScheduler) : JobScheduler :=
  mkSched (worker_threads_ s) (job_queue_ s) (all_jobs_ s) (active_jobs_ s)
    (completed_jobs_ s) (running_ s) (num_cores_ s) (core_availability_ s)
    (core_last_used_ s) (max_concurrent_jobs_ s) (cpu_affinity_enabled_ s)
    (next_job_id_ s) (current_policy_ s) v (callers_ s).

Definition with_callers (v : list Caller) (s : JobScheduler) : JobScheduler :=
  mkSched (worker_threads_ s) (job_queue_ s) (all_jobs_ s) (active_jobs_ s)
    (completed_jobs_ s) (running_ s) (num_cores_ s) (core_availability_ s)
    (core_last_used_ s) (max_concurrent_jobs_ s) (cpu_affinity_enabled_ s)
    (next_job_id_ s) (current_policy_ s) (stats_ s) v.

Definition incr_submitted (st : SystemStats) : SystemStats :=
  mkStats (total_jobs_submitted st + 1) (total_jobs_completed st)
    (total_jobs_failed st) (total_jobs_killed st) (average_turnaround_time st)
    (average_wait_time st) (system_throughput st) (current_memory_usage_mb st)
    (stats_start_time st).

Definition incr_completed (st : SystemStats) : SystemStats :=
  mkStats (total_jobs_submitted st) (total_jobs_completed st + 1)
    (total_jobs_failed st) (total_jobs_killed st) (average_turnaround_time st)
    (average_wait_time st) (system_throughput st) (current_memory_usage_mb st)
    (stats_start_time st).

Definition incr_failed (st : SystemStats) : SystemStats :=
  mkStats (total_jobs_submitted st) (total_jobs_completed st)
    (total_jobs_failed st + 1) (total_jobs_killed st) (average_turnaround_time st)
    (average_wait_time st) (system_throughput st) (current_memory_usage_mb st)
    (stats_start_time st).

Definition incr_killed (st : SystemStats) : SystemStats :=
  mkStats (total_jobs_submitted st) (total_jobs_completed st)
    (total_jobs_failed st) (total_jobs_killed st + 1) (average_turnaround_time st)
    (average_wait_time st) (system_throughput st) (current_memory_usage_mb st)
    (stats_start_time st).

(** ** src/scheduler.cpp *)

(** The constructor, at clock reading [now]. *)
Definition JobScheduler_new (num_cores : nat) (now : time_point) : JobScheduler :=
  {| worker_threads_ := [];
     job_queue_ := [];
     all_jobs_ := [];
     active_jobs_ := [];
     completed_jobs_ := [];
     running_ := false;
     num_cores_ := num_cores;
     core_availability_ := replicate num_cores true;
     core_last_used_ := replicate num_cores 0;
     max_concurrent_jobs_ := to_size_t (Z.of_nat num_cores * 2);
     cpu_affinity_enabled_ := false;
     next_job_id_ := 1;
     current_policy_ := PRIORITY_FIRST;
     stats_ := mkStats 0 0 0 0 0%Q 0%Q 0%Q 0 now;
     callers_ := [] |}.

Definition start (s : JobScheduler) : JobScheduler :=
  with_workers (worker_threads_ s ++ replicate (num_cores_ s) W_Idle)
    (with_running true s).

(** stop(), up to the joins: the flag is cleared and the workers notified. *)
Definition stop_flag (s : JobScheduler) : JobScheduler := with_running false s.

Definition worker_exited (w : Worker) : bool :=
  match w with W_Exited => true | _ => false end.

(** stop(), after the joins; the joins return once every worker has left
    worker_function. *)
Definition stop_join (s : JobScheduler) : JobScheduler :=
  if forallb worker_exited (worker_threads_ s)
  then with_active [] (with_workers [] s)
  else s.

(** [next_job_id_++] on std::atomic<int>. *)
Definition fresh_job_id (s : JobScheduler) : Z * JobScheduler :=
  (next_job_id_ s, with_next_job_id (to_int (next_job_id_ s + 1)) s).

Definition submit_job (cmd : string) (p : JobPriority) (now : time_point)
    (s : JobScheduler) : JobPtr * JobScheduler :=
  let '(id, s) := fresh_job_id s in
  let job := JobMetadata_new id cmd p now in
  let ptr := length (all_jobs_ s) in
  let s := with_queue (job_queue_ s ++ [ptr]) s in
  let s := with_jobs (all_jobs_ s ++ [job]) s in
  let s := with_stats (incr_submitted (stats_ s)) s in
  (ptr, s).

Definition submit_job_with_deps (cmd : string) (deps : list Z)
    (p : JobPriority) (now : time_point) (s : JobScheduler)
    : JobPtr * JobScheduler :=
  let '(id, s) := fresh_job_id s in
  let job := set_dependencies (list_to_set deps) (JobMetadata_new id cmd p now) in
  let ptr := length (all_jobs_ s) in
  let '(job, s) :=
    if dependencies_satisfied job (all_jobs_ s)
    then (job, with_queue (job_queue_ s ++ [ptr]) s)
    else (set_status WAITING_DEPS job, s) in
  let s := with_jobs (all_jobs_ s ++ [job]) s in
  let s := with_stats (incr_submitted (stats_ s)) s in
  (ptr, s).

(** [command.replace(pos, 9, to_string(i))] at the first "$ARRAY_ID". *)
Definition replace_array_id (template : string) (i : Z) : string :=
  match Str.find "$ARRAY_ID" template with
  | Some pos =>
      Str.take pos template +:+ Str.to_string i +:+ Str.drop (pos + 9) template
  | None => template
  end.

(** One iteration of the loop of submit_job_array. *)
Definition submit_array_task (template : string) (array_job_id : Z) (i : Z)
    (p : JobPriority) (now : time_point) (s : JobScheduler)
    : JobPtr * JobScheduler :=
  let '(ptr, s) := submit_job (replace_array_id template i) p now s in
  (ptr, with_jobs (alter (set_array array_job_id i) ptr (all_jobs_ s)) s).

Definition submit_job_array (template : string) (array_size : Z)
    (p : JobPriority) (now : nat → time_point) (s : JobScheduler)
    : list JobPtr * JobScheduler :=
  let array_job_id := next_job_id_ s in
  foldl (λ (acc : list JobPtr * JobScheduler) (i : nat),
           let '(ptr, s') :=
             submit_array_task template array_job_id (Z.of_nat i) p (now i)
               acc.2 in
           (acc.1 ++ [ptr], s'))
        ([], s) (seq 0 (Z.to_nat array_size)).

(** [std::find_if] over a vector of pointers, by job id. *)
Fixpoint find_ptr (id : Z) (jobs : list JobMetadata) (ptrs : list JobPtr)
    : option JobPtr :=
  match ptrs with
  | [] => None
  | p :: rest =>
      match jobs !! p with
      | Some j => if decide (job_id j = id) then Some p else find_ptr id jobs rest
      | None => find_ptr id jobs rest
      end
  end.

(** [std::find_if] over [all_jobs_], by job id: the pointer found. *)
Definition find_job_ptr (id : Z) (jobs : list JobMetadata) : option JobPtr :=
  find_ptr id jobs (seq 0 (length jobs)).

Definition status_at (s : JobScheduler) (p : JobPtr) : option JobStatus :=
  status <$> all_jobs_ s !! p.

Definition kill_job (id : Z) (s : JobScheduler) : bool * JobScheduler :=
  match find_ptr id (all_jobs_ s) (active_jobs_ s) with
  | Some p =>
      let s := with_jobs (alter (set_status KILLED) p (all_jobs_ s)) s in
      let s := with_stats (incr_killed (stats_ s)) s in
      (true, s)
  | None => (false, s)
  end.

Definition suspend_job (id : Z) (s : JobScheduler) : bool * JobScheduler :=
  match find_ptr id (all_jobs_ s) (active_jobs_ s) with
  | Some p =>
      if decide (status_at s p = Some RUNNING)
      then (true, with_jobs (alter (set_status SUSPENDED) p (all_jobs_ s)) s)
      else (false, s)
  | None => (false, s)
  end.

Definition resume_job (id : Z) (s : JobScheduler) : bool * JobScheduler :=
  match find_ptr id (all_jobs_ s) (active_jobs_ s) with
  | Some p =>
      if decide (status_at s p = Some SUSPENDED)
      then (true, with_jobs (alter (set_status RUNNING) p (all_jobs_ s)) s)
      else (false, s)
  | None => (false, s)
  end.

Definition change_job_priority (id : Z) (new_priority : JobPriority)
    (s : JobScheduler) : bool * JobScheduler :=
  match find_job_ptr id (all_jobs_ s) with
  | Some p =>
      if decide (status_at s p = Some PENDING)
      then (true, with_jobs (alter (set_priority new_priority) p (all_jobs_ s)) s)
      else (false, s)
  | None => (false, s)
  end.

Definition set_scheduling_policy (p : SchedulingPolicy) (s : JobScheduler)
    : JobScheduler := with_policy p s.

Definition get_system_stats (s : JobScheduler) : SystemStats := stats_ s.

Definition get_jobs (s : JobScheduler) : list JobPtr :=
  seq 0 (length (all_jobs_ s)).
Definition get_active_jobs (s : JobScheduler) : list JobPtr := active_jobs_ s.
Definition get_completed_jobs (s : JobScheduler) : list JobPtr :=
  completed_jobs_ s.
Definition get_queue_length (s : JobScheduler) : nat := length (job_queue_ s).

Definition set_max_concurrent_jobs (n : Z) (s : JobScheduler) : JobScheduler :=
  with_max_concurrent_jobs n s.

Definition enable_cpu_affinity (b : bool) (s : JobScheduler) : JobScheduler :=
  with_cpu_affinity b s.

(** *** Core table *)

(** The scan of assign_core: the lowest index whose flag is set. *)
Fixpoint first_free (cores : list bool) : option nat :=
  match cores with
  | [] => None
  | true :: _ => Some 0%nat
  | false :: rest => S <$> first_free rest
  end.

(** assign_core: the core id returned (-1 when none is free) and the
    updated table. *)
Definition assign_core (now : time_point) (s : JobScheduler) : Z * JobScheduler :=
  match first_free (core_availability_ s) with
  | Some i =>
      (to_int (Z.of_nat i),
       with_cores (<[i:=false]> (core_availability_ s))
                  (<[i:=now]> (core_last_used_ s)) s)
  | None => (-1, s)
  end.

(** One evaluation of the loop condition and body of assign_multiple_cores
    at index [i]; [cnt] is [static_cast<size_t>(count)]. *)
Definition assign_multiple_step (cnt : Z) (now : nat → time_point)
    (st : list bool * list time_point * list Z) (i : nat)
    : list bool * list time_point * list Z :=
  let '(cores, last, assigned) := st in
  if Z.of_nat (length assigned) <? cnt then
    match cores !! i with
    | Some true =>
        (<[i:=false]> cores, <[i:=now i]> last, assigned ++ [to_int (Z.of_nat i)])
    | _ => st
    end
  else st.

Definition assign_multiple_cores (count : Z) (now : nat → time_point)
    (s : JobScheduler) : list Z * JobScheduler :=
  let '(cores, last, assigned) :=
    foldl (assign_multiple_step (to_size_t count) now)
          (core_availability_ s, core_last_used_ s, [])
          (seq 0 (length (core_availability_ s))) in
  (assigned, with_cores cores last s).

Definition core_in_range (core_id : Z) (s : JobScheduler) : bool :=
  (0 <=? core_id) && (core_id <? to_int (Z.of_nat (length (core_availability_ s)))).

Definition release_core (core_id : Z) (s : JobScheduler) : JobScheduler :=
  if core_in_range core_id s
  then with_cores (<[Z.to_nat core_id := true]> (core_availability_ s))
                  (core_last_used_ s) s
  else s.

Definition release_cores (core_ids : list Z) (s : JobScheduler) : JobScheduler :=
  foldl (λ s core_id, release_core core_id s) s core_ids.

Definition get_core_utilization (s : JobScheduler) : list Z :=
  foldl (λ (u : list Z) (p : JobPtr),
           match all_jobs_ s !! p with
           | Some j =>
               if (0 <=? assigned_core_id j)
                  && (assigned_core_id j <? to_int (Z.of_nat (num_cores_ s)))
               then <[Z.to_nat (assigned_core_id j) :=
                        to_int (Qnum (cpu_utilization j) / Zpos (Qden (cpu_utilization j)))]> u
               else u
           | None => u
           end)
        (replicate (num_cores_ s) 0) (active_jobs_ s).

(** *** Dependencies *)

Definition can_schedule_job (p : JobPtr) (s : JobScheduler) : bool :=
  match all_jobs_ s !! p with
  | Some j =>
      dependencies_satisfied j (all_jobs_ s)
      && (Z.of_nat (length (active_jobs_ s)) <? max_concurrent_jobs_ s)
  | None => false
  end.

(** Body of the loop of check_and_schedule_dependencies for the job at
    index [i]; the test reads the records as the loop has left them. *)
Definition check_one (acc : list JobMetadata * list JobPtr) (i : nat)
    : list JobMetadata * list JobPtr :=
  let '(jobs, q) := acc in
  match jobs !! i with
  | Some j =>
      if bool_decide (status j = WAITING_DEPS) && dependencies_satisfied j jobs
      then (alter (set_status PENDING) i jobs, q ++ [i])
      else acc
  | None => acc
  end.

Definition check_and_schedule_dependencies (s : JobScheduler) : JobScheduler :=
  let '(jobs, q) :=
    foldl check_one (all_jobs_ s, job_queue_ s) (seq 0 (length (all_jobs_ s))) in
  with_queue q (with_jobs jobs s).

(** Body of the loop of update_job_dependencies for the job at index [i];
    [cid] is [completed_job->job_id]. *)
Definition update_one (cid : Z) (acc : list JobMetadata * list JobPtr) (i : nat)
    : list JobMetadata * list JobPtr :=
  let '(jobs, q) := acc in
  match jobs !! i with
  | Some j =>
      if bool_decide (status j = WAITING_DEPS) then
        if bool_decide (cid ∈ dependencies j) && dependencies_satisfied j jobs
        then (alter (set_status PENDING) i jobs, q ++ [i])
        else acc
      else acc
  | None => acc
  end.

Definition update_job_dependencies (completed_job : JobPtr) (s : JobScheduler)
    : JobScheduler :=
  match all_jobs_ s !! completed_job with
  | Some c =>
      let '(jobs, q) :=
        foldl (update_one (job_id c)) (all_jobs_ s, job_queue_ s)
              (seq 0 (length (all_jobs_ s))) in
      with_queue q (with_jobs jobs s)
  | None => s
  end.

(** *** Simulated metrics *)

(** [rand() % m] for the non-negative results of rand(). *)
Definition rand_mod (r m : Z) : Z := Z.rem r m.

Definition simulate_cpu_usage (r1 r2 : Z) (j : JobMetadata) : JobMetadata :=
  let cmd := Str.tolower (command j) in
  let u :=
    if Str.contains "sleep" cmd then 5 + rand_mod r1 15
    else if Str.contains "find" cmd || Str.contains "grep" cmd
         then 30 + rand_mod r1 40
    else if Str.contains "make" cmd || Str.contains "compile" cmd
         then 70 + rand_mod r1 30
    else 25 + rand_mod r1 50 in
  set_cpu (inject_Z u) (100 + rand_mod r2 500) j.

Definition base_memory (cmd : string) : Z :=
  let b := to_size_t (10 + Z.of_nat (String.length cmd) / 10) in
  if Str.contains "make" cmd then to_size_t (b * 5) else b.

Definition simulate_memory_usage (j : JobMetadata) : JobMetadata :=
  set_memory_usage_mb
    (Z.min (base_memory (command j)) (max_memory_mb (limits j))) j.

(** *** Statistics *)

Definition sum_over (f : JobMetadata → Z) (jobs : list JobMetadata)
    (ptrs : list JobPtr) : Z :=
  foldl (λ acc p, match jobs !! p with Some j => acc + f j | None => acc end)
        0 ptrs.

Definition turnaround_ms (j : JobMetadata) : Z :=
  to_milliseconds (end_time j - submit_time j).
Definition wait_ms (j : JobMetadata) : Z :=
  to_milliseconds (start_time j - submit_time j).

Definition update_system_stats (now : time_point) (s : JobScheduler)
    : JobScheduler :=
  match completed_jobs_ s with
  | [] => s
  | _ =>
      let n := inject_Z (Z.of_nat (length (completed_jobs_ s))) in
      let total_turnaround :=
        sum_over turnaround_ms (all_jobs_ s) (completed_jobs_ s) in
      let total_wait := sum_over wait_ms (all_jobs_ s) (completed_jobs_ s) in
      let st := stats_ s in
      let minutes := to_minutes (now - stats_start_time st) in
      let tp := if 0 <? minutes
                then (inject_Z (total_jobs_completed st) / inject_Z minutes)%Q
                else system_throughput st in
      let mem := to_size_t
                   (sum_over memory_usage_mb (all_jobs_ s) (active_jobs_ s)) in
      with_stats
        (mkStats (total_jobs_submitted st) (total_jobs_completed st)
           (total_jobs_failed st) (total_jobs_killed st)
           (inject_Z total_turnaround / n)%Q (inject_Z total_wait / n)%Q
           tp mem (stats_start_time st)) s
  end.

Definition is_job_ready_to_run (p : JobPtr) (s : JobScheduler) : bool :=
  match all_jobs_ s !! p with
  | Some j =>
      bool_decide (status j = PENDING)
      && dependencies_satisfied j (all_jobs_ s)
      && (Z.of_nat (length (active_jobs_ s)) <? max_concurrent_jobs_ s)
  | None => false
  end.

Definition max_completed : nat := 1000.

Definition cleanup_completed_jobs (s : JobScheduler) : JobScheduler :=
  if (max_completed <? length (completed_jobs_ s))%nat
  then with_completed
         (drop (length (completed_jobs_ s) - max_completed) (completed_jobs_ s)) s
  else s.

(** *** Job scripts *)

(** What the C++ code throws. *)
Inductive Exn :=
  | RuntimeError (msg : string)   (* std::runtime_error *)
  | ConversionError (fn : string) (* std::invalid_argument / std::out_of_range *).

(** The local variables of parse_job_script. *)
Record ScriptVars := mkVars {
  v_job_name : string;
  v_priority : JobPriority;
  v_command : string;
  v_memory_limit : Z;
  v_runtime_limit : Z;
  v_cores : Z;
  v_dependencies : list Z
}.

Definition script_vars_init : ScriptVars :=
  mkVars "" MEDIUM "" 1024 3600 1 [].

(** [line.substr(line.find(":") + 1)] *)
Definition after_colon (line : string) : string :=
  match Str.find ":" line with
  | Some i => Str.drop (i + 1) line
  | None => line
  end.

Definition trim (s : string) : string := Str.rtrim (Str.ltrim s).

Definition parse_priority (pri : string) (old : JobPriority) : JobPriority :=
  if decide (pri = "HIGH") then HIGH
  else if decide (pri = "LOW") then LOW
  else if decide (pri = "CRITICAL") then CRITICAL
  else old.

(** The inner loop over the comma separated dependency list. *)
Fixpoint parse_deps (pieces : list string) (acc : list Z) : Exn + list Z :=
  match pieces with
  | [] => inr acc
  | dep :: rest =>
      match stoi (trim dep) with
      | Some d => parse_deps rest (acc ++ [d])
      | None => inl (ConversionError "stoi")
      end
  end.

(** The chain of tests applied to a header line. *)
Definition parse_header (line : string) (v : ScriptVars) : Exn + ScriptVars :=
  if Str.contains "JOB_NAME:" line then
    inr (mkVars (trim (after_colon line)) (v_priority v) (v_command v)
           (v_memory_limit v) (v_runtime_limit v) (v_cores v) (v_dependencies v))
  else if Str.contains "PRIORITY:" line then
    inr (mkVars (v_job_name v)
           (parse_priority (trim (after_colon line)) (v_priority v))
           (v_command v) (v_memory_limit v) (v_runtime_limit v) (v_cores v)
           (v_dependencies v))
  else if Str.contains "MEMORY_LIMIT:" line then
    match stoul (Str.ltrim (after_colon line)) with
    | Some m =>
        inr (mkVars (v_job_name v) (v_priority v) (v_command v) m
               (v_runtime_limit v) (v_cores v) (v_dependencies v))
    | None => inl (ConversionError "stoul")
    end
  else if Str.contains "RUNTIME_LIMIT:" line then
    match stoi (Str.ltrim (after_colon line)) with
    | Some t =>
        inr (mkVars (v_job_name v) (v_priority v) (v_command v)
               (v_memory_limit v) t (v_cores v) (v_dependencies v))
    | None => inl (ConversionError "stoi")
    end
  else if Str.contains "CORES:" line then
    match stoi (Str.ltrim (after_colon line)) with
    | Some c =>
        inr (mkVars (v_job_name v) (v_priority v) (v_command v)
               (v_memory_limit v) (v_runtime_limit v) c (v_dependencies v))
    | None => inl (ConversionError "stoi")
    end
  else if Str.contains "DEPENDENCIES:" line then
    match parse_deps (Str.getlines "," (Str.ltrim (after_colon line)))
            (v_dependencies v) with
    | inr ds =>
        inr (mkVars (v_job_name v) (v_priority v) (v_command v)
               (v_memory_limit v) (v_runtime_limit v) (v_cores v) ds)
    | inl e => inl e
    end
  else inr v.

(** [line.empty() || line[0] != '#'] *)
Definition ends_headers (line : string) : bool :=
  match line with
  | EmptyString => true
  | String c _ => negb (Ascii.eqb c "#")
  end.

(** The while loop over the lines of the file. *)
Fixpoint parse_lines (lines : list string) (v : ScriptVars) : Exn + ScriptVars :=
  match lines with
  | [] => inr v
  | line :: rest =>
      if ends_headers line then
        inr (mkVars (v_job_name v) (v_priority v) line (v_memory_limit v)
               (v_runtime_limit v) (v_cores v) (v_dependencies v))
      else
        match parse_header line v with
        | inr v' => parse_lines rest v'
        | inl e => inl e
        end
  end.

Definition newline : ascii := "010".

(** parse_job_script; [file] is the content of the file at [script_path],
    [None] when it cannot be opened. *)
Definition parse_job_script (script_path : string) (file : option string)
    (now : time_point) (s : JobScheduler) : (Exn + JobPtr) * JobScheduler :=
  match file with
  | None => (inl (RuntimeError ("Failed to open job script: " +:+ script_path)), s)
  | Some content =>
      match parse_lines (Str.getlines newline content) script_vars_init with
      | inl e => (inl e, s)
      | inr v =>
          if decide (v_command v = "") then
            (inl (RuntimeError ("No command found in job script: " +:+ script_path)), s)
          else
            let '(ptr, s) :=
              match v_dependencies v with
              | [] => submit_job (v_command v) (v_priority v) now s
              | _ => submit_job_with_deps (v_command v) (v_dependencies v)
                       (v_priority v) now s
              end in
            let l := {| max_memory_mb := v_memory_limit v;
                        max_runtime := v_runtime_limit v;
                        max_cpu_cores := v_cores v |} in
            (inr ptr,
             with_jobs (alter (set_script_fields (v_job_name v) l) ptr
                          (all_jobs_ s)) s)
      end
  end.

Definition submit_job_script := parse_job_script.

(** parse_job_script up to the return of submit_job (or
    submit_job_with_deps): what is thrown, or the thread with the writes it
    has left. *)
Definition parse_job_script_submit (script_path : string) (file : option string)
    (now : time_point) (s : JobScheduler) : (Exn + Caller) * JobScheduler :=
  match file with
  | None => (inl (RuntimeError ("Failed to open job script: " +:+ script_path)), s)
  | Some content =>
      match parse_lines (Str.getlines newline content) script_vars_init with
      | inl e => (inl e, s)
      | inr v =>
          if decide (v_command v = "") then
            (inl (RuntimeError ("No command found in job script: " +:+ script_path)), s)
          else
            let '(ptr, s) :=
              match v_dependencies v with
              | [] => submit_job (v_command v) (v_priority v) now s
              | _ => submit_job_with_deps (v_command v) (v_dependencies v)
                       (v_priority v) now s
              end in
            let l := {| max_memory_mb := v_memory_limit v;
                        max_runtime := v_runtime_limit v;
                        max_cpu_cores := v_cores v |} in
            (inr (After_script ptr (v_job_name v) l), s)
      end
  end.

(** The writes a caller has left: to which record, and which. *)
Definition caller_job (c : Caller) : JobPtr :=
  match c with After_script p _ _ | After_array p _ _ => p end.

Definition caller_write (c : Caller) : JobMetadata → JobMetadata :=
  match c with
  | After_script _ name l => set_script_fields name l
  | After_array _ a i => set_array a i
  end.

(** The thread at position [k] of [callers_] writes and returns. *)
Definition caller_step (k : nat) (s : JobScheduler) : JobScheduler :=
  match callers_ s !! k with
  | Some c =>
      with_callers (delete k (callers_ s))
        (with_jobs (alter (caller_write c) (caller_job c) (all_jobs_ s)) s)
  | None => s
  end.

(** A call of parse_job_script, as the steps of the transition system see
    it: the part up to the return of submit_job; the caller is then in
    [callers_]. *)
Definition submit_job_script_begin (script_path : string) (file : option string)
    (now : time_point) (s : JobScheduler) : JobScheduler :=
  match parse_job_script_submit script_path file now s with
  | (inr c, s') => with_callers (callers_ s' ++ [c]) s'
  | (inl _, s') => s'
  end.

(** An iteration of the loop of submit_job_array up to the return of
    submit_job. *)
Definition submit_array_task_begin (template : string) (array_job_id : Z)
    (i : Z) (p : JobPriority) (now : time_point) (s : JobScheduler)
    : JobScheduler :=
  let '(ptr, s') := submit_job (replace_array_id template i) p now s in
  with_callers (callers_ s' ++ [After_array ptr array_job_id i]) s'.

Definition create_job_from_command := submit_job.

(** *** Worker threads *)

Inductive ForkResult := Forked (pid : positive) | ForkFailed.

(** What waitpid stores in [status]: WIFEXITED with WEXITSTATUS, or not. *)
Inductive WaitStatus := Exited (code : Z) | NotExited.

(** What a worker step reads from its environment. *)
Record WorkerInput := mkInput {
  in_top : nat;               (* position in the queue of the entry top() yields *)
  in_now : time_point;        (* system_clock::now() *)
  in_rand1 : Z;               (* rand(), first call *)
  in_rand2 : Z;               (* rand(), second call *)
  in_fork : ForkResult;
  in_wait : WaitStatus
}.

Definition update_job (f : JobMetadata → JobMetadata) (p : JobPtr)
    (s : JobScheduler) : JobScheduler :=
  with_jobs (alter f p (all_jobs_ s)) s.

(** The locked region at the head of the worker loop.  The heap order of
    std::priority_queue is not modelled: [in_top] names the entry that
    top() returns and pop() removes. *)
Definition worker_take (i : WorkerInput) (s : JobScheduler)
    : Worker * JobScheduler :=
  if negb (running_ s) then (W_Exited, s)
  else
    match job_queue_ s !! in_top i with
    | Some p =>
        if Z.of_nat (length (active_jobs_ s)) <? max_concurrent_jobs_ s then
          (W_Popped p,
           with_active (active_jobs_ s ++ [p])
             (with_queue (delete (in_top i) (job_queue_ s)) s))
        else (W_Idle, s)
    | None => (W_Idle, s)
    end.

(** execute_job: the call of assign_core, a locked region of its own. *)
Definition execute_job_assign (p : JobPtr) (i : WorkerInput) (s : JobScheduler)
    : Worker * JobScheduler :=
  let '(core, s) := assign_core (in_now i) s in
  (W_Assigned p core, s).

(** execute_job from the store of the core id to fork. *)
Definition execute_job_launch (p : JobPtr) (core : Z) (i : WorkerInput)
    (s : JobScheduler) : Worker * JobScheduler :=
  let s := update_job (set_assigned_core_id core) p s in
  let s := update_job (simulate_cpu_usage (in_rand1 i) (in_rand2 i)) p s in
  let s := update_job simulate_memory_usage p s in
  match in_fork i with
  | Forked pid => (W_Waitpid p, update_job (set_process_id (Zpos pid)) p s)
  | ForkFailed => (W_Release p, update_job (set_outcome FAILED (-1)) p s)
  end.

(** execute_job after waitpid has returned, up to the call of release_core. *)
Definition execute_job_reap (p : JobPtr) (i : WorkerInput) (s : JobScheduler)
    : Worker * JobScheduler :=
  let s := update_job (set_ended (in_now i)) p s in
  let s :=
    match in_wait i with
    | Exited code =>
        update_job (set_outcome (if decide (code = 0) then COMPLETED else FAILED)
                      code) p s
    | NotExited => update_job (set_outcome FAILED (-1)) p s
    end in
  (W_Release p, s).

Definition execute_job_release (p : JobPtr) (s : JobScheduler)
    : Worker * JobScheduler :=
  match all_jobs_ s !! p with
  | Some j => (W_Finish p, release_core (assigned_core_id j) s)
  | None => (W_Finish p, s)
  end.

(** [erase(it)] for [it = std::find(begin, end, p)]. *)
Fixpoint erase_first (p : JobPtr) (l : list JobPtr) : option (list JobPtr) :=
  match l with
  | [] => None
  | x :: rest =>
      if decide (x = p) then Some rest
      else cons x <$> erase_first p rest
  end.

Definition is_terminal (st : JobStatus) : bool :=
  match st with COMPLETED | FAILED | KILLED => true | _ => false end.

(** The locked region of worker_function after execute_job. *)
Definition worker_finish (p : JobPtr) (s : JobScheduler) : Worker * JobScheduler :=
  match erase_first p (active_jobs_ s), all_jobs_ s !! p with
  | Some rest, Some j =>
      let s := with_active rest s in
      if is_terminal (status j) then
        let s := with_completed (completed_jobs_ s ++ [p]) s in
        let s :=
          if decide (status j = COMPLETED)
          then with_stats (incr_completed (stats_ s)) s
          else if decide (status j = FAILED)
               then with_stats (incr_failed (stats_ s)) s
               else s in
        (W_Idle, update_job_dependencies p s)
      else (W_Idle, s)
  | _, _ => (W_Idle, s)
  end.

(** One step of worker [w]. *)
Definition worker_step (w : nat) (i : WorkerInput) (s : JobScheduler)
    : JobScheduler :=
  match worker_threads_ s !! w with
  | None => s
  | Some pc =>
      let '(pc', s') :=
        match pc with
        | W_Idle => worker_take i s
        | W_Popped p => (W_Started p, update_job (set_started w (in_now i)) p s)
        | W_Started p => execute_job_assign p i s
        | W_Assigned p core => execute_job_launch p core i s
        | W_Waitpid p => execute_job_reap p i s
        | W_Release p => execute_job_release p s
        | W_Finish p => worker_finish p s
        | W_Exited => (W_Exited, s)
        end in
      with_workers (<[w:=pc']> (worker_threads_ s')) s'
  end.

(** *** Steps that need no lock *)

(** The program points from which a worker goes on without taking
    [mutex_]: the writes at the head of execute_job, the writes after
    assign_core up to fork, and the writes after waitpid. *)
Definition lock_free (pc : Worker) : bool :=
  match pc with
  | W_Popped _ | W_Assigned _ _ | W_Waitpid _ => true
  | _ => false
  end.

(** A step of another thread that can fall inside a locked region. *)
Inductive Unlocked :=
  | U_worker (w : nat) (i : WorkerInput)
  | U_caller (k : nat).

Definition unlocked_step (u : Unlocked) (s : JobScheduler) : JobScheduler :=
  match u with
  | U_worker w i =>
      match worker_threads_ s !! w with
      | Some pc => if lock_free pc then worker_step w i s else s
      | None => s
      end
  | U_caller k => caller_step k s
  end.

Definition run_unlocked (us : list Unlocked) (s : JobScheduler) : JobScheduler :=
  foldl (λ s u, unlocked_step u s) s us.

(** suspend_job with the lock-free steps [during] of other threads between
    its test of the status and its store.  When the test fails nothing is
    stored, and the steps of the others are steps of their own. *)
Definition suspend_job_during (id : Z) (during : list Unlocked)
    (s : JobScheduler) : bool * JobScheduler :=
  match find_ptr id (all_jobs_ s) (active_jobs_ s) with
  | Some p =>
      if decide (status_at s p = Some RUNNING)
      then (true, update_job (set_status SUSPENDED) p (run_unlocked during s))
      else (false, s)
  | None => (false, s)
  end.

Definition resume_job_during (id : Z) (during : list Unlocked)
    (s : JobScheduler) : bool * JobScheduler :=
  match find_ptr id (all_jobs_ s) (active_jobs_ s) with
  | Some p =>
      if decide (status_at s p = Some SUSPENDED)
      then (true, update_job (set_status RUNNING) p (run_unlocked during s))
      else (false, s)
  | None => (false, s)
  end.

(** ** The scheduler as a transition system *)

Inductive Event :=
  | E_start
  | E_stop_flag
  | E_stop_join
  | E_submit_job (cmd : string) (p : JobPriority) (now : time_point)
  | E_submit_job_with_deps (cmd : string) (deps : list Z) (p : JobPriority)
      (now : time_point)
  | E_submit_array_task (template : string) (array_job_id i : Z)
      (p : JobPriority) (now : time_point)
  | E_submit_job_script (path : string) (file : option string) (now : time_point)
  | E_caller (k : nat)
  | E_kill_job (id : Z)
  | E_suspend_job (id : Z) (during : list Unlocked)
  | E_resume_job (id : Z) (during : list Unlocked)
  | E_change_job_priority (id : Z) (p : JobPriority)
  | E_set_scheduling_policy (p : SchedulingPolicy)
  | E_set_max_concurrent_jobs (n : Z)
  | E_enable_cpu_affinity (b : bool)
  | E_worker (w : nat) (i : WorkerInput).

Definition step (e : Event) (s : JobScheduler) : JobScheduler :=
  match e with
  | E_start => start s
  | E_stop_flag => stop_flag s
  | E_stop_join => stop_join s
  | E_submit_job cmd p now => (submit_job cmd p now s).2
  | E_submit_job_with_deps cmd deps p now =>
      (submit_job_with_deps cmd deps p now s).2
  | E_submit_array_task t a i p now => submit_array_task_begin t a i p now s
  | E_submit_job_script path file now => submit_job_script_begin path file now s
  | E_caller k => caller_step k s
  | E_kill_job id => (kill_job id s).2
  | E_suspend_job id during => (suspend_job_during id during s).2
  | E_resume_job id during => (resume_job_during id during s).2
  | E_change_job_priority id p => (change_job_priority id p s).2
  | E_set_scheduling_policy p => set_scheduling_policy p s
  | E_set_max_concurrent_jobs n => set_max_concurrent_jobs n s
  | E_enable_cpu_affinity b => enable_cpu_affinity b s
  | E_worker w i => worker_step w i s
  end.

Definition run (evs : list Event) (s : JobScheduler) : JobScheduler :=
  foldl (λ s e, step e s) s evs.

(** The states the program can be in: those a sequence of events leads to
    from a freshly constructed scheduler. *)
Inductive reachable : JobScheduler → Prop :=
  | reach_new n now : reachable (JobScheduler_new n now)
  | reach_step e s : reachable s → reachable (step e s).

(** ** src/shell.cpp: how the shell reads a line and submits jobs *)

Module Shell.

(** The characters of the set [" \t\n\r"]. *)
Definition is_ws (c : ascii) : bool :=
  (Ascii.eqb c " " || Ascii.eqb c "009" || Ascii.eqb c "010"
   || Ascii.eqb c "013")%bool.

(** [s.find_first_not_of(" \t\n\r")]; [None] stands for npos. *)
Fixpoint find_first_not_ws (s : string) : option nat :=
  match s with
  | EmptyString => None
  | String c s' => if is_ws c then S <$> find_first_not_ws s' else Some 0%nat
  end.

(** [s.find_last_not_of(" \t\n\r")] *)
Fixpoint find_last_not_ws (s : string) : option nat :=
  match s with
  | EmptyString => None
  | String c s' =>
      match find_last_not_ws s' with
      | Some i => Some (S i)
      | None => if is_ws c then None else Some 0%nat
      end
  end.

(** [s.substr(pos, n)] for [pos <= s.size()]; [n] is a size_t. *)
Definition substr (pos : nat) (n : Z) (s : string) : string :=
  Str.take (Z.to_nat n) (Str.drop pos s).

(** trim_command; the count [last - first + 1] is computed in size_t. *)
Definition trim_command (str : string) : string :=
  match find_first_not_ws str with
  | None => ""
  | Some first =>
      let last := match find_last_not_ws str with
                  | Some l => Z.of_nat l
                  | None => size_t_max
                  end in
      substr first (to_size_t (last - Z.of_nat first + 1)) str
  end.

(** [s.back()] *)
Fixpoint back (s : string) : option ascii :=
  match s with
  | EmptyString => None
  | String c EmptyString => Some c
  | String _ s' => back s'
  end.

Definition is_background_job (command : string) : bool :=
  match back command with
  | Some c => Ascii.eqb c "&"
  | None => false
  end.

(** The body of the loop of parse_command_chain for one piece that
    getline has read. *)
Definition chain_piece (commands : list string) (command : string)
    : list string :=
  if decide (command = "") then commands
  else
    let command :=
      match commands, command with
      | _ :: _, String "&" rest => rest
      | _, _ => command
      end in
    let command := trim_command command in
    if decide (command = "") then commands else commands ++ [command].

Definition parse_command_chain (input : string) : list string :=
  if Str.contains "&&" input
  then foldl chain_piece [] (Str.getlines "&" input)
  else [input].

(** The keys of [builtin_commands_] after init_builtin_commands. *)
Definition builtin_commands : list string :=
  [ "help"; "jobs"; "jobinfo"; "kill"; "suspend"; "resume"; "priority";
    "submit"; "stats"; "cores"; "queue"; "perf"; "policy"; "config";
    "export"; "visualize"; "cd"; "pwd"; "exit"; "quit" ].

Definition is_builtin_command (command : string) : bool :=
  bool_decide (command ∈ builtin_commands).

(** [trimmed.substr(0, trimmed.find(' '))], the whole line when it has no
    space. *)
Definition first_word (trimmed : string) : string :=
  match Str.find " " trimmed with
  | Some pos => Str.take pos trimmed
  | None => trimmed
  end.

(** The body of the loop of parse_and_execute for one command of the
    chain: the arguments of the call of submit_job it makes, if any. *)
Definition submission (cmd : string) : option (string * JobPriority) :=
  let background := is_background_job cmd in
  let actual_cmd :=
    if background
    then substr 0 (to_size_t (Z.of_nat (String.length cmd) - 1)) cmd
    else cmd in
  let actual_cmd := trim_command actual_cmd in
  if decide (actual_cmd = "") then None
  else Some (actual_cmd, if background then LOW else MEDIUM).

(** What parse_and_execute does with a line. *)
Inductive Action :=
  | NoAction                                     (* empty line *)
  | Builtin (line : string)                      (* handle_builtin_command *)
  | Submit (jobs : list (string * JobPriority))  (* calls of submit_job *).

Definition parse_and_execute (input : string) : Action :=
  let trimmed := trim_command input in
  if decide (trimmed = "") then NoAction
  else if is_builtin_command (first_word trimmed) then Builtin trimmed
  else Submit (omap submission (parse_command_chain trimmed)).

(** split_args: the items [ss >> item] extracts, [item] being the
    characters read so far. *)
Fixpoint split_args_go (item : string) (s : string) : list string :=
  match s with
  | EmptyString => if decide (item = "") then [] else [item]
  | String c s' =>
      if Str.is_space c then
        if decide (item = "") then split_args_go "" s'
        else item :: split_args_go "" s'
      else split_args_go (item +:+ String c "") s'
  end.

Definition split_args (args : string) : list string := split_args_go "" args.

(** [std::string(n, ' ')]: [None] for the std::length_error a negative
    int, converted to size_t, raises. *)
Definition spaces (n : Z) : option string :=
  if n <? 0 then None
  else Some (string_of_list_ascii (replicate (Z.to_nat n) " "%char)).

Definition truncate_text (text : string) (max_width : Z) : string :=
  if Z.of_nat (String.length text) <=? to_size_t max_width then text
  else if max_width <? 4 then substr 0 (to_size_t max_width) text
  else substr 0 (to_size_t (to_int (max_width - 3))) text +:+ "...".

Definition center_text (text : string) (width : Z) : option string :=
  if to_size_t width <=? Z.of_nat (String.length text)
  then Some (truncate_text text width)
  else
    let padding :=
      to_int (to_size_t (to_size_t width - Z.of_nat (String.length text))) in
    let left_pad := Z.quot padding 2 in
    let right_pad := to_int (padding - left_pad) in
    match spaces left_pad, spaces right_pad with
    | Some l, Some r => Some (l +:+ text +:+ r)
    | _, _ => None
    end.

End Shell.

(** ** Notions used to state the properties *)

(** The indices below [m] whose slot is free, in increasing order. *)
Definition free_slots (cores : list bool) (m : nat) : list nat :=
  filter (λ i, cores !! i = Some true) (seq 0 m).

(** The table after the slots in [taken] have been marked unavailable. *)
Definition mark_taken (taken : list nat) (cores : list bool) : list bool :=
  imap (λ i c, if decide (i ∈ taken) then false else c) cores.

(** [static_cast<int>(i)] for a slot index. *)
Definition core_id_of (i : nat) : Z := to_int (Z.of_nat i).

(** The contract of allocate_n in the words of the specification: exactly
    [count] previously free slots are returned and marked unavailable, or
    nothing is returned and the table is unchanged. *)
Definition all_or_nothing (count : Z) (now : nat → time_point)
    (s : JobScheduler) : Prop :=
  let '(assigned, s') := assign_multiple_cores count now s in
  (Z.of_nat (length assigned) = count
   ∧ ∀ c, c ∈ assigned →
       core_availability_ s !! Z.to_nat c = Some true
       ∧ core_availability_ s' !! Z.to_nat c = Some false)
  ∨ (assigned = [] ∧ core_availability_ s' = core_availability_ s).

(** What std::priority_queue guarantees about the entry [top()] returns,
    for a comparator [cmp] that orders the stored elements: the entry is
    ordered before no other entry. *)
Definition is_top (cmp : JobMetadata → JobMetadata → bool)
    (jobs : list JobMetadata) (q : list JobPtr) (p : JobPtr) : Prop :=
  p ∈ q ∧
  ∀ x jp jx, x ∈ q → jobs !! p = Some jp → jobs !! x = Some jx →
             cmp jp jx = false.

(** A file made of the given lines, each terminated by a newline. *)
Definition unlines (ls : list string) : string :=
  foldr (λ l acc, l +:+ String newline acc) "" ls.

(** The command line of a job script in the words of the specification:
    the first line that is neither a header (beginning with '#') nor
    blank. *)
Definition is_header_line (line : string) : bool :=
  match line with String "#" _ => true | _ => false end.

Definition is_blank_line (line : string) : bool :=
  match Str.ltrim line with EmptyString => true | _ => false end.

Fixpoint spec_command_line (lines : list string) : option string :=
  match lines with
  | [] => None
  | l :: rest =>
      if is_header_line l || is_blank_line l then spec_command_line rest
      else Some l
  end.

(** The averages in the words of the specification: means over the
    completed set. *)
Definition mean_over (f : JobMetadata → Z) (s : JobScheduler) : Q :=
  (inject_Z (sum_over f (all_jobs_ s) (completed_jobs_ s))
   / inject_Z (Z.of_nat (length (completed_jobs_ s))))%Q.

(** *** Scenarios *)

Definition ms (n : Z) : time_point := n * ticks_per_ms.
Definition minutes (n : Z) : time_point := n * ticks_per_minute.

(** A worker input: the head of the queue, clock reading [now], a
    successful fork, and a child that exits with [code]. *)
Definition input_at (now : time_point) (code : Z) : WorkerInput :=
  mkInput 0 now 7 9 (Forked 100) (Exited code).

(** One job is submitted at time 0 and a worker takes it at 10 ms, through
    assign_core and fork, into waitpid. *)
Definition one_job_running (cmd : string) : JobScheduler :=
  run [E_start; E_submit_job cmd MEDIUM 0;
       E_worker 0 (input_at (ms 10) 0);
       E_worker 0 (input_at (ms 10) 0);
       E_worker 0 (input_at (ms 10) 0);
       E_worker 0 (input_at (ms 10) 0)]
      (JobScheduler_new 1 0).

(** ... and the child exits with [code] at 100 ms; the worker goes back to
    the head of its loop. *)
Definition one_job_done (cmd : string) (code : Z) : JobScheduler :=
  run [E_worker 0 (input_at (ms 100) code);
       E_worker 0 (input_at (ms 100) code);
       E_worker 0 (input_at (ms 100) code)]
      (one_job_running cmd).

(** The life of the [k]-th of a series of jobs, run one after the other
    by worker 0. *)
Definition job_cycle (k : nat) : list Event :=
  let t := ms (Z.of_nat k * 10) in
  [E_submit_job "true" MEDIUM t;
   E_worker 0 (input_at (t + 1) 0); E_worker 0 (input_at (t + 2) 0);
   E_worker 0 (input_at (t + 3) 0); E_worker 0 (input_at (t + 4) 0);
   E_worker 0 (input_at (t + 5) 0); E_worker 0 (input_at (t + 6) 0);
   E_worker 0 (input_at (t + 7) 0)].

Definition after_jobs (n : nat) : JobScheduler :=
  run (E_start :: concat (job_cycle <$> seq 0 n)) (JobScheduler_new 1 0).

(** While the only worker waits for a long job, two jobs are queued: a
    MEDIUM one submitted after 1 minute and a HIGH one submitted after 201
    minutes. *)
Definition aged_queue : JobScheduler :=
  run [E_submit_job "echo a" MEDIUM (minutes 1);
       E_submit_job "echo b" HIGH (minutes 201)]
      (one_job_running "sleep 99999").

(** The job script shown in README.md. *)
Definition readme_script : string :=
  unlines [ "# example_job.sh";
            "# JOB_NAME: Data Processing";
            "# PRIORITY: HIGH";
            "# MEMORY_LIMIT: 2048";
            "# RUNTIME_LIMIT: 300";
            "# CORES: 4";
            "";
            "python3 process_data.py --input data.csv --output results.json" ].

(** *** The bookkeeping invariant of the scheduler *)

(** The job a worker holds in its local variable [job]. *)
Definition holds (pc : Worker) : option JobPtr :=
  match pc with
  | W_Popped p | W_Started p | W_Assigned p _ | W_Waitpid p | W_Release p
  | W_Finish p => Some p
  | W_Idle | W_Exited => None
  end.

(** ... while it has not yet stored a core id in it, *)
Definition before_assign (pc : Worker) : option JobPtr :=
  match pc with
  | W_Popped p | W_Started p | W_Assigned p _ => Some p
  | _ => None
  end.

(** ... between the store of the core id and release_core. *)
Definition has_core (pc : Worker) : option JobPtr :=
  match pc with W_Waitpid p | W_Release p => Some p | _ => None end.

(** The value a worker has got from assign_core and not yet passed to
    release_core: in hand, or stored in its job. *)
Definition owned_core (jobs : list JobMetadata) (pc : Worker) : option Z :=
  match pc with
  | W_Assigned _ c => Some c
  | W_Waitpid p | W_Release p => assigned_core_id <$> jobs !! p
  | _ => None
  end.

Record InvC (ws : list Worker) (q a : list JobPtr) (jobs : list JobMetadata)
    (cores : list bool) (n : nat) : Prop := mkInv {
  inv_len : length cores = n;
  inv_q_nodup : NoDup q;
  inv_q : ∀ p, p ∈ q →
      ∃ j, jobs !! p = Some j ∧ status j = PENDING ∧ assigned_core_id j = -1;
  inv_q_active : ∀ p, p ∈ q → p ∉ a;
  inv_q_held : ∀ p w pc, p ∈ q → ws !! w = Some pc → holds pc ≠ Some p;
  inv_held : ∀ w pc p, ws !! w = Some pc → holds pc = Some p →
      ∃ j, jobs !! p = Some j ∧ status j ≠ WAITING_DEPS;
  inv_inj : ∀ w w' pc pc' p,
      ws !! w = Some pc → ws !! w' = Some pc' →
      holds pc = Some p → holds pc' = Some p → w = w';
  inv_active : ∀ p, p ∈ a →
      ∃ j, jobs !! p = Some j ∧ status j ≠ WAITING_DEPS;
  inv_waiting : ∀ p j, jobs !! p = Some j → status j = WAITING_DEPS →
      assigned_core_id j = -1;
  inv_before : ∀ w pc p j, ws !! w = Some pc → before_assign pc = Some p →
      jobs !! p = Some j → assigned_core_id j = -1;
  inv_core : Z.of_nat n ≤ int_max →
      ∀ w pc c, ws !! w = Some pc → owned_core jobs pc = Some c → c ≠ -1 →
      0 ≤ c < Z.of_nat n ∧ cores !! Z.to_nat c = Some false;
  inv_core_inj : Z.of_nat n ≤ int_max →
      ∀ w w' pc pc' c,
      ws !! w = Some pc → ws !! w' = Some pc' →
      owned_core jobs pc = Some c → owned_core jobs pc' = Some c → c ≠ -1 →
      w = w'
}.

Definition Inv (s : JobScheduler) : Prop :=
  InvC (worker_threads_ s) (job_queue_ s) (active_jobs_ s) (all_jobs_ s)
       (core_availability_ s) (num_cores_ s).

(** Invariant 4 of the data model in the words of the specification.  The
    core table stores no job, so "the slot references this job" is read as:
    no other RUNNING job is assigned to the slot. *)
Definition running_has_core (s : JobScheduler) : Prop :=
  ∀ p j, all_jobs_ s !! p = Some j → status j = RUNNING →
    0 ≤ assigned_core_id j < Z.of_nat (num_cores_ s)
    ∧ core_availability_ s !! Z.to_nat (assigned_core_id j) = Some false
    ∧ ∀ p' j', p' ≠ p → all_jobs_ s !! p' = Some j' → status j' = RUNNING →
        assigned_core_id j' ≠ assigned_core_id j.

(** A job is submitted and a worker has just begun execute_job on it: the
    status has been written, assign_core has not been called yet. *)
Definition just_started : JobScheduler :=
  run [E_start; E_submit_job "sleep 5" MEDIUM 0;
       E_worker 0 (input_at (ms 10) 0);
       E_worker 0 (input_at (ms 10) 0)]
      (JobScheduler_new 1 0).

(** Two cores; one job runs on core 0. *)
Definition one_of_two_cores_busy : JobScheduler :=
  run [E_start; E_submit_job "make all" MEDIUM 0;
       E_worker 0 (input_at (ms 10) 0);
       E_worker 0 (input_at (ms 10) 0);
       E_worker 0 (input_at (ms 10) 0);
       E_worker 0 (input_at (ms 10) 0)]
      (JobScheduler_new 2 0).

(** A job is suspended while its process runs.  resume_job finds it
    SUSPENDED; before resume_job stores RUNNING the child exits and the
    worker, back from waitpid, writes the outcome.  The worker then
    releases the core. *)
Definition resumed_after_exit : JobScheduler :=
  run [E_start; E_submit_job "sleep 5" MEDIUM 0;
       E_worker 0 (input_at (ms 10) 0);
       E_worker 0 (input_at (ms 10) 0);
       E_worker 0 (input_at (ms 10) 0);
       E_worker 0 (input_at (ms 10) 0);
       E_suspend_job 1 [];
       E_resume_job 1 [U_worker 0 (input_at (ms 100) 0)];
       E_worker 0 (input_at (ms 100) 0)]
      (JobScheduler_new 1 0).

(** *** How a step may change the records *)

(** The record [j'] of a job after a step that does not release it from
    WAITING_DEPS, compared with its record [j] before. *)
Definition job_kept (j j' : JobMetadata) : Prop :=
  job_id j' = job_id j
  ∧ dependencies j' = dependencies j
  ∧ (status j = WAITING_DEPS → status j' = WAITING_DEPS).

Definition jobs_kept (jobs jobs' : list JobMetadata) : Prop :=
  ∀ p j, jobs !! p = Some j → ∃ j', jobs' !! p = Some j' ∧ job_kept j j'.

(** What a step that takes no lock can change: the records, the program
    points of the workers and the writes callers have left to do. *)
Definition unlocked_frame (s s' : JobScheduler) : Prop :=
  s' = with_callers (callers_ s')
         (with_workers (worker_threads_ s') (with_jobs (all_jobs_ s') s)).

(** What dependencies_satisfied reads of [all_jobs_]: the ids and which
    records are COMPLETED. *)
Definition completed_view (jobs : list JobMetadata) : list (Z * bool) :=
  (λ j, (job_id j, bool_decide (status j = COMPLETED))) <$> jobs.

(** The steps other than the locked region that ends worker_function's
    loop body (the only caller of update_job_dependencies). *)
Definition not_finishing (e : Event) (s : JobScheduler) : Prop :=
  match e with
  | E_worker w _ =>
      match worker_threads_ s !! w with
      | Some (W_Finish _) => False
      | _ => True
      end
  | _ => True
  end.


(** A job script that declares a memory limit of 5 MB. *)
Definition small_script : string := unlines ["# MEMORY_LIMIT: 5"; "echo hi"].

(** The script is submitted; parse_job_script writes the limits before a
    worker takes the job and runs it into waitpid. *)
Definition script_job_running : JobScheduler :=
  run [E_start;
       E_submit_job_script "job.txt" (Some small_script) 0;
       E_caller 0;
       E_worker 0 (input_at (ms 10) 0); E_worker 0 (input_at (ms 10) 0);
       E_worker 0 (input_at (ms 10) 0); E_worker 0 (input_at (ms 10) 0)]
      (JobScheduler_new 1 0).

(** The same, but the worker is faster: submit_job has notified it, and it
    has run the job into waitpid before parse_job_script, back from
    submit_job, writes the limits. *)
Definition script_job_overtaken : JobScheduler :=
  run [E_start;
       E_submit_job_script "job.txt" (Some small_script) 0;
       E_worker 0 (input_at (ms 10) 0); E_worker 0 (input_at (ms 10) 0);
       E_worker 0 (input_at (ms 10) 0); E_worker 0 (input_at (ms 10) 0);
       E_caller 0]
      (JobScheduler_new 1 0).


(** *** The shell *)

(** The white space trim_command removes, as two passes. *)
Fixpoint ltrim_ws (s : string) : string :=
  match s with
  | String c s' => if Shell.is_ws c then ltrim_ws s' else s
  | EmptyString => EmptyString
  end.

Fixpoint rtrim_ws (s : string) : string :=
  match s with
  | String c s' =>
      match rtrim_ws s' with
      | EmptyString => if Shell.is_ws c then EmptyString else String c EmptyString
      | r => String c r
      end
  | EmptyString => EmptyString
  end.

(** The words of a command line, joined by single spaces. *)
Definition unwords (ws : list string) : string := String.concat " " ws.

(** A word: not empty and free of white space. *)
Fixpoint no_space (s : string) : bool :=
  match s with
  | EmptyString => true
  | String c s' => negb (Str.is_space c) && no_space s'
  end.

Definition is_word (w : string) : Prop := w ≠ "" ∧ no_space w = true.

(** The characters of a string. *)
Fixpoint has_char (c : ascii) (s : string) : bool :=
  match s with
  | EmptyString => false
  | String x s' => Ascii.eqb x c || has_char c s'
  end.

(** A command of a chain: not empty, and without '&'. *)
Definition chain_command (x : string) : Prop :=
  has_char "&" x = false ∧ x ≠ "".

(** *** Job arrays *)

(** The record submit_job_array creates for task [i]. *)
Definition array_task (template : string) (array_job_id : Z) (p : JobPriority)
    (now : nat → time_point) (i : nat) : JobMetadata :=
  set_array array_job_id (Z.of_nat i)
    (JobMetadata_new (array_job_id + Z.of_nat i)
       (replace_array_id template (Z.of_nat i)) p (now i)).

(** *** Further bookkeeping: active and completed jobs, core ownership *)

(** The job of a worker that has begun execute_job: the status RUNNING has
    been written. *)
Definition begun (pc : Worker) : option JobPtr :=
  match pc with
  | W_Started p | W_Assigned p _ | W_Waitpid p | W_Release p | W_Finish p =>
      Some p
  | _ => None
  end.

Record InvE (ws : list Worker) (q a c : list JobPtr) (jobs : list JobMetadata)
    (cores : list bool) (n : nat) : Prop := mkInvE {
  e_a_nodup : NoDup a;
  e_a_held : ∀ p, p ∈ a ↔ ∃ w pc, ws !! w = Some pc ∧ holds pc = Some p;
  e_c_nodup : NoDup c;
  e_c_q : ∀ p, p ∈ c → p ∉ q;
  e_c_held : ∀ p w pc, p ∈ c → ws !! w = Some pc → holds pc ≠ Some p;
  e_c_term : ∀ p, p ∈ c →
      ∃ j, jobs !! p = Some j ∧ is_terminal (status j) = true;
  e_begun : ∀ w pc p j, ws !! w = Some pc → begun pc = Some p →
      jobs !! p = Some j → status j ≠ PENDING;
  e_leak : Z.of_nat n ≤ int_max → ∀ i, cores !! i = Some false →
      ∃ w pc, ws !! w = Some pc ∧ owned_core jobs pc = Some (Z.of_nat i)
}.

Definition InvX (s : JobScheduler) : Prop :=
  InvE (worker_threads_ s) (job_queue_ s) (active_jobs_ s) (completed_jobs_ s)
       (all_jobs_ s) (core_availability_ s) (num_cores_ s).

(** * Properties *)

(** ** Strings *)

Example find_ex : Str.find "make" "cmake ." = Some 1%nat.
Proof. reflexivity. Qed.

Example getlines_ex :
  Str.getlines "010" ("a" +:+ String "010" (String "010" "b")) = ["a"; ""; "b"].
Proof. reflexivity. Qed.

Example trim_ex : trim "  HIGH  " = "HIGH".
Proof. reflexivity. Qed.

Example to_string_ex : Str.to_string 307 = "307".
Proof. reflexivity. Qed.

Example stoi_ex : stoi " 42abc" = Some 42 ∧ stoi "abc" = None ∧ stoul "-1" = Some size_t_max.
Proof. repeat split; reflexivity. Qed.

(** ** Core table: assign_multiple_cores *)

Lemma free_slots_S cores m :
  free_slots cores (S m) =
  free_slots cores m ++ (if decide (cores !! m = Some true) then [m] else []).
Proof.
  unfold free_slots. rewrite seq_S, filter_app. simpl. f_equal.
Qed.

Lemma free_slots_lt cores m i : i ∈ free_slots cores m → (i < m)%nat.
Proof.
  unfold free_slots. rewrite list_elem_of_filter, elem_of_seq. lia.
Qed.

Lemma free_slots_free cores m i :
  i ∈ free_slots cores m → cores !! i = Some true.
Proof. unfold free_slots. rewrite list_elem_of_filter. tauto. Qed.

Lemma mark_taken_lookup taken cores i :
  mark_taken taken cores !! i =
  if decide (i ∈ taken) then (λ _, false) <$> cores !! i else cores !! i.
Proof.
  unfold mark_taken. rewrite list_lookup_imap.
  destruct (cores !! i); simpl; destruct (decide _); done.
Qed.

Lemma mark_taken_length taken cores :
  length (mark_taken taken cores) = length cores.
Proof. unfold mark_taken. apply length_imap. Qed.

(** The state of the loop of assign_multiple_cores after the indices
    below [m]: the first [cnt] free slots among them have been taken. *)
Lemma assign_multiple_loop cnt now cores last m :
  (m ≤ length cores)%nat → 0 ≤ cnt →
  ∃ last',
    foldl (assign_multiple_step cnt now) (cores, last, []) (seq 0 m) =
    (mark_taken (take (Z.to_nat cnt) (free_slots cores m)) cores, last',
     core_id_of <$> take (Z.to_nat cnt) (free_slots cores m)).
Proof.
  intros Hm Hc. induction m as [|m IH].
  - exists last. simpl.
    change (free_slots cores 0) with (@nil nat). rewrite take_nil. simpl.
    f_equal. f_equal. apply list_eq. intros i. rewrite mark_taken_lookup.
    destruct (decide _) as [H|H]; [by apply elem_of_nil in H|done].
  - destruct IH as [last' IH]; [lia|].
    rewrite seq_S, foldl_app, IH. simpl.
    set (F := free_slots cores m) in *.
    set (k := Z.to_nat cnt) in *.
    rewrite length_fmap.
    assert (Hm' : mark_taken (take k F) cores !! m = cores !! m).
    { rewrite mark_taken_lookup. destruct (decide _) as [H|H]; [|done].
      apply elem_of_take in H as (? & H & ?).
      assert (m ∈ F) as H1 by (apply list_elem_of_lookup; eauto).
      apply free_slots_lt in H1. lia. }
    rewrite free_slots_S. fold F.
    destruct (Z.ltb_spec (Z.of_nat (length (take k F))) cnt) as [Hlt|Hge].
    + assert (HF : (length F < k)%nat).
      { rewrite length_take in Hlt. lia. }
      rewrite Hm'.
      destruct (cores !! m) as [[]|] eqn:Hcm.
      * rewrite decide_True by done.
        rewrite (take_ge (F ++ [m])) by (rewrite length_app; simpl; lia).
        rewrite (take_ge F) by lia.
        eexists. f_equal; [f_equal|].
        -- apply list_eq. intros i.
           rewrite list_lookup_insert, !mark_taken_lookup.
           rewrite mark_taken_length.
           destruct (decide (m = i)) as [->|Hne].
           ++ rewrite Hcm. rewrite decide_True by (split; [done|lia]).
              rewrite decide_True; [done|].
              apply elem_of_app. right. by apply list_elem_of_singleton.
           ++ rewrite decide_False by (intros []; done).
              destruct (decide (i ∈ F)) as [Hi|Hi];
                destruct (decide (i ∈ F ++ [m])) as [Hi'|Hi']; try done.
              ** exfalso. apply Hi'. apply elem_of_app. by left.
              ** apply elem_of_app in Hi' as [?|Hi']; [done|].
                 apply list_elem_of_singleton in Hi'. congruence.
        -- rewrite fmap_app. done.
      * rewrite decide_False by done. rewrite app_nil_r. eauto.
      * exfalso. apply lookup_ge_None in Hcm. lia.
    + assert (HF : (k ≤ length F)%nat).
      { rewrite length_take in Hge. lia. }
      rewrite take_app_le by done. eauto.
Qed.

(** C4 (as the code has it).  For a count [0 <= count <= INT_MAX],
    assign_multiple_cores returns the lowest-numbered free slots, at most
    [count] of them, and marks exactly those unavailable: it returns
    [min count free] slots, so with fewer than [count] free slots it takes
    all of them instead of failing. *)
Theorem assign_multiple_cores_greedy count now s :
  0 ≤ count ≤ int_max →
  let cores := core_availability_ s in
  let taken := take (Z.to_nat count) (free_slots cores (length cores)) in
  let r := assign_multiple_cores count now s in
  r.1 = core_id_of <$> taken
  ∧ length r.1 = Nat.min (Z.to_nat count) (length (free_slots cores (length cores)))
  ∧ (∀ i, i ∈ taken → cores !! i = Some true)
  ∧ (∀ i, core_availability_ r.2 !! i =
          if decide (i ∈ taken) then (λ _, false) <$> cores !! i else cores !! i).
Proof.
  intros Hc cores taken r.
  assert (Hsz : to_size_t count = count).
  { unfold to_size_t. apply Z.mod_small. unfold int_max in Hc. lia. }
  destruct (assign_multiple_loop count now cores (core_last_used_ s)
              (length cores)) as [last' Hloop]; [lia|lia|].
  subst r. unfold assign_multiple_cores. rewrite Hsz. fold cores.
  rewrite Hloop. simpl. fold taken. repeat split.
  - unfold taken. rewrite length_fmap, length_take. done.
  - intros i Hi. apply elem_of_take in Hi as (? & Hi & ?).
    apply (free_slots_free cores (length cores)).
    apply list_elem_of_lookup. eauto.
  - intros i. apply mark_taken_lookup.
Qed.

Lemma assign_multiple_cores_greedy_witness :
  let s := JobScheduler_new 3 0 in
  (assign_multiple_cores 2 (λ _, 5) s).1 = [0; 1]
  ∧ core_availability_ (assign_multiple_cores 2 (λ _, 5) s).2 !! 2%nat = Some true.
Proof.
  intros s.
  destruct (assign_multiple_cores_greedy 2 (λ _, 5) s) as (H1 & _ & _ & H4).
  - unfold int_max. lia.
  - split; [exact H1 | exact (H4 2%nat)].
Defined.

(** C4 (as stated) fails: with one free core and a request for two, one
    core is handed out and marked unavailable. *)
Lemma assign_multiple_cores_partial :
  ¬ all_or_nothing 2 (λ _, 0) (JobScheduler_new 1 0).
Proof.
  unfold all_or_nothing. vm_compute. intros [[H _]|[H _]]; discriminate.
Qed.

(** ** Priority queue order *)

(** C1.  The queue's comparator looks at the priority rank only.  With a
    MEDIUM job that has waited 200 minutes and a fresh HIGH job in the
    queue, the only entry top() may return is the HIGH job, although
    calculate_priority_score gives the MEDIUM job the larger score (and
    the comparator of job.h orders the HIGH job before it). *)
Theorem queue_top_ignores_score :
  let s := aged_queue in
  let now := minutes 201 in
  job_queue_ s = [1%nat; 2%nat]
  ∧ (priority <$> all_jobs_ s) = [MEDIUM; MEDIUM; HIGH]
  ∧ (∀ p, is_top JobCompare (all_jobs_ s) (job_queue_ s) p ↔ p = 2%nat)
  ∧ (∃ ja jb sa sb,
        all_jobs_ s !! 1%nat = Some ja ∧ all_jobs_ s !! 2%nat = Some jb
        ∧ calculate_priority_score now ja = Some sa
        ∧ calculate_priority_score now jb = Some sb
        ∧ (sb < sa)%Q
        ∧ JobCompare ja jb = true
        ∧ JobCompare_score now now jb ja = Some true).
Proof.
  intros s now.
  assert (Hq : job_queue_ s = [1%nat; 2%nat]) by (vm_compute; reflexivity).
  destruct (all_jobs_ s !! 1%nat) as [ja|] eqn:Ha;
    [|vm_compute in Ha; discriminate].
  destruct (all_jobs_ s !! 2%nat) as [jb|] eqn:Hb;
    [|vm_compute in Hb; discriminate].
  assert (Hab : JobCompare ja jb = true).
  { vm_compute in Ha, Hb. injection Ha as <-. injection Hb as <-.
    vm_compute. reflexivity. }
  assert (Hbb : JobCompare jb jb = false).
  { unfold JobCompare. apply Z.ltb_irrefl. }
  assert (Hba : JobCompare jb ja = false).
  { vm_compute in Ha, Hb. injection Ha as <-. injection Hb as <-.
    vm_compute. reflexivity. }
  split; [exact Hq|]. split; [vm_compute; reflexivity|]. split.
  - intros p. rewrite Hq. split.
    + intros [Hin Htop].
      apply elem_of_cons in Hin as [->|Hin].
      * assert (Hx : 2%nat ∈ [1%nat; 2%nat]) by (apply list_elem_of_further, list_elem_of_here).
        specialize (Htop 2%nat ja jb Hx Ha Hb).
        rewrite Hab in Htop. discriminate.
      * by apply list_elem_of_singleton in Hin.
    + intros ->. split; [apply list_elem_of_further, list_elem_of_here|].
      intros x jp jx Hx Hp Hjx.
      rewrite Hb in Hp. injection Hp as <-.
      apply elem_of_cons in Hx as [->|Hx].
      * rewrite Ha in Hjx. injection Hjx as <-. exact Hba.
      * apply list_elem_of_singleton in Hx as ->.
        rewrite Hb in Hjx. injection Hjx as <-. exact Hbb.
  - exists ja, jb.
    vm_compute in Ha, Hb. injection Ha as <-. injection Hb as <-.
    eexists _, _.
    split; [reflexivity|]. split; [reflexivity|].
    split; [vm_compute; reflexivity|]. split; [vm_compute; reflexivity|].
    split; [vm_compute; reflexivity|].
    split; vm_compute; reflexivity.
Qed.

(** Two queued jobs of equal priority are equivalent for the queue's
    comparator whatever their scores are. *)
Lemma JobCompare_same_priority a b :
  priority a = priority b → JobCompare a b = false ∧ JobCompare b a = false.
Proof. unfold JobCompare. intros ->. rewrite Z.ltb_irrefl. done. Qed.

Example equal_priority_scores_differ :
  let a := JobMetadata_new 1 "sleep 600" MEDIUM 0 in
  let b := JobMetadata_new 2 "sleep 1" MEDIUM 0 in
  JobCompare a b = false ∧ JobCompare b a = false
  ∧ JobCompare_score 0 0 a b = Some true.
Proof. repeat split; reflexivity. Qed.

(** ** kill_job *)

(** C2.  A job killed while its worker waits in waitpid is KILLED; when
    the child then exits with code 0, execute_job stores COMPLETED over it,
    and the job is counted both as killed and as completed. *)
Theorem killed_status_overwritten :
  let s := one_job_running "sleep 5" in
  let killed := (kill_job 1 s).2 in
  let reaped := step (E_worker 0 (input_at (ms 100) 0)) killed in
  let finished := run [E_worker 0 (input_at (ms 100) 0);
                       E_worker 0 (input_at (ms 100) 0)] reaped in
  worker_threads_ s = [W_Waitpid 0%nat]
  ∧ (kill_job 1 s).1 = true
  ∧ status_at killed 0%nat = Some KILLED
  ∧ status_at reaped 0%nat = Some COMPLETED
  ∧ status_at finished 0%nat = Some COMPLETED
  ∧ total_jobs_killed (stats_ finished) = 1
  ∧ total_jobs_completed (stats_ finished) = 1.
Proof. vm_compute. repeat split; reflexivity. Qed.

(** C6.  kill_job does not look at the status: it succeeds on a SUSPENDED
    job, and on a job whose child has already exited but which its worker
    has not yet removed from active_jobs_; suspend_job refuses both. *)
Theorem kill_job_accepts_non_running :
  let s := (suspend_job 1 (one_job_running "sleep 5")).2 in
  let t := step (E_worker 0 (input_at (ms 100) 0)) (one_job_running "true") in
  status_at s 0%nat = Some SUSPENDED
  ∧ (kill_job 1 s).1 = true
  ∧ status_at (kill_job 1 s).2 0%nat = Some KILLED
  ∧ total_jobs_killed (stats_ (kill_job 1 s).2) = 1
  ∧ (suspend_job 1 s).1 = false
  ∧ status_at t 0%nat = Some COMPLETED
  ∧ (kill_job 1 t).1 = true
  ∧ status_at (kill_job 1 t).2 0%nat = Some KILLED
  ∧ (suspend_job 1 t).1 = false.
Proof. vm_compute. repeat split; reflexivity. Qed.

(** The part of C6 that holds: a job that is not in active_jobs_ (queued,
    waiting for dependencies, finished, unknown id) cannot be killed. *)
Lemma kill_job_inactive id s :
  find_ptr id (all_jobs_ s) (active_jobs_ s) = None → kill_job id s = (false, s).
Proof. unfold kill_job. intros ->. done. Qed.

(** ** Statistics *)

(** C7.  One job: submitted at 0, started at 10 ms, ended at 100 ms.  The
    snapshot of get_system_stats reports both averages as 0; the means over
    the completed set are 100 ms and 10 ms, which is what
    update_system_stats would store if it were called. *)
Theorem get_system_stats_averages_stale :
  let s := one_job_done "true" 0 in
  completed_jobs_ s = [0%nat]
  ∧ average_turnaround_time (get_system_stats s) = 0%Q
  ∧ average_wait_time (get_system_stats s) = 0%Q
  ∧ (mean_over turnaround_ms s == 100)%Q
  ∧ (mean_over wait_ms s == 10)%Q
  ∧ (average_turnaround_time (stats_ (update_system_stats (ms 100) s)) == 100)%Q
  ∧ (average_wait_time (stats_ (update_system_stats (ms 100) s)) == 10)%Q.
Proof. vm_compute. repeat split; reflexivity. Qed.

(** ** Completed jobs *)

(** C8.  After 1001 jobs have run to completion the completed list holds
    1001 entries: the worker appends and nothing calls
    cleanup_completed_jobs. *)
Theorem completed_jobs_exceed_cap :
  length (get_completed_jobs (after_jobs 1001)) = 1001%nat
  ∧ total_jobs_completed (get_system_stats (after_jobs 1001)) = 1001.
Proof. vm_compute. split; reflexivity. Qed.

(** X20.  cleanup_completed_jobs itself does what its comment says: it
    keeps the most recent 1000 entries, in their order, and drops the
    older ones. *)
Lemma cleanup_completed_jobs_bound s :
  (length (completed_jobs_ (cleanup_completed_jobs s)) ≤ max_completed)%nat
  ∧ completed_jobs_ (cleanup_completed_jobs s) `suffix_of` completed_jobs_ s.
Proof.
  unfold cleanup_completed_jobs.
  destruct (Nat.ltb_spec max_completed (length (completed_jobs_ s))); simpl.
  - rewrite length_drop. split; [lia|]. apply suffix_drop.
  - split; [lia|done].
Qed.

(** ** Job scripts *)

(** C9.  The job script of README.md has an empty line between its headers
    and its command.  The line the specification calls the command is the
    python3 line; parse_job_script stops at the empty line and throws
    "No command found", and no job is submitted. *)
Theorem readme_script_rejected now s :
  spec_command_line (Str.getlines newline readme_script)
    = Some "python3 process_data.py --input data.csv --output results.json"
  ∧ parse_job_script "example_job.sh" (Some readme_script) now s
    = (inl (RuntimeError "No command found in job script: example_job.sh"), s).
Proof. split; reflexivity. Qed.

(** ** The bookkeeping invariant *)

Lemma lookup_alter_Some {A} (f : A → A) (l : list A) i k y :
  alter f i l !! k = Some y →
  (k = i ∧ ∃ x, l !! i = Some x ∧ y = f x) ∨ (k ≠ i ∧ l !! k = Some y).
Proof.
  intros H. destruct (decide (i = k)) as [->|Hne].
  - left. split; [done|]. rewrite list_lookup_alter_eq in H.
    destruct (l !! k) as [x|]; simpl in H; [|done].
    exists x. split; [done|]. congruence.
  - right. rewrite list_lookup_alter_ne in H by done. auto.
Qed.

Lemma lookup_insert_worker (ws : list Worker) w pc' k x :
  <[w:=pc']> ws !! k = Some x →
  (k = w ∧ x = pc') ∨ (k ≠ w ∧ ws !! k = Some x).
Proof.
  intros H. apply list_lookup_insert_Some in H as [(-> & -> & _)|[? ?]]; auto.
Qed.

Lemma lookup_snoc_Some {A} (l : list A) x k y :
  (l ++ [x]) !! k = Some y →
  l !! k = Some y ∨ (k = length l ∧ y = x).
Proof.
  intros H. apply lookup_app_Some in H as [?|[? H]]; [auto|].
  right. apply list_lookup_singleton_Some in H as [? ?].
  split; [lia|done].
Qed.

Ltac inv_destruct I :=
  destruct I as [Il Ind Iq Iqa Iqh Ih Iinj Ia Iw Ib Ic Ici].

Lemma has_core_holds pc p : has_core pc = Some p → holds pc = Some p.
Proof. destruct pc; simpl; congruence. Qed.

Lemma before_assign_holds pc p : before_assign pc = Some p → holds pc = Some p.
Proof. destruct pc; simpl; congruence. Qed.

(** The core a worker owns is read from the record of its job only. *)
Lemma owned_core_ext jobs jobs' pc :
  (∀ p, holds pc = Some p →
        assigned_core_id <$> jobs' !! p = assigned_core_id <$> jobs !! p) →
  owned_core jobs' pc = owned_core jobs pc.
Proof. destruct pc; simpl; auto. Qed.

Lemma owned_core_None pc jobs : holds pc = None → owned_core jobs pc = None.
Proof. destruct pc; simpl; congruence. Qed.

(** A write to the record at [p] that keeps the core id and either keeps
    the status, or stores a status other than WAITING_DEPS in a job that
    is not queued. *)
Lemma InvC_alter ws q a jobs cores n f p :
  InvC ws q a jobs cores n →
  (∀ j, jobs !! p = Some j →
        assigned_core_id (f j) = assigned_core_id j
        ∧ (status (f j) = status j
           ∨ (status (f j) ≠ WAITING_DEPS ∧ p ∉ q))) →
  InvC ws q a (alter f p jobs) cores n.
Proof.
  intros I Hf.
  assert (Hsame : ∀ k y, alter f p jobs !! k = Some y →
            ∃ x, jobs !! k = Some x ∧ assigned_core_id y = assigned_core_id x
              ∧ (status y = status x
                 ∨ (k = p ∧ status y ≠ WAITING_DEPS ∧ p ∉ q))).
  { intros k y Hk. apply lookup_alter_Some in Hk as [(-> & x & Hx & ->)|[? Hk]].
    - exists x. split; [done|]. destruct (Hf x Hx) as [? Hst]. split; [done|].
      destruct Hst as [?|[? ?]]; auto.
    - exists y. auto. }
  assert (Hfwd : ∀ k x, jobs !! k = Some x → ∃ y, alter f p jobs !! k = Some y).
  { intros k x Hk. apply lookup_lt_is_Some. rewrite length_alter.
    apply lookup_lt_Some in Hk. done. }
  assert (Hown : ∀ pc, owned_core (alter f p jobs) pc = owned_core jobs pc).
  { intros pc. apply owned_core_ext. intros k _.
    destruct (decide (k = p)) as [->|Hne].
    - rewrite list_lookup_alter_eq. destruct (jobs !! p) as [x|] eqn:Hx; [|done].
      simpl. f_equal. by apply Hf.
    - by rewrite list_lookup_alter_ne. }
  inv_destruct I. constructor; try done.
  - intros k Hk. destruct (Iq k Hk) as (x & Hx & Hst & Hc).
    destruct (Hfwd k x Hx) as [y Hy]. exists y. split; [done|].
    destruct (Hsame k y Hy) as (x' & Hx' & Hc' & Hst').
    assert (x' = x) as -> by congruence.
    split; [|congruence].
    destruct Hst' as [?|(-> & _ & Hnq)]; [congruence|done].
  - intros w pc k Hw Hh. destruct (Ih w pc k Hw Hh) as (x & Hx & Hst).
    destruct (Hfwd k x Hx) as [y Hy]. exists y. split; [done|].
    destruct (Hsame k y Hy) as (x' & Hx' & Hc' & Hst').
    assert (x' = x) as -> by congruence.
    destruct Hst' as [?|(_ & ? & _)]; [congruence|done].
  - intros k Hk. destruct (Ia k Hk) as (x & Hx & Hst).
    destruct (Hfwd k x Hx) as [y Hy]. exists y. split; [done|].
    destruct (Hsame k y Hy) as (x' & Hx' & Hc' & Hst').
    assert (x' = x) as -> by congruence.
    destruct Hst' as [?|(_ & ? & _)]; [congruence|done].
  - intros k y Hy Hw. destruct (Hsame k y Hy) as (x & Hx & Hc & Hst).
    rewrite Hc. apply (Iw k x Hx).
    destruct Hst as [E|(_ & ? & _)]; [congruence|done].
  - intros w pc k y Hw Hb Hy. destruct (Hsame k y Hy) as (x & Hx & Hc & _).
    rewrite Hc. eauto.
  - intros Hn w pc c Hw Hc. rewrite Hown in Hc. eauto.
  - intros Hn w w' pc pc' c Hw Hw' Hc Hc'. rewrite Hown in Hc, Hc'. eauto.
Qed.

(** A new record is appended; it is pushed on the queue when its status
    is PENDING and left out when it is WAITING_DEPS. *)
Lemma InvC_append ws q a jobs cores n j q' :
  InvC ws q a jobs cores n →
  assigned_core_id j = -1 →
  (status j = PENDING ∧ q' = q ++ [length jobs])
  ∨ (status j = WAITING_DEPS ∧ q' = q) →
  InvC ws q' a (jobs ++ [j]) cores n.
Proof.
  intros I Hc Hcase.
  assert (Hfwd : ∀ k x, jobs !! k = Some x → (jobs ++ [j]) !! k = Some x).
  { intros k x Hk. by apply lookup_app_l_Some. }
  assert (Hlt : ∀ k x, jobs !! k = Some x → k ≠ length jobs).
  { intros k x Hk%lookup_lt_Some. lia. }
  assert (Hown : ∀ w pc, ws !! w = Some pc →
            owned_core (jobs ++ [j]) pc = owned_core jobs pc).
  { intros w pc Hw. apply owned_core_ext. intros k Hk.
    destruct (inv_held _ _ _ _ _ _ I w pc k Hw Hk) as (x & Hx & _).
    by rewrite (Hfwd k x Hx), Hx. }
  inv_destruct I.
  assert (Hnq : length jobs ∉ q).
  { intros Hq. destruct (Iq _ Hq) as (x & Hx & _). by eapply Hlt. }
  assert (Hq' : ∀ p, p ∈ q' → p ∈ q ∨ (p = length jobs ∧ status j = PENDING)).
  { intros p Hp. destruct Hcase as [[? ->]|[? ->]]; [|auto].
    apply elem_of_app in Hp as [?|E%list_elem_of_singleton]; subst; auto. }
  assert (Hnd : NoDup q').
  { destruct Hcase as [[? ->]|[? ->]]; [|done].
    apply NoDup_app. split; [done|]. split; [|apply NoDup_singleton].
    intros p Hp E%list_elem_of_singleton. subst. done. }
  constructor; try done.
  - intros p [Hp|[-> Hst]]%Hq'.
    + destruct (Iq p Hp) as (x & ? & ? & ?). exists x. auto.
    + exists j. split; [|done].
      rewrite lookup_app_r by lia. by rewrite Nat.sub_diag.
  - intros p [Hp|[-> Hst]]%Hq'; [by apply Iqa|].
    intros Ha. destruct (Ia _ Ha) as (x & Hx & _). by eapply Hlt.
  - intros p w pc [Hp|[-> Hst]]%Hq' Hw; [by eapply Iqh|].
    intros Hh. destruct (Ih w pc _ Hw Hh) as (x & Hx & _). by eapply Hlt.
  - intros w pc p Hw Hh. destruct (Ih w pc p Hw Hh) as (x & ? & ?).
    exists x. auto.
  - intros p Hp. destruct (Ia p Hp) as (x & ? & ?). exists x. auto.
  - intros p y [Hy|[-> ->]]%lookup_snoc_Some Hst; [by eapply Iw|done].
  - intros w pc p y Hw Hb [Hy|[-> ->]]%lookup_snoc_Some; [by eapply Ib|done].
  - intros Hn w pc c Hw Ho. rewrite (Hown w pc Hw) in Ho. eauto.
  - intros Hn w w' pc pc' c Hw Hw' Ho Ho'.
    rewrite (Hown w pc Hw) in Ho. rewrite (Hown w' pc' Hw') in Ho'. eauto.
Qed.

(** A job that waits for its dependencies is made PENDING and pushed. *)
Lemma InvC_promote ws q a jobs cores n i j :
  InvC ws q a jobs cores n →
  jobs !! i = Some j → status j = WAITING_DEPS →
  InvC ws (q ++ [i]) a (alter (set_status PENDING) i jobs) cores n.
Proof.
  intros I Hi Hst.
  assert (Hlk : ∀ k y, alter (set_status PENDING) i jobs !! k = Some y →
            (k = i ∧ y = set_status PENDING j) ∨ (k ≠ i ∧ jobs !! k = Some y)).
  { intros k y [(-> & x & Hx & ->)|?]%lookup_alter_Some; [left|by right].
    split; [done|]. congruence. }
  assert (Hnew : alter (set_status PENDING) i jobs !! i = Some (set_status PENDING j)).
  { rewrite list_lookup_alter_eq, Hi. done. }
  assert (Hold : ∀ k x, k ≠ i → jobs !! k = Some x →
            alter (set_status PENDING) i jobs !! k = Some x).
  { intros k x Hne Hk. by rewrite list_lookup_alter_ne. }
  inv_destruct I.
  assert (Hnq : i ∉ q).
  { intros Hq. destruct (Iq _ Hq) as (x & Hx & Hp & _). congruence. }
  assert (Hna : i ∉ a).
  { intros Ha. destruct (Ia _ Ha) as (x & Hx & Hp). congruence. }
  assert (Hnh : ∀ w pc, ws !! w = Some pc → holds pc ≠ Some i).
  { intros w pc Hw Hh. destruct (Ih w pc i Hw Hh) as (x & Hx & Hp). congruence. }
  assert (Hown : ∀ pc, owned_core (alter (set_status PENDING) i jobs) pc
                       = owned_core jobs pc).
  { intros pc. apply owned_core_ext. intros k _.
    destruct (decide (k = i)) as [->|Hne].
    - by rewrite list_lookup_alter_eq, Hi.
    - by rewrite list_lookup_alter_ne. }
  constructor; try done.
  - apply NoDup_app. split; [done|]. split; [|apply NoDup_singleton].
    intros p Hp E%list_elem_of_singleton. subst. done.
  - intros p [Hp|E%list_elem_of_singleton]%elem_of_app; [|subst p].
    + destruct (Iq p Hp) as (x & ? & ? & ?). exists x.
      split; [|done]. apply Hold; [|done]. intros ->. done.
    + exists (set_status PENDING j). split; [done|]. split; [done|].
      simpl. by eapply Iw.
  - intros p [Hp|E%list_elem_of_singleton]%elem_of_app;
      [by apply Iqa|by subst p].
  - intros p w pc [Hp|E%list_elem_of_singleton]%elem_of_app Hw;
      [by eapply Iqh|subst p; by eapply Hnh].
  - intros w pc p Hw Hh. destruct (Ih w pc p Hw Hh) as (x & ? & ?).
    exists x. split; [|done]. apply Hold; [|done]. intros ->. by eapply Hnh.
  - intros p Hp. destruct (Ia p Hp) as (x & ? & ?).
    exists x. split; [|done]. apply Hold; [|done]. intros ->. done.
  - intros p y [[-> ->]|[? Hy]]%Hlk Hw; [|by eapply Iw]. simpl in Hw. discriminate.
  - intros w pc p y Hw Hb [[-> ->]|[? Hy]]%Hlk; [|by eapply Ib].
    simpl. by eapply Iw.
  - intros Hn w pc c Hw Hc. rewrite Hown in Hc. eauto.
  - intros Hn w w' pc pc' c Hw Hw' Hc Hc'. rewrite Hown in Hc, Hc'. eauto.
Qed.

Lemma NoDup_delete_notin {A} (l : list A) k x :
  NoDup l → l !! k = Some x → NoDup (delete k l) ∧ x ∉ delete k l.
Proof.
  intros Hnd Hk. rewrite delete_take_drop.
  rewrite <- (take_drop_middle l k x Hk) in Hnd.
  apply NoDup_app in Hnd as (H1 & H2 & H3).
  apply NoDup_cons in H3 as [H3 H4]. split.
  - apply NoDup_app. split; [done|]. split; [|done].
    intros y Hy Hy'. apply (H2 y Hy). by right.
  - intros [Hx|Hx]%elem_of_app; [|done]. apply (H2 x Hx). by left.
Qed.

(** A worker whose [job] is null pops the queue entry at position [k]
    and puts it in active_jobs_. *)
Lemma InvC_take ws q a jobs cores n w pc k p :
  InvC ws q a jobs cores n →
  ws !! w = Some pc → holds pc = None → q !! k = Some p →
  InvC (<[w:=W_Popped p]> ws) (delete k q) (a ++ [p]) jobs cores n.
Proof.
  intros I Hw Hh Hk. inv_destruct I.
  destruct (NoDup_delete_notin q k p Ind Hk) as [Hnd Hnp].
  assert (Hpq : p ∈ q) by (apply list_elem_of_lookup; eauto).
  assert (Hsub : ∀ x, x ∈ delete k q → x ∈ q ∧ x ≠ p).
  { intros x Hx. split; [by eapply list_elem_of_delete_inv|]. by intros ->. }
  destruct (Iq p Hpq) as (jp & Hjp & Hstp & Hcp).
  assert (Hnone : ∀ x, holds pc ≠ Some x) by (intros x; rewrite Hh; done).
  constructor; try done.
  - intros x [Hx _]%Hsub. auto.
  - intros x [Hx Hne]%Hsub [Ha|E%list_elem_of_singleton]%elem_of_app;
      [by eapply Iqa|done].
  - intros x w' pc' [Hx Hne]%Hsub [[-> ->]|[? Hw']]%lookup_insert_worker.
    + simpl. congruence.
    + by eapply Iqh.
  - intros w' pc' x [[-> ->]|[? Hw']]%lookup_insert_worker Hx.
    + simpl in Hx. injection Hx as <-. exists jp. split; [done|]. congruence.
    + by eapply Ih.
  - intros w1 w2 pc1 pc2 x [[-> ->]|[? Hw1]]%lookup_insert_worker
      [[-> ->]|[? Hw2]]%lookup_insert_worker H1 H2; try done.
    + simpl in H1. injection H1 as <-. exfalso. by eapply (Iqh p w2 pc2).
    + simpl in H2. injection H2 as <-. exfalso. by eapply (Iqh p w1 pc1).
    + by eapply Iinj.
  - intros x [Hx|E%list_elem_of_singleton]%elem_of_app; [by apply Ia|].
    subst x. exists jp. split; [done|]. congruence.
  - intros w' pc' x j [[-> ->]|[? Hw']]%lookup_insert_worker Hb Hj.
    + simpl in Hb. injection Hb as <-. congruence.
    + by eapply Ib.
  - intros Hn w' pc' c [[-> ->]|[? Hw']]%lookup_insert_worker Hc;
      [done|by eapply Ic].
  - intros Hn w1 w2 pc1 pc2 c [[-> ->]|[? Hw1]]%lookup_insert_worker
      [[-> ->]|[? Hw2]]%lookup_insert_worker H1 H2; try done.
    by eapply Ici.
Qed.

(** A worker moves to another program point with the same [job]. *)
Lemma InvC_advance ws q a jobs cores n w pc pc' :
  InvC ws q a jobs cores n →
  ws !! w = Some pc → holds pc' = holds pc →
  (before_assign pc' = None ∨ before_assign pc' = before_assign pc) →
  (owned_core jobs pc' = None ∨ owned_core jobs pc' = owned_core jobs pc) →
  InvC (<[w:=pc']> ws) q a jobs cores n.
Proof.
  intros I Hw Hh Hbe Hco. inv_destruct I.
  assert (Hw' : <[w:=pc']> ws !! w = Some pc').
  { apply list_lookup_insert_eq. by eapply lookup_lt_Some. }
  constructor; try done.
  - intros x w' pc1 Hx [[-> ->]|[? Hw1]]%lookup_insert_worker.
    + rewrite Hh. by eapply Iqh.
    + by eapply Iqh.
  - intros w' pc1 x [[-> ->]|[? Hw1]]%lookup_insert_worker Hx.
    + rewrite Hh in Hx. by eapply Ih.
    + by eapply Ih.
  - intros w1 w2 pc1 pc2 x [[-> ->]|[? Hw1]]%lookup_insert_worker
      [[-> ->]|[? Hw2]]%lookup_insert_worker H1 H2; try done.
    + rewrite Hh in H1. by eapply (Iinj w w2 pc pc2 x).
    + rewrite Hh in H2. by eapply (Iinj w1 w pc1 pc x).
    + by eapply Iinj.
  - intros w' pc1 x j [[-> ->]|[? Hw1]]%lookup_insert_worker Hb Hj.
    + destruct Hbe as [E|E]; rewrite E in Hb; [done|]. by eapply Ib.
    + by eapply Ib.
  - intros Hn w' pc1 c [[-> ->]|[? Hw1]]%lookup_insert_worker Hc.
    + destruct Hco as [E|E]; rewrite E in Hc; [done|]. by eapply Ic.
    + by eapply Ic.
  - intros Hn w1 w2 pc1 pc2 c [[-> ->]|[? Hw1]]%lookup_insert_worker
      [[-> ->]|[? Hw2]]%lookup_insert_worker H1 H2 Hne; try done.
    + destruct Hco as [E|E]; rewrite E in H1; [done|].
      by eapply (Ici Hn w w2 pc pc2 c).
    + destruct Hco as [E|E]; rewrite E in H2; [done|].
      by eapply (Ici Hn w1 w pc1 pc c).
    + by eapply (Ici Hn w1 w2 pc1 pc2 c).
Qed.

(** A worker gives up its [job] (or had none), and active_jobs_ shrinks. *)
Lemma InvC_drop ws q a a' jobs cores n w pc pc' :
  InvC ws q a jobs cores n →
  ws !! w = Some pc → holds pc' = None →
  (∀ x, x ∈ a' → x ∈ a) →
  InvC (<[w:=pc']> ws) q a' jobs cores n.
Proof.
  intros I Hw Hh Ha'. inv_destruct I.
  assert (Hn1 : ∀ x, holds pc' ≠ Some x) by (intros x; by rewrite Hh).
  assert (Hn2 : owned_core jobs pc' = None) by by apply owned_core_None.
  assert (Hn3 : ∀ x, before_assign pc' ≠ Some x)
    by (intros x; destruct pc'; simpl in *; done).
  constructor; try done.
  - intros x Hx Hxa. by eapply Iqa, Ha'.
  - intros x w' pc1 Hx [[-> ->]|[? Hw1]]%lookup_insert_worker;
      [apply Hn1|by eapply Iqh].
  - intros w' pc1 x [[-> ->]|[? Hw1]]%lookup_insert_worker Hx;
      [by apply Hn1 in Hx|by eapply Ih].
  - intros w1 w2 pc1 pc2 x [[-> ->]|[? Hw1]]%lookup_insert_worker
      [[-> ->]|[? Hw2]]%lookup_insert_worker H1 H2; try done.
    + by apply Hn1 in H1.
    + by apply Hn1 in H2.
    + by eapply Iinj.
  - intros x Hx. by apply Ia, Ha'.
  - intros w' pc1 x j [[-> ->]|[? Hw1]]%lookup_insert_worker Hb Hj;
      [by apply Hn3 in Hb|by eapply Ib].
  - intros Hn w' pc1 c [[-> ->]|[? Hw1]]%lookup_insert_worker Hc;
      [congruence|by eapply Ic].
  - intros Hn w1 w2 pc1 pc2 c [[-> ->]|[? Hw1]]%lookup_insert_worker
      [[-> ->]|[? Hw2]]%lookup_insert_worker H1 H2; try done.
    + congruence.
    + congruence.
    + by eapply Ici.
Qed.

Lemma first_free_Some cores i :
  first_free cores = Some i → cores !! i = Some true.
Proof.
  revert i. induction cores as [|[] cores IH]; intros i H; simpl in *.
  - done.
  - by injection H as <-.
  - destruct (first_free cores) as [k|]; simpl in H; [|done].
    injection H as <-. simpl. by apply IH.
Qed.

Lemma first_free_None cores :
  first_free cores = None → ∀ i, cores !! i ≠ Some true.
Proof.
  induction cores as [|[] cores IH]; intros H i; simpl in *; [done|done|].
  destruct (first_free cores) as [k|] eqn:E; simpl in H; [done|].
  destruct i; simpl; [done|]. by apply IH.
Qed.

Lemma to_int_small z : int_min ≤ z ≤ int_max → to_int z = z.
Proof.
  unfold to_int, int_min, int_max. intros H.
  rewrite Z.mod_small by lia. lia.
Qed.

(** assign_core, called by a worker that has begun execute_job. *)
Lemma InvC_assign ws q a jobs cores cores' n w p c :
  InvC ws q a jobs cores n →
  ws !! w = Some (W_Started p) →
  (c = -1 ∧ cores' = cores)
  ∨ (∃ i, first_free cores = Some i ∧ c = to_int (Z.of_nat i)
          ∧ cores' = <[i:=false]> cores) →
  InvC (<[w:=W_Assigned p c]> ws) q a jobs cores' n.
Proof.
  intros I Hw Hc. inv_destruct I.
  assert (Hlen : length cores' = n).
  { destruct Hc as [[_ ->]|(i & _ & _ & ->)]; [done|by rewrite length_insert]. }
  assert (Hci : Z.of_nat n ≤ int_max → c ≠ -1 →
            ∃ i, c = Z.of_nat i ∧ cores !! i = Some true
                 ∧ cores' = <[i:=false]> cores ∧ (i < n)%nat).
  { intros Hn Hne. destruct Hc as [[? _]|(i & Hi%first_free_Some & -> & ->)];
      [done|].
    assert (i < n)%nat by (rewrite <- Il; by eapply lookup_lt_Some).
    exists i. rewrite to_int_small by (unfold int_min, int_max in *; lia). done. }
  assert (Hkeep : ∀ k, cores !! k = Some false → cores' !! k = Some false).
  { intros k Hk. destruct Hc as [[_ ->]|(i & Hi%first_free_Some & _ & ->)];
      [done|].
    rewrite list_lookup_insert_ne; [done|]. intros ->. congruence. }
  assert (Hfree : Z.of_nat n ≤ int_max → ∀ w' pc', ws !! w' = Some pc' →
            owned_core jobs pc' = Some c → c ≠ -1 → False).
  { intros Hn w' pc' Hw' Ho Hne.
    destruct (Hci Hn Hne) as (i & -> & Hi & _ & _).
    destruct (Ic Hn w' pc' _ Hw' Ho Hne) as [_ Hf].
    rewrite Nat2Z.id in Hf. congruence. }
  constructor; try done.
  - intros x w' pc1 Hx [[-> ->]|[? Hw1]]%lookup_insert_worker.
    + by eapply (Iqh x w (W_Started p)).
    + by eapply Iqh.
  - intros w' pc1 x [[-> ->]|[? Hw1]]%lookup_insert_worker Hx.
    + by eapply (Ih w (W_Started p)).
    + by eapply Ih.
  - intros w1 w2 pc1 pc2 x [[-> ->]|[? Hw1]]%lookup_insert_worker
      [[-> ->]|[? Hw2]]%lookup_insert_worker H1 H2; try done.
    + by eapply (Iinj w w2 (W_Started p) pc2 x).
    + by eapply (Iinj w1 w pc1 (W_Started p) x).
    + by eapply Iinj.
  - intros w' pc1 x j [[-> ->]|[? Hw1]]%lookup_insert_worker Hb Hj.
    + by eapply (Ib w (W_Started p)).
    + by eapply Ib.
  - intros Hn w' pc1 c1 [[-> ->]|[? Hw1]]%lookup_insert_worker Ho Hne.
    + simpl in Ho. injection Ho as <-.
      destruct (Hci Hn Hne) as (i & -> & Hi & -> & Hlt).
      split; [lia|]. rewrite Nat2Z.id. apply list_lookup_insert_eq.
      by eapply lookup_lt_Some.
    + destruct (Ic Hn w' pc1 c1 Hw1 Ho Hne) as [? ?]. auto.
  - intros Hn w1 w2 pc1 pc2 c1 [[-> ->]|[? Hw1]]%lookup_insert_worker
      [[-> ->]|[? Hw2]]%lookup_insert_worker H1 H2 Hne; try done.
    + simpl in H1. injection H1 as <-. exfalso. by eapply (Hfree Hn w2 pc2).
    + simpl in H2. injection H2 as <-. exfalso. by eapply (Hfree Hn w1 pc1).
    + by eapply Ici.
Qed.

(** The worker stores the value assign_core has returned in its job. *)
Lemma InvC_store ws q a jobs cores n w p c :
  InvC ws q a jobs cores n →
  ws !! w = Some (W_Assigned p c) →
  InvC (<[w:=W_Waitpid p]> ws) q a (alter (set_assigned_core_id c) p jobs)
       cores n.
Proof.
  intros I Hw.
  destruct (inv_held _ _ _ _ _ _ I w _ p Hw eq_refl) as (j & Hj & Hnw).
  assert (Hlk : ∀ k y, alter (set_assigned_core_id c) p jobs !! k = Some y →
            (k = p ∧ y = set_assigned_core_id c j) ∨ (k ≠ p ∧ jobs !! k = Some y)).
  { intros k y [(-> & x & Hx & ->)|?]%lookup_alter_Some; [left|by right].
    split; [done|]. congruence. }
  assert (Hfwd : ∀ k x, jobs !! k = Some x →
            ∃ y, alter (set_assigned_core_id c) p jobs !! k = Some y
                 ∧ status y = status x ∧ (k ≠ p → y = x)).
  { intros k x Hk. destruct (decide (k = p)) as [->|Hne].
    - exists (set_assigned_core_id c j).
      rewrite list_lookup_alter_eq, Hj. split; [done|].
      split; [|done]. simpl. congruence.
    - exists x. by rewrite list_lookup_alter_ne. }
  inv_destruct I.
  assert (Hpq : p ∉ q). { intros Hq. by eapply (Iqh p w _ Hq Hw). }
  assert (Hone : ∀ w' pc', ws !! w' = Some pc' → holds pc' = Some p → w' = w).
  { intros w' pc' Hw' Hh. by eapply (Iinj w' w pc' _ p). }
  assert (Hown : ∀ w' pc', <[w:=W_Waitpid p]> ws !! w' = Some pc' →
            ∃ pc0, ws !! w' = Some pc0 ∧ holds pc' = holds pc0
              ∧ owned_core (alter (set_assigned_core_id c) p jobs) pc'
                = owned_core jobs pc0
              ∧ (w' ≠ w → pc' = pc0 ∧ holds pc' ≠ Some p)).
  { intros w' pc' [[-> ->]|[Hne Hw']]%lookup_insert_worker.
    - exists (W_Assigned p c). split; [done|]. split; [done|]. split; [|done].
      simpl. by rewrite list_lookup_alter_eq, Hj.
    - exists pc'. split; [done|]. split; [done|].
      assert (Hnp : holds pc' ≠ Some p) by (intros Hh; by apply Hne, (Hone w' pc')).
      split; [|done]. apply owned_core_ext. intros k Hk.
      rewrite list_lookup_alter_ne; [done|]. intros ->. done. }
  constructor; try done.
  - intros x Hx. destruct (Iq x Hx) as (y & Hy & ? & ?).
    exists y. rewrite list_lookup_alter_ne; [done|]. by intros ->.
  - intros x w' pc' Hx Hw'. destruct (Hown w' pc' Hw') as (pc0 & Hw0 & -> & _).
    by eapply Iqh.
  - intros w' pc' x Hw' Hh. destruct (Hown w' pc' Hw') as (pc0 & Hw0 & E & _).
    rewrite E in Hh. destruct (Ih w' pc0 x Hw0 Hh) as (y & Hy & ?).
    destruct (Hfwd x y Hy) as (y' & ? & E' & _). exists y'. by rewrite E'.
  - intros w1 w2 pc1 pc2 x Hw1 Hw2 H1 H2.
    destruct (Hown w1 pc1 Hw1) as (pc1' & Hw1' & E1 & _).
    destruct (Hown w2 pc2 Hw2) as (pc2' & Hw2' & E2 & _).
    rewrite E1 in H1. rewrite E2 in H2. by eapply Iinj.
  - intros x Hx. destruct (Ia x Hx) as (y & Hy & ?).
    destruct (Hfwd x y Hy) as (y' & ? & E & _). exists y'. by rewrite E.
  - intros x y [[-> ->]|[? Hy]]%Hlk Hwd; [|by eapply Iw].
    simpl in Hwd. congruence.
  - intros w' pc' x y Hw' Hb Hy.
    destruct (Hown w' pc' Hw') as (pc0 & Hw0 & _ & _ & Hne).
    destruct (decide (w' = w)) as [->|Hn].
    + rewrite list_lookup_insert_eq in Hw' by by eapply lookup_lt_Some.
      injection Hw' as <-. done.
    + destruct (Hne Hn) as [-> Hnp].
      apply Hlk in Hy as [[-> _]|[_ Hy]].
      * by apply before_assign_holds in Hb.
      * by eapply Ib.
  - intros Hn w' pc' c1 Hw' Ho.
    destruct (Hown w' pc' Hw') as (pc0 & Hw0 & _ & E & _).
    rewrite E in Ho. by eapply Ic.
  - intros Hn w1 w2 pc1 pc2 c1 Hw1 Hw2 H1 H2.
    destruct (Hown w1 pc1 Hw1) as (pc1' & Hw1' & _ & E1 & _).
    destruct (Hown w2 pc2 Hw2) as (pc2' & Hw2' & _ & E2 & _).
    rewrite E1 in H1. rewrite E2 in H2. by eapply Ici.
Qed.

(** release_core on the core of the job, and the return of execute_job. *)
Lemma InvC_release ws q a jobs cores cores' n w p j :
  InvC ws q a jobs cores n →
  ws !! w = Some (W_Release p) → jobs !! p = Some j →
  cores' = cores
  ∨ (0 ≤ assigned_core_id j
     ∧ cores' = <[Z.to_nat (assigned_core_id j) := true]> cores) →
  InvC (<[w:=W_Finish p]> ws) q a jobs cores' n.
Proof.
  intros I Hw Hj Hc.
  assert (I' : InvC (<[w:=W_Finish p]> ws) q a jobs cores n).
  { eapply InvC_advance; eauto; simpl; auto. }
  destruct Hc as [->|[Hpos ->]]; [done|].
  inv_destruct I. clear Il Ind Iq Iqa Iqh Ih Iinj Ia Iw Ib.
  destruct I' as [Il Ind Iq Iqa Iqh Ih Iinj Ia Iw Ib Ic0 Ici0].
  constructor; try done.
  - by rewrite length_insert.
  - intros Hn w' pc' c Hw' Ho Hne.
    destruct (Ic0 Hn w' pc' c Hw' Ho Hne) as [Hr Hf]. split; [done|].
    rewrite list_lookup_insert_ne; [done|]. intros E.
    apply lookup_insert_worker in Hw' as [[-> ->]|[Hne' Hw']]; [done|].
    apply Hne'. symmetry.
    apply Z2Nat.inj in E; [|done|lia]. subst c.
    eapply (Ici Hn w w' (W_Release p) pc' (assigned_core_id j)); eauto.
    simpl. by rewrite Hj.
Qed.

Lemma InvC_start ws q a jobs cores n k :
  InvC ws q a jobs cores n → InvC (ws ++ replicate k W_Idle) q a jobs cores n.
Proof.
  intros I.
  assert (Hlk : ∀ w pc, (ws ++ replicate k W_Idle) !! w = Some pc →
            ws !! w = Some pc ∨ pc = W_Idle).
  { intros w pc [?|[_ [? _]%lookup_replicate]]%lookup_app_Some; auto. }
  inv_destruct I. constructor; try done.
  - intros x w pc Hx [Hw| ->]%Hlk; [by eapply Iqh|done].
  - intros w pc x [Hw| ->]%Hlk Hh; [by eapply Ih|done].
  - intros w1 w2 pc1 pc2 x [Hw1| ->]%Hlk [Hw2| ->]%Hlk H1 H2; try done.
    by eapply Iinj.
  - intros w pc x j [Hw| ->]%Hlk Hb; [by eapply Ib|done].
  - intros Hn w pc c [Hw| ->]%Hlk Hb; [by eapply Ic|done].
  - intros Hn w1 w2 pc1 pc2 c [Hw1| ->]%Hlk [Hw2| ->]%Hlk H1 H2;
      try done.
    by eapply Ici.
Qed.

Lemma InvC_stop_join ws q a jobs cores n :
  InvC ws q a jobs cores n → forallb worker_exited ws = true →
  InvC [] q [] jobs cores n.
Proof.
  intros I Hex. inv_destruct I. constructor; try done.
  - intros x _ Hx. by apply elem_of_nil in Hx.
  - intros x Hx. by apply elem_of_nil in Hx.
Qed.

Lemma InvC_new n : InvC [] [] [] [] (replicate n true) n.
Proof.
  constructor; try done.
  - apply length_replicate.
  - apply NoDup_nil_2.
  - intros x Hx. by apply elem_of_nil in Hx.
  - intros x Hx. by apply elem_of_nil in Hx.
  - intros x Hx. by apply elem_of_nil in Hx.
Qed.

(** *** Every step keeps the invariant *)

Lemma find_ptr_Some id jobs ptrs p :
  find_ptr id jobs ptrs = Some p →
  p ∈ ptrs ∧ ∃ j, jobs !! p = Some j ∧ job_id j = id.
Proof.
  induction ptrs as [|x ptrs IH]; simpl; [done|].
  destruct (jobs !! x) as [j|] eqn:Hx.
  - destruct (decide (job_id j = id)) as [E|E].
    + intros [= ->]. split; [by left|]. eauto.
    + intros [? ?]%IH. split; [by right|done].
  - intros [? ?]%IH. split; [by right|done].
Qed.

Lemma erase_first_sub p l r :
  erase_first p l = Some r → ∀ x, x ∈ r → x ∈ l.
Proof.
  revert r. induction l as [|y l IH]; simpl; intros r; [done|].
  destruct (decide (y = p)) as [->|Hne].
  - intros [= ->] x Hx. by right.
  - destruct (erase_first p l) as [r'|]; simpl; [|done].
    intros [= <-] x [->|Hx]%elem_of_cons; [by left|].
    right. by eapply IH.
Qed.

Lemma InvC_update_loop ws a cores n cid l :
  ∀ jobs q, InvC ws q a jobs cores n →
  InvC ws (foldl (update_one cid) (jobs, q) l).2 a
       (foldl (update_one cid) (jobs, q) l).1 cores n.
Proof.
  induction l as [|i l IH]; intros jobs q I; [done|].
  change (foldl (update_one cid) (jobs, q) (i :: l))
    with (foldl (update_one cid) (update_one cid (jobs, q) i) l).
  assert (I' : InvC ws (update_one cid (jobs, q) i).2 a
                 (update_one cid (jobs, q) i).1 cores n).
  { unfold update_one.
    destruct (jobs !! i) as [j|] eqn:Hi; [|done].
    destruct (bool_decide (status j = WAITING_DEPS)) eqn:Hst; [|done].
    destruct (bool_decide (cid ∈ dependencies j)
              && dependencies_satisfied j jobs); [|done].
    simpl. apply bool_decide_eq_true in Hst. by eapply InvC_promote. }
  destruct (update_one cid (jobs, q) i) as [jobs' q']. by apply IH.
Qed.

Lemma Inv_update_job f p s :
  Inv s →
  (∀ j, all_jobs_ s !! p = Some j →
        assigned_core_id (f j) = assigned_core_id j
        ∧ (status (f j) = status j
           ∨ (status (f j) ≠ WAITING_DEPS ∧ p ∉ job_queue_ s))) →
  Inv (update_job f p s).
Proof. intros I H. unfold Inv, update_job. simpl. by apply InvC_alter. Qed.

Lemma Inv_submit_job cmd p now s : Inv s → Inv (submit_job cmd p now s).2.
Proof.
  intros I. unfold Inv, submit_job, fresh_job_id. simpl.
  eapply InvC_append; [exact I|done|]. left. done.
Qed.

Lemma Inv_submit_job_with_deps cmd deps p now s :
  Inv s → Inv (submit_job_with_deps cmd deps p now s).2.
Proof.
  intros I. unfold Inv, submit_job_with_deps, fresh_job_id. simpl.
  destruct (dependencies_satisfied _ _); simpl.
  - eapply InvC_append; [exact I|done|]. left. done.
  - eapply InvC_append; [exact I|done|]. right. done.
Qed.

Lemma Inv_submit_array_task_begin t aid i p now s :
  Inv s → Inv (submit_array_task_begin t aid i p now s).
Proof.
  intros I. unfold submit_array_task_begin.
  pose proof (Inv_submit_job (replace_array_id t i) p now s I) as I'.
  destruct (submit_job _ _ _ _) as [ptr s']. exact I'.
Qed.

Lemma Inv_submit_job_script_begin path file now s :
  Inv s → Inv (submit_job_script_begin path file now s).
Proof.
  intros I. unfold submit_job_script_begin, parse_job_script_submit.
  destruct file as [content|]; [|done].
  destruct (parse_lines _ _) as [e|v]; [done|].
  destruct (decide (v_command v = "")); [done|].
  assert (I' : Inv (match v_dependencies v with
                    | [] => submit_job (v_command v) (v_priority v) now s
                    | _ => submit_job_with_deps (v_command v) (v_dependencies v)
                             (v_priority v) now s
                    end).2).
  { destruct (v_dependencies v);
      [by apply Inv_submit_job|by apply Inv_submit_job_with_deps]. }
  destruct (match v_dependencies v with [] => _ | _ => _ end) as [ptr s'].
  exact I'.
Qed.

Lemma caller_write_fields c j :
  status (caller_write c j) = status j
  ∧ assigned_core_id (caller_write c j) = assigned_core_id j
  ∧ job_id (caller_write c j) = job_id j
  ∧ dependencies (caller_write c j) = dependencies j.
Proof. by destruct c. Qed.

Lemma Inv_caller_step k s : Inv s → Inv (caller_step k s).
Proof.
  intros I. unfold caller_step.
  destruct (callers_ s !! k) as [c|]; [|done].
  change (Inv (update_job (caller_write c) (caller_job c) s)).
  apply Inv_update_job; [done|]. intros j _.
  destruct (caller_write_fields c j) as (? & ? & _). auto.
Qed.

Lemma Inv_kill_job id s : Inv s → Inv (kill_job id s).2.
Proof.
  intros I. unfold kill_job.
  destruct (find_ptr _ _ _) as [p|] eqn:Hf; [|done]. simpl.
  apply find_ptr_Some in Hf as [Hp _].
  change (Inv (with_stats (incr_killed (stats_ s))
                 (update_job (set_status KILLED) p s))).
  assert (I' : Inv (update_job (set_status KILLED) p s)).
  { apply Inv_update_job; [done|]. intros j _. simpl. split; [done|].
    right. split; [done|]. intros Hq. by eapply (inv_q_active _ _ _ _ _ _ I). }
  exact I'.
Qed.

Lemma status_at_Some s p st :
  status_at s p = Some st → ∃ j, all_jobs_ s !! p = Some j ∧ status j = st.
Proof.
  unfold status_at. destruct (all_jobs_ s !! p) as [j|]; simpl; [|done].
  intros [= <-]. eauto.
Qed.

Lemma Inv_change_job_priority id pr s :
  Inv s → Inv (change_job_priority id pr s).2.
Proof.
  intros I. unfold change_job_priority.
  destruct (find_job_ptr _ _) as [p|]; [|done].
  destruct (decide _) as [E|]; [|done]. simpl.
  apply (Inv_update_job _ p s I). intros j _. simpl. auto.
Qed.

Lemma Inv_worker_take w pc i s :
  Inv s → worker_threads_ s !! w = Some pc → holds pc = None →
  Inv (with_workers (<[w:=(worker_take i s).1]> (worker_threads_ (worker_take i s).2))
         (worker_take i s).2).
Proof.
  intros I Hw Hh. unfold worker_take.
  destruct (running_ s); simpl.
  - destruct (job_queue_ s !! in_top i) as [p|] eqn:Hq; simpl.
    + destruct (_ <? _); simpl.
      * unfold Inv. simpl. by eapply InvC_take.
      * unfold Inv. simpl. by eapply InvC_drop.
    + unfold Inv. simpl. by eapply InvC_drop.
  - unfold Inv. simpl. by eapply InvC_drop.
Qed.

Lemma Inv_worker_begin w p now s :
  Inv s → worker_threads_ s !! w = Some (W_Popped p) →
  Inv (with_workers (<[w:=W_Started p]> (worker_threads_ s))
         (update_job (set_started w now) p s)).
Proof.
  intros I Hw. unfold Inv. simpl.
  assert (Hpq : p ∉ job_queue_ s).
  { intros Hq. by eapply (inv_q_held _ _ _ _ _ _ I p w _ Hq Hw). }
  apply InvC_alter.
  - eapply InvC_advance; eauto; simpl; auto.
  - intros j Hj. simpl. split; [done|]. right. done.
Qed.

Lemma Inv_worker_assign w p i s :
  Inv s → worker_threads_ s !! w = Some (W_Started p) →
  Inv (with_workers
         (<[w:=(execute_job_assign p i s).1]>
            (worker_threads_ (execute_job_assign p i s).2))
         (execute_job_assign p i s).2).
Proof.
  intros I Hw. unfold execute_job_assign, assign_core.
  destruct (first_free _) as [k|] eqn:Hk; unfold Inv; simpl.
  - eapply InvC_assign; [exact I|exact Hw|]. right. eauto.
  - eapply InvC_assign; [exact I|exact Hw|]. by left.
Qed.

Lemma Inv_worker_launch w p c i s :
  Inv s → worker_threads_ s !! w = Some (W_Assigned p c) →
  Inv (with_workers
         (<[w:=(execute_job_launch p c i s).1]>
            (worker_threads_ (execute_job_launch p c i s).2))
         (execute_job_launch p c i s).2).
Proof.
  intros I Hw.
  assert (Hlt : (w < length (worker_threads_ s))%nat) by by eapply lookup_lt_Some.
  assert (Hw1 : <[w:=W_Waitpid p]> (worker_threads_ s) !! w = Some (W_Waitpid p))
    by by apply list_lookup_insert_eq.
  assert (Hpq : p ∉ job_queue_ s).
  { intros Hq. by eapply (inv_q_held _ _ _ _ _ _ I p w _ Hq Hw). }
  assert (I3 : InvC (<[w:=W_Waitpid p]> (worker_threads_ s)) (job_queue_ s)
                 (active_jobs_ s)
                 (alter simulate_memory_usage p
                    (alter (simulate_cpu_usage (in_rand1 i) (in_rand2 i)) p
                       (alter (set_assigned_core_id c) p (all_jobs_ s))))
                 (core_availability_ s) (num_cores_ s)).
  { apply InvC_alter; [apply InvC_alter; [by apply InvC_store|]|];
      intros x _; simpl; auto. }
  unfold execute_job_launch.
  destruct (in_fork i) as [pid|]; unfold Inv; simpl.
  - apply InvC_alter; [exact I3|]. intros x _. simpl. auto.
  - rewrite <- (list_insert_insert_eq (worker_threads_ s) w (W_Release p) (W_Waitpid p)).
    eapply InvC_advance; [| exact Hw1 | done | simpl; auto | simpl; auto].
    apply InvC_alter; [exact I3|]. intros x _. simpl. auto.
Qed.

Lemma Inv_worker_reap w p i s :
  Inv s → worker_threads_ s !! w = Some (W_Waitpid p) →
  Inv (with_workers
         (<[w:=(execute_job_reap p i s).1]>
            (worker_threads_ (execute_job_reap p i s).2))
         (execute_job_reap p i s).2).
Proof.
  intros I Hw.
  assert (Hpq : p ∉ job_queue_ s).
  { intros Hq. by eapply (inv_q_held _ _ _ _ _ _ I p w _ Hq Hw). }
  unfold execute_job_reap.
  set (f := match in_wait i with
            | Exited code =>
                set_outcome (if decide (code = 0) then COMPLETED else FAILED) code
            | NotExited => set_outcome FAILED (-1)
            end).
  assert (Hf : ∀ x, assigned_core_id (f x) = assigned_core_id x
                    ∧ is_terminal (status (f x)) = true).
  { intros x. subst f. destruct (in_wait i) as [code|]; simpl; [|done].
    destruct (decide (code = 0)); done. }
  assert (E : (let s0 := update_job (set_ended (in_now i)) p s in
               match in_wait i with
               | Exited code =>
                   update_job
                     (set_outcome (if decide (code = 0) then COMPLETED else FAILED)
                        code) p s0
               | NotExited => update_job (set_outcome FAILED (-1)) p s0
               end) = update_job f p (update_job (set_ended (in_now i)) p s)).
  { subst f. simpl. destruct (in_wait i); done. }
  simpl in E. simpl. rewrite E. unfold Inv. simpl.
  apply InvC_alter; [apply InvC_alter|].
  - eapply InvC_advance; [exact I | exact Hw | done | simpl; auto | simpl; auto].
  - intros x _. simpl. auto.
  - intros x _. destruct (Hf x) as [? Ht]. split; [done|]. right.
    split; [|done]. intros E'. rewrite E' in Ht. done.
Qed.

Lemma Inv_worker_release w p s :
  Inv s → worker_threads_ s !! w = Some (W_Release p) →
  Inv (with_workers
         (<[w:=(execute_job_release p s).1]>
            (worker_threads_ (execute_job_release p s).2))
         (execute_job_release p s).2).
Proof.
  intros I Hw. unfold execute_job_release.
  destruct (inv_held _ _ _ _ _ _ I w _ p Hw eq_refl) as (j & Hj & _).
  rewrite Hj. simpl. unfold release_core.
  destruct (core_in_range (assigned_core_id j) s) eqn:Hr; unfold Inv; simpl.
  - eapply InvC_release; eauto. right. split; [|done].
    unfold core_in_range in Hr. apply andb_true_iff in Hr as [Hr _]. lia.
  - eapply InvC_release; eauto.
Qed.

Lemma update_job_dependencies_fields p s :
  worker_threads_ (update_job_dependencies p s) = worker_threads_ s
  ∧ active_jobs_ (update_job_dependencies p s) = active_jobs_ s
  ∧ completed_jobs_ (update_job_dependencies p s) = completed_jobs_ s
  ∧ core_availability_ (update_job_dependencies p s) = core_availability_ s
  ∧ num_cores_ (update_job_dependencies p s) = num_cores_ s
  ∧ stats_ (update_job_dependencies p s) = stats_ s.
Proof.
  unfold update_job_dependencies. destruct (all_jobs_ s !! p); [|done].
  destruct (foldl _ _ _). done.
Qed.

Lemma Inv_update_job_dependencies p s :
  Inv s → Inv (update_job_dependencies p s).
Proof.
  intros I. unfold update_job_dependencies.
  destruct (all_jobs_ s !! p) as [c|]; [|done].
  pose proof (InvC_update_loop _ _ _ _ (job_id c) (seq 0 (length (all_jobs_ s)))
                _ _ I) as I'.
  destruct (foldl _ _ _) as [jobs q]. exact I'.
Qed.

Lemma Inv_fields ws s s' :
  Inv (with_workers ws s) →
  job_queue_ s' = job_queue_ s → active_jobs_ s' = active_jobs_ s →
  all_jobs_ s' = all_jobs_ s → core_availability_ s' = core_availability_ s →
  num_cores_ s' = num_cores_ s →
  Inv (with_workers ws s').
Proof. unfold Inv. simpl. by intros I -> -> -> -> ->. Qed.

Lemma Inv_worker_finish w p s :
  Inv s → worker_threads_ s !! w = Some (W_Finish p) →
  Inv (with_workers
         (<[w:=(worker_finish p s).1]> (worker_threads_ (worker_finish p s).2))
         (worker_finish p s).2).
Proof.
  intros I Hw.
  assert (Idle : ∀ a', (∀ x, x ∈ a' → x ∈ active_jobs_ s) →
            Inv (with_workers (<[w:=W_Idle]> (worker_threads_ s))
                   (with_active a' s))).
  { intros a' Ha'. unfold Inv. simpl. by eapply InvC_drop. }
  unfold worker_finish.
  destruct (erase_first p (active_jobs_ s)) as [rest|] eqn:He;
    [|simpl; unfold Inv; simpl; by eapply InvC_drop].
  destruct (all_jobs_ s !! p) as [j|] eqn:Hj;
    [|simpl; unfold Inv; simpl; by eapply InvC_drop].
  pose proof (Idle rest (erase_first_sub _ _ _ He)) as I1.
  destruct (is_terminal (status j)); simpl; [|exact I1].
  set (s2 := if decide (status j = COMPLETED) then _ else _).
  destruct (update_job_dependencies_fields p s2) as (E1 & E2 & E3 & E4 & E5 & E6).
  rewrite E1.
  assert (E7 : worker_threads_ s2 = worker_threads_ s).
  { subst s2. destruct (decide _); [done|]. destruct (decide _); done. }
  rewrite E7.
  assert (I2 : Inv (with_workers (<[w:=W_Idle]> (worker_threads_ s)) s2)).
  { eapply Inv_fields; [exact I1|..]; subst s2;
      destruct (decide _); try done; destruct (decide _); done. }
  apply (Inv_update_job_dependencies p) in I2.
  unfold Inv in *. simpl in *.
  unfold update_job_dependencies in *. simpl in *.
  destruct (all_jobs_ s2 !! p); [|exact I2].
  destruct (foldl _ _ _). exact I2.
Qed.

Lemma Inv_worker_step w i s : Inv s → Inv (worker_step w i s).
Proof.
  intros I. unfold worker_step.
  destruct (worker_threads_ s !! w) as [pc|] eqn:Hw; [|done].
  destruct pc as [|p|p|p c|p|p|p|].
  - pose proof (Inv_worker_take w _ i s I Hw eq_refl) as I'.
    destruct (worker_take i s). exact I'.
  - exact (Inv_worker_begin w p (in_now i) s I Hw).
  - pose proof (Inv_worker_assign w p i s I Hw) as I'.
    destruct (execute_job_assign p i s). exact I'.
  - pose proof (Inv_worker_launch w p c i s I Hw) as I'.
    destruct (execute_job_launch p c i s). exact I'.
  - pose proof (Inv_worker_reap w p i s I Hw) as I'.
    destruct (execute_job_reap p i s). exact I'.
  - pose proof (Inv_worker_release w p s I Hw) as I'.
    destruct (execute_job_release p s). exact I'.
  - pose proof (Inv_worker_finish w p s I Hw) as I'.
    destruct (worker_finish p s). exact I'.
  - unfold Inv. simpl. by eapply InvC_drop.
Qed.

(** *** Steps that take no lock *)

Lemma unlocked_frame_refl s : unlocked_frame s s.
Proof. by destruct s. Qed.

Lemma unlocked_frame_trans s1 s2 s3 :
  unlocked_frame s1 s2 → unlocked_frame s2 s3 → unlocked_frame s1 s3.
Proof.
  unfold unlocked_frame. intros H1 H2. rewrite H2 at 1. rewrite H1 at 1. done.
Qed.

Lemma update_job_frame f p s : unlocked_frame s (update_job f p s).
Proof. by destruct s. Qed.

Lemma caller_step_frame k s : unlocked_frame s (caller_step k s).
Proof.
  unfold caller_step. destruct (callers_ s !! k); by destruct s.
Qed.

Lemma unlocked_step_frame u s : unlocked_frame s (unlocked_step u s).
Proof.
  destruct u as [w i|k]; simpl; [|apply caller_step_frame].
  destruct (worker_threads_ s !! w) as [pc|] eqn:Hw;
    [|apply unlocked_frame_refl].
  destruct pc as [|p|p|p c|p|p|p|]; simpl;
    try apply unlocked_frame_refl; unfold worker_step; rewrite Hw.
  - by destruct s.
  - unfold execute_job_launch. destruct (in_fork i); by destruct s.
  - unfold execute_job_reap. destruct (in_wait i); by destruct s.
Qed.

Lemma run_unlocked_frame us s : unlocked_frame s (run_unlocked us s).
Proof.
  revert s. induction us as [|u us IH]; intros s; [apply unlocked_frame_refl|].
  eapply unlocked_frame_trans; [apply (unlocked_step_frame u)|apply IH].
Qed.

Lemma unlocked_frame_fields s s' :
  unlocked_frame s s' →
  job_queue_ s' = job_queue_ s ∧ active_jobs_ s' = active_jobs_ s
  ∧ completed_jobs_ s' = completed_jobs_ s
  ∧ core_availability_ s' = core_availability_ s
  ∧ num_cores_ s' = num_cores_ s ∧ stats_ s' = stats_ s
  ∧ running_ s' = running_ s ∧ next_job_id_ s' = next_job_id_ s.
Proof. intros ->. done. Qed.

Lemma Inv_unlocked_step u s : Inv s → Inv (unlocked_step u s).
Proof.
  intros I. destruct u as [w i|k]; simpl; [|by apply Inv_caller_step].
  destruct (worker_threads_ s !! w) as [pc|]; [|done].
  destruct (lock_free pc); [by apply Inv_worker_step|done].
Qed.

Lemma Inv_run_unlocked us s : Inv s → Inv (run_unlocked us s).
Proof.
  revert s. induction us as [|u us IH]; intros s I; [done|].
  apply IH. by apply Inv_unlocked_step.
Qed.

(** The store of suspend_job and resume_job: the job was found in
    active_jobs_ before the steps of the others. *)
Lemma Inv_store_status st p during s :
  Inv s → p ∈ active_jobs_ s → st ≠ WAITING_DEPS →
  Inv (update_job (set_status st) p (run_unlocked during s)).
Proof.
  intros I Hp Hst.
  destruct (unlocked_frame_fields _ _ (run_unlocked_frame during s))
    as (Eq & Ea & _).
  pose proof (Inv_run_unlocked during s I) as I'.
  apply Inv_update_job; [done|]. intros j _. simpl. split; [done|]. right.
  split; [done|]. intros Hq.
  apply (inv_q_active _ _ _ _ _ _ I' p Hq). by rewrite Ea.
Qed.

Lemma Inv_suspend_job id during s :
  Inv s → Inv (suspend_job_during id during s).2.
Proof.
  intros I. unfold suspend_job_during.
  destruct (find_ptr _ _ _) as [p|] eqn:Hf; [|done].
  destruct (decide _) as [E|]; [|done]. simpl.
  apply find_ptr_Some in Hf as [Hp _]. by apply Inv_store_status.
Qed.

Lemma Inv_resume_job id during s :
  Inv s → Inv (resume_job_during id during s).2.
Proof.
  intros I. unfold resume_job_during.
  destruct (find_ptr _ _ _) as [p|] eqn:Hf; [|done].
  destruct (decide _) as [E|]; [|done]. simpl.
  apply find_ptr_Some in Hf as [Hp _]. by apply Inv_store_status.
Qed.

Lemma Inv_step e s : Inv s → Inv (step e s).
Proof.
  intros I. destruct e; simpl.
  - unfold Inv, start. simpl. by apply InvC_start.
  - exact I.
  - unfold stop_join. destruct (forallb _ _) eqn:E; [|done].
    unfold Inv. simpl. by eapply InvC_stop_join.
  - by apply Inv_submit_job.
  - by apply Inv_submit_job_with_deps.
  - by apply Inv_submit_array_task_begin.
  - by apply Inv_submit_job_script_begin.
  - by apply Inv_caller_step.
  - by apply Inv_kill_job.
  - by apply Inv_suspend_job.
  - by apply Inv_resume_job.
  - by apply Inv_change_job_priority.
  - exact I.
  - exact I.
  - exact I.
  - by apply Inv_worker_step.
Qed.

(** The invariant holds in every reachable state. *)
Lemma reachable_Inv s : reachable s → Inv s.
Proof.
  induction 1 as [n now|e s _ IH].
  - unfold Inv. simpl. apply InvC_new.
  - by apply Inv_step.
Qed.

Lemma reachable_run evs s : reachable s → reachable (run evs s).
Proof.
  revert s. induction evs as [|e evs IH]; intros s H; [done|].
  apply (IH (step e s)). by constructor.
Qed.

(** ** RUNNING jobs and the core table *)

(** C3 (as the code has it).  In every reachable state of a scheduler
    whose core count fits an int, for a job that a worker is executing,
    from the store of the value assign_core has returned until the call of
    release_core: if the stored core id is not -1 (the value assign_core
    returns when no core is free), then the id lies in [0, num_cores), that
    slot of the core table is marked unavailable, and no other job in this
    stretch of execute_job has the same core id.  The status of the job
    plays no part: it can be RUNNING, SUSPENDED, KILLED or, after waitpid,
    the outcome. *)
Theorem executing_job_core s w pc p j :
  reachable s → Z.of_nat (num_cores_ s) ≤ int_max →
  worker_threads_ s !! w = Some pc → has_core pc = Some p →
  all_jobs_ s !! p = Some j → assigned_core_id j ≠ -1 →
  0 ≤ assigned_core_id j < Z.of_nat (num_cores_ s)
  ∧ core_availability_ s !! Z.to_nat (assigned_core_id j) = Some false
  ∧ ∀ w' pc' p' j', p' ≠ p → worker_threads_ s !! w' = Some pc' →
      has_core pc' = Some p' → all_jobs_ s !! p' = Some j' →
      assigned_core_id j' ≠ assigned_core_id j.
Proof.
  intros Hr Hn Hw Hp Hj Hc. apply reachable_Inv in Hr.
  assert (Ho : ∀ w0 pc0 p0 j0, worker_threads_ s !! w0 = Some pc0 →
            has_core pc0 = Some p0 → all_jobs_ s !! p0 = Some j0 →
            owned_core (all_jobs_ s) pc0 = Some (assigned_core_id j0)).
  { intros w0 pc0 p0 j0 _ Hp0 Hj0.
    destruct pc0; simpl in *; try done; injection Hp0 as ->; by rewrite Hj0. }
  destruct (inv_core _ _ _ _ _ _ Hr Hn w pc _ Hw (Ho w pc p j Hw Hp Hj) Hc)
    as [Hrange Hslot].
  split; [done|]. split; [done|].
  intros w' pc' p' j' Hne Hw' Hp' Hj' Heq.
  assert (w = w').
  { eapply (inv_core_inj _ _ _ _ _ _ Hr Hn w w' pc pc'); eauto.
    rewrite <- Heq. eauto. }
  subst w'. congruence.
Qed.

Lemma executing_job_core_witness :
  core_availability_ (one_job_running "sleep 5") !! 0%nat = Some false.
Proof.
  assert (Hr : reachable (one_job_running "sleep 5"))
    by (apply reachable_run, reach_new).
  assert (Hn : Z.of_nat (num_cores_ (one_job_running "sleep 5")) ≤ int_max)
    by (vm_compute; discriminate).
  assert (Hw : worker_threads_ (one_job_running "sleep 5") !! 0%nat
               = Some (W_Waitpid 0%nat)) by (vm_compute; reflexivity).
  destruct (all_jobs_ (one_job_running "sleep 5") !! 0%nat) as [j|] eqn:Hj;
    [|vm_compute in Hj; discriminate].
  assert (Hc : assigned_core_id j = 0)
    by (vm_compute in Hj; injection Hj as <-; reflexivity).
  destruct (executing_job_core _ 0%nat _ 0%nat j Hr Hn Hw eq_refl Hj)
    as (_ & Hslot & _).
  - rewrite Hc. discriminate.
  - rewrite Hc in Hslot. exact Hslot.
Defined.

(** A job can also be RUNNING after its core has been released: resume_job
    has found it SUSPENDED, the worker has written the outcome, and then
    resume_job has stored RUNNING. *)
Lemma running_after_release :
  reachable resumed_after_exit
  ∧ worker_threads_ resumed_after_exit = [W_Finish 0%nat]
  ∧ (∃ j, all_jobs_ resumed_after_exit !! 0%nat = Some j
          ∧ status j = RUNNING ∧ assigned_core_id j = 0)
  ∧ core_availability_ resumed_after_exit !! 0%nat = Some true.
Proof.
  split; [apply reachable_run, reach_new|].
  split; [vm_compute; reflexivity|]. split; [|vm_compute; reflexivity].
  destruct (all_jobs_ resumed_after_exit !! 0%nat) as [j|] eqn:Hj;
    [|vm_compute in Hj; discriminate].
  exists j. split; [done|]. vm_compute in Hj. injection Hj as <-. done.
Qed.

(** C3 (as stated) fails: right after the worker has written RUNNING, and
    before it has called assign_core, the job is RUNNING with core id -1. *)
Lemma running_without_core :
  reachable just_started ∧ ¬ running_has_core just_started.
Proof.
  split; [apply reachable_run, reach_new|].
  intros H.
  destruct (all_jobs_ just_started !! 0%nat) as [j|] eqn:Hj;
    [|vm_compute in Hj; discriminate].
  assert (Hst : status j = RUNNING)
    by (vm_compute in Hj; injection Hj as <-; reflexivity).
  assert (Hc : assigned_core_id j = -1)
    by (vm_compute in Hj; injection Hj as <-; reflexivity).
  destruct (H 0%nat j Hj Hst) as [[Hlo _] _]. rewrite Hc in Hlo. lia.
Qed.

(** ** What a step does to the job records *)

Lemma job_kept_refl j : job_kept j j.
Proof. unfold job_kept. auto. Qed.

Lemma job_kept_trans j1 j2 j3 : job_kept j1 j2 → job_kept j2 j3 → job_kept j1 j3.
Proof.
  unfold job_kept. intros (E1 & E2 & S1) (E3 & E4 & S2).
  split; [congruence|]. split; [congruence|]. auto.
Qed.

Lemma jobs_kept_refl jobs : jobs_kept jobs jobs.
Proof. intros p j Hj; exists j; split; [done|apply job_kept_refl]. Qed.

Lemma jobs_kept_trans l1 l2 l3 : jobs_kept l1 l2 → jobs_kept l2 l3 → jobs_kept l1 l3.
Proof.
  intros H1 H2 p j Hj. destruct (H1 p j Hj) as (j2 & Hj2 & K1).
  destruct (H2 p j2 Hj2) as (j3 & Hj3 & K2).
  exists j3. split; [done|]. by eapply job_kept_trans.
Qed.

Lemma jobs_kept_alter jobs f p :
  (∀ j, jobs !! p = Some j → job_kept j (f j)) →
  jobs_kept jobs (alter f p jobs).
Proof.
  intros Hf k j Hj. destruct (decide (k = p)) as [->|Hne].
  - exists (f j). rewrite list_lookup_alter_eq, Hj. split; [done|]. by apply Hf.
  - exists j. rewrite list_lookup_alter_ne by done. split; [done|].
    apply job_kept_refl.
Qed.

Lemma jobs_kept_snoc jobs j : jobs_kept jobs (jobs ++ [j]).
Proof.
  intros p x Hx. exists x. split; [by apply lookup_app_l_Some|].
  apply job_kept_refl.
Qed.

Lemma submit_job_jobs cmd p now s :
  (submit_job cmd p now s).1 = length (all_jobs_ s)
  ∧ all_jobs_ (submit_job cmd p now s).2
    = all_jobs_ s ++ [JobMetadata_new (next_job_id_ s) cmd p now].
Proof. done. Qed.

Lemma submit_job_with_deps_jobs cmd deps p now s :
  ∃ j, (submit_job_with_deps cmd deps p now s).1 = length (all_jobs_ s)
       ∧ all_jobs_ (submit_job_with_deps cmd deps p now s).2 = all_jobs_ s ++ [j]
       ∧ memory_usage_mb j = 0 ∧ limits j = default_limits.
Proof.
  unfold submit_job_with_deps, fresh_job_id. simpl.
  destruct (dependencies_satisfied _ _); simpl; eexists; repeat split.
Qed.

Lemma jobs_kept_update_job f p s :
  (∀ j, all_jobs_ s !! p = Some j → job_kept j (f j)) →
  jobs_kept (all_jobs_ s) (all_jobs_ (update_job f p s)).
Proof. intros H. simpl. by apply jobs_kept_alter. Qed.

Lemma jobs_kept_submit_job cmd p now s :
  jobs_kept (all_jobs_ s) (all_jobs_ (submit_job cmd p now s).2).
Proof. apply jobs_kept_snoc. Qed.

Lemma jobs_kept_submit_job_with_deps cmd deps p now s :
  jobs_kept (all_jobs_ s) (all_jobs_ (submit_job_with_deps cmd deps p now s).2).
Proof.
  destruct (submit_job_with_deps_jobs cmd deps p now s) as (j & _ & -> & _).
  apply jobs_kept_snoc.
Qed.

Lemma jobs_kept_submit_array_task_begin t aid i p now s :
  jobs_kept (all_jobs_ s) (all_jobs_ (submit_array_task_begin t aid i p now s)).
Proof.
  unfold submit_array_task_begin.
  pose proof (jobs_kept_submit_job (replace_array_id t i) p now s) as K.
  destruct (submit_job _ _ _ _) as [ptr s']. exact K.
Qed.

Lemma jobs_kept_submit_job_script_begin path file now s :
  jobs_kept (all_jobs_ s) (all_jobs_ (submit_job_script_begin path file now s)).
Proof.
  unfold submit_job_script_begin, parse_job_script_submit.
  destruct file as [content|]; [|apply jobs_kept_refl].
  destruct (parse_lines _ _) as [e|v] eqn:Hp; [apply jobs_kept_refl|].
  destruct (decide (v_command v = "")); [apply jobs_kept_refl|].
  assert (K : jobs_kept (all_jobs_ s)
                (all_jobs_ (match v_dependencies v with
                   | [] => submit_job (v_command v) (v_priority v) now s
                   | _ => submit_job_with_deps (v_command v) (v_dependencies v)
                            (v_priority v) now s
                   end).2)).
  { destruct (v_dependencies v);
      [apply jobs_kept_submit_job|apply jobs_kept_submit_job_with_deps]. }
  destruct (match v_dependencies v with [] => _ | _ => _ end) as [ptr s'].
  exact K.
Qed.

Lemma jobs_kept_caller_step k s :
  jobs_kept (all_jobs_ s) (all_jobs_ (caller_step k s)).
Proof.
  unfold caller_step. destruct (callers_ s !! k) as [c|]; [|apply jobs_kept_refl].
  simpl. apply jobs_kept_alter. intros j _.
  destruct (caller_write_fields c j) as (E1 & _ & E2 & E3).
  unfold job_kept. rewrite E1, E2, E3. auto.
Qed.

(** A write that changes the status, to a job that does not wait for
    dependencies. *)
Lemma job_kept_not_waiting f j :
  status j ≠ WAITING_DEPS →
  job_id (f j) = job_id j → dependencies (f j) = dependencies j →
  job_kept j (f j).
Proof.
  intros Hst E1 E2. unfold job_kept.
  rewrite E1, E2. repeat split; tauto.
Qed.

Lemma jobs_kept_kill_job id s :
  Inv s → jobs_kept (all_jobs_ s) (all_jobs_ (kill_job id s).2).
Proof.
  intros I. unfold kill_job.
  destruct (find_ptr _ _ _) as [p|] eqn:Hf; [|apply jobs_kept_refl]. simpl.
  apply find_ptr_Some in Hf as [Hp _].
  apply jobs_kept_alter. intros j Hj.
  destruct (inv_active _ _ _ _ _ _ I p Hp) as (j' & Hj' & Hst).
  assert (j' = j) as -> by congruence.
  by apply job_kept_not_waiting.
Qed.

Lemma jobs_kept_change_job_priority id pr s :
  jobs_kept (all_jobs_ s) (all_jobs_ (change_job_priority id pr s).2).
Proof.
  unfold change_job_priority.
  destruct (find_job_ptr _ _) as [p|]; [|apply jobs_kept_refl].
  destruct (decide _) as [E|]; [|apply jobs_kept_refl].
  apply jobs_kept_update_job. intros j _. unfold job_kept. simpl. auto.
Qed.

Lemma jobs_kept_worker_step w i s :
  Inv s → not_finishing (E_worker w i) s →
  jobs_kept (all_jobs_ s) (all_jobs_ (worker_step w i s)).
Proof.
  intros I Hnf. unfold worker_step. simpl in Hnf.
  destruct (worker_threads_ s !! w) as [pc|] eqn:Hw; [|apply jobs_kept_refl].
  assert (Hheld : ∀ p j, holds pc = Some p → all_jobs_ s !! p = Some j →
            status j ≠ WAITING_DEPS).
  { intros p j Hh Hj. destruct (inv_held _ _ _ _ _ _ I w pc p Hw Hh)
      as (j' & Hj' & ?). congruence. }
  destruct pc as [|p|p|p c|p|p|p|]; try done.
  - unfold worker_take. destruct (running_ s); [|apply jobs_kept_refl].
    destruct (job_queue_ s !! in_top i); [|apply jobs_kept_refl].
    destruct (_ <? _); apply jobs_kept_refl.
  - simpl. apply jobs_kept_alter. intros j Hj.
    apply job_kept_not_waiting; eauto.
  - unfold execute_job_assign, assign_core.
    destruct (first_free _); apply jobs_kept_refl.
  - unfold execute_job_launch.
    destruct (in_fork i) as [pid|]; simpl; rewrite !list_alter_alter_eq;
      apply jobs_kept_alter; intros j Hj; apply job_kept_not_waiting; eauto.
  - unfold execute_job_reap. simpl.
    destruct (in_wait i) as [code|]; simpl; rewrite !list_alter_alter_eq;
      apply jobs_kept_alter; intros j Hj; apply job_kept_not_waiting; eauto.
  - unfold execute_job_release.
    destruct (all_jobs_ s !! p); simpl; [|apply jobs_kept_refl].
    unfold release_core. destruct (core_in_range _ _); apply jobs_kept_refl.
  - apply jobs_kept_refl.
Qed.

Lemma jobs_kept_unlocked_step u s :
  Inv s → jobs_kept (all_jobs_ s) (all_jobs_ (unlocked_step u s)).
Proof.
  intros I. destruct u as [w i|k]; simpl; [|apply jobs_kept_caller_step].
  destruct (worker_threads_ s !! w) as [pc|] eqn:Hw; [|apply jobs_kept_refl].
  destruct (lock_free pc) eqn:Hl; [|apply jobs_kept_refl].
  apply jobs_kept_worker_step; [done|]. simpl. rewrite Hw.
  by destruct pc.
Qed.

Lemma jobs_kept_run_unlocked us s :
  Inv s → jobs_kept (all_jobs_ s) (all_jobs_ (run_unlocked us s)).
Proof.
  revert s. induction us as [|u us IH]; intros s I; [apply jobs_kept_refl|].
  eapply jobs_kept_trans; [by apply (jobs_kept_unlocked_step u)|].
  apply IH. by apply Inv_unlocked_step.
Qed.

Lemma jobs_kept_store_status st p during s :
  Inv s → p ∈ active_jobs_ s →
  jobs_kept (all_jobs_ s)
    (all_jobs_ (update_job (set_status st) p (run_unlocked during s))).
Proof.
  intros I Hp.
  eapply jobs_kept_trans; [by apply jobs_kept_run_unlocked|].
  pose proof (Inv_run_unlocked during s I) as I'.
  destruct (unlocked_frame_fields _ _ (run_unlocked_frame during s))
    as (_ & Ea & _).
  apply jobs_kept_update_job. intros j Hj.
  destruct (inv_active _ _ _ _ _ _ I' p) as (j' & Hj' & Hst);
    [by rewrite Ea|].
  assert (j' = j) as -> by congruence.
  by apply job_kept_not_waiting.
Qed.

Lemma jobs_kept_suspend_job id during s :
  Inv s → jobs_kept (all_jobs_ s) (all_jobs_ (suspend_job_during id during s).2).
Proof.
  intros I. unfold suspend_job_during.
  destruct (find_ptr _ _ _) as [p|] eqn:Hf; [|apply jobs_kept_refl].
  destruct (decide _) as [E|]; [|apply jobs_kept_refl].
  apply find_ptr_Some in Hf as [Hp _]. by apply jobs_kept_store_status.
Qed.

Lemma jobs_kept_resume_job id during s :
  Inv s → jobs_kept (all_jobs_ s) (all_jobs_ (resume_job_during id during s).2).
Proof.
  intros I. unfold resume_job_during.
  destruct (find_ptr _ _ _) as [p|] eqn:Hf; [|apply jobs_kept_refl].
  destruct (decide _) as [E|]; [|apply jobs_kept_refl].
  apply find_ptr_Some in Hf as [Hp _]. by apply jobs_kept_store_status.
Qed.

(** Every step but the end of a worker's loop body leaves the waiting jobs
    waiting. *)
Lemma jobs_kept_step e s :
  Inv s → not_finishing e s → jobs_kept (all_jobs_ s) (all_jobs_ (step e s)).
Proof.
  intros I Hnf.
  destruct e as [ | | |? ? ?|? ? ? ?|t aid i p now|? ? ?|?|?|? ?|? ?|? ?|?|?|?|? ?];
    simpl.
  - apply jobs_kept_refl.
  - apply jobs_kept_refl.
  - unfold stop_join. destruct (forallb _ _); apply jobs_kept_refl.
  - apply jobs_kept_submit_job.
  - apply jobs_kept_submit_job_with_deps.
  - apply (jobs_kept_submit_array_task_begin t aid i p now s).
  - apply jobs_kept_submit_job_script_begin.
  - apply jobs_kept_caller_step.
  - by apply jobs_kept_kill_job.
  - by apply jobs_kept_suspend_job.
  - by apply jobs_kept_resume_job.
  - apply jobs_kept_change_job_priority.
  - apply jobs_kept_refl.
  - apply jobs_kept_refl.
  - apply jobs_kept_refl.
  - by apply jobs_kept_worker_step.
Qed.

(** ** Release of jobs that wait for dependencies *)

Lemma dependency_completed_view jobs jobs' d :
  completed_view jobs = completed_view jobs' →
  dependency_completed jobs d = dependency_completed jobs' d.
Proof.
  unfold dependency_completed, completed_view.
  revert jobs'. induction jobs as [|a jobs IH]; intros [|b jobs'] H;
    simpl in *; try done.
  injection H as Hid Hc Hrest.
  rewrite Hid. destruct (decide (job_id b = d)); [exact Hc|]. by apply IH.
Qed.

Lemma dependencies_satisfied_view j jobs jobs' :
  completed_view jobs = completed_view jobs' →
  dependencies_satisfied j jobs = dependencies_satisfied j jobs'.
Proof.
  intros H. unfold dependencies_satisfied.
  induction (elements (dependencies j)) as [|d ds IH]; simpl; [done|].
  by rewrite IH, (dependency_completed_view jobs jobs' d H).
Qed.

Lemma completed_view_promote jobs i j :
  jobs !! i = Some j → status j = WAITING_DEPS →
  completed_view (alter (set_status PENDING) i jobs) = completed_view jobs.
Proof.
  intros Hi Hst. unfold completed_view. apply list_eq. intros k.
  rewrite !list_lookup_fmap. destruct (decide (i = k)) as [->|Hne].
  - rewrite list_lookup_alter_eq, Hi. simpl. rewrite Hst. done.
  - by rewrite list_lookup_alter_ne.
Qed.

Lemma dependencies_satisfied_true j jobs d :
  dependencies_satisfied j jobs = true → d ∈ dependencies j →
  ∃ dj, find_job d jobs = Some dj ∧ status dj = COMPLETED.
Proof.
  unfold dependencies_satisfied. rewrite forallb_forall. intros H Hd.
  assert (Hin : In d (elements (dependencies j))).
  { apply list_elem_of_In, elem_of_elements. done. }
  apply H in Hin. unfold dependency_completed in Hin.
  destruct (find_job d jobs) as [dj|]; [|done].
  exists dj. split; [done|]. by apply bool_decide_eq_true in Hin.
Qed.

(** The loop of update_job_dependencies: it changes no id, no dependency
    set and no COMPLETED status; a job it takes out of WAITING_DEPS depends
    on the finished job, has all its dependencies COMPLETED, becomes PENDING
    and is in the queue afterwards. *)
Lemma update_loop_spec cid l :
  ∀ jobs q,
  completed_view (foldl (update_one cid) (jobs, q) l).1 = completed_view jobs
  ∧ (∀ x, x ∈ q → x ∈ (foldl (update_one cid) (jobs, q) l).2)
  ∧ ∀ p j, jobs !! p = Some j →
      ∃ j', (foldl (update_one cid) (jobs, q) l).1 !! p = Some j'
        ∧ dependencies j' = dependencies j
        ∧ (status j' = status j
           ∨ (status j = WAITING_DEPS ∧ status j' = PENDING
              ∧ p ∈ (foldl (update_one cid) (jobs, q) l).2
              ∧ cid ∈ dependencies j
              ∧ dependencies_satisfied j jobs = true)).
Proof.
  induction l as [|i l IH]; intros jobs q.
  - simpl. split; [done|]. split; [done|]. intros p j Hj. exists j. auto.
  - change (foldl (update_one cid) (jobs, q) (i :: l))
      with (foldl (update_one cid) (update_one cid (jobs, q) i) l).
    assert (Hone : update_one cid (jobs, q) i = (jobs, q)
              ∨ ∃ j, jobs !! i = Some j ∧ status j = WAITING_DEPS
                     ∧ cid ∈ dependencies j
                     ∧ dependencies_satisfied j jobs = true
                     ∧ update_one cid (jobs, q) i
                       = (alter (set_status PENDING) i jobs, q ++ [i])).
    { unfold update_one. destruct (jobs !! i) as [j|] eqn:Hi; [|by left].
      destruct (bool_decide (status j = WAITING_DEPS)) eqn:Hst; [|by left].
      destruct (bool_decide (cid ∈ dependencies j)) eqn:Hc; [|by left].
      destruct (dependencies_satisfied j jobs) eqn:Hd; [|by left].
      right. exists j. apply bool_decide_eq_true in Hst, Hc. done. }
    destruct Hone as [->|(ji & Hi & Hst & Hc & Hd & ->)]; [apply IH|].
    destruct (IH (alter (set_status PENDING) i jobs) (q ++ [i]))
      as (Hv & Hq & Hj).
    pose proof (completed_view_promote jobs i ji Hi Hst) as Hv1.
    split; [congruence|]. split.
    { intros x Hx. apply Hq, elem_of_app. by left. }
    intros p j Hp. destruct (decide (p = i)) as [->|Hne].
    + assert (ji = j) as -> by congruence.
      destruct (Hj i (set_status PENDING j)) as (j' & Hj' & Hd' & Hs').
      { by rewrite list_lookup_alter_eq, Hp. }
      exists j'. split; [done|]. split; [done|].
      right. split; [done|].
      assert (Hin : i ∈ (foldl (update_one cid)
                           (alter (set_status PENDING) i jobs, q ++ [i]) l).2).
      { apply Hq, elem_of_app. right. by apply list_elem_of_singleton. }
      destruct Hs' as [E|(E & _)]; [|simpl in E; discriminate]. done.
    + destruct (Hj p j) as (j' & Hj' & Hd' & Hs').
      { by rewrite list_lookup_alter_ne. }
      exists j'. split; [done|]. split; [done|].
      destruct Hs' as [E|(E1 & E2 & E3 & E4 & E5)]; [by left|].
      right. repeat split; try done.
      by rewrite <- (dependencies_satisfied_view j _ _ Hv1).
Qed.

Lemma completed_view_length jobs jobs' :
  completed_view jobs = completed_view jobs' → length jobs = length jobs'.
Proof.
  unfold completed_view. intros H.
  apply (f_equal length) in H. by rewrite !length_fmap in H.
Qed.

(** What the end of a worker's loop body does to the records and the
    queue: nothing, or one run of the loop of update_job_dependencies. *)
Lemma worker_finish_jobs w i s p :
  worker_threads_ s !! w = Some (W_Finish p) →
  (all_jobs_ (worker_step w i s) = all_jobs_ s
   ∧ job_queue_ (worker_step w i s) = job_queue_ s)
  ∨ ∃ c, all_jobs_ s !! p = Some c
      ∧ all_jobs_ (worker_step w i s)
        = (foldl (update_one (job_id c)) (all_jobs_ s, job_queue_ s)
             (seq 0 (length (all_jobs_ s)))).1
      ∧ job_queue_ (worker_step w i s)
        = (foldl (update_one (job_id c)) (all_jobs_ s, job_queue_ s)
             (seq 0 (length (all_jobs_ s)))).2.
Proof.
  intros Hw. unfold worker_step. rewrite Hw. unfold worker_finish.
  destruct (erase_first p (active_jobs_ s)) as [rest|]; [|by left].
  destruct (all_jobs_ s !! p) as [c|] eqn:Hc; [|by left].
  destruct (is_terminal (status c)); [|by left].
  right. exists c. split; [done|].
  set (s2 := if decide (status c = COMPLETED) then _ else _).
  assert (E : all_jobs_ s2 = all_jobs_ s ∧ job_queue_ s2 = job_queue_ s).
  { subst s2. destruct (decide _); [done|]. destruct (decide _); done. }
  destruct E as [E1 E2].
  unfold update_job_dependencies. rewrite E1, E2, Hc.
  destruct (foldl _ _ _) as [jobs q]. done.
Qed.

Lemma not_finishing_dec e s :
  not_finishing e s
  ∨ ∃ w i p, e = E_worker w i ∧ worker_threads_ s !! w = Some (W_Finish p).
Proof.
  destruct e; try by left. simpl.
  destruct (worker_threads_ s !! w) as [[]|] eqn:E; try by left.
  right. eauto.
Qed.

(** A step that takes a job out of WAITING_DEPS: what it leaves behind. *)
Lemma release_from_waiting e s p j j' :
  Inv s →
  all_jobs_ s !! p = Some j → status j = WAITING_DEPS →
  all_jobs_ (step e s) !! p = Some j' → status j' ≠ WAITING_DEPS →
  status j' = PENDING
  ∧ p ∈ job_queue_ (step e s)
  ∧ dependencies_satisfied j (all_jobs_ s) = true
  ∧ dependencies_satisfied j (all_jobs_ (step e s)) = true.
Proof.
  intros Hr Hj Hst Hj' Hst'.
  destruct (not_finishing_dec e s) as [Hnf|(w & i & p0 & -> & Hw)].
  - exfalso. pose proof (jobs_kept_step e s Hr Hnf) as Hk.
    destruct (Hk p j Hj) as (j'' & Hj'' & _ & _ & Hs).
    assert (j'' = j') as -> by congruence. auto.
  - simpl in *.
    destruct (worker_finish_jobs w i s p0 Hw) as [[E1 E2]|(c & Hc & E1 & E2)].
    { rewrite E1 in Hj'. congruence. }
    destruct (update_loop_spec (job_id c) (seq 0 (length (all_jobs_ s)))
                (all_jobs_ s) (job_queue_ s)) as (Hv & _ & Hspec).
    rewrite <- E1, <- E2 in *.
    destruct (Hspec p j Hj) as (j'' & Hj'' & _ & Hs).
    assert (j'' = j') as -> by congruence.
    destruct Hs as [E|(_ & Hp & Hq & _ & Hd)]; [congruence|].
    split; [done|]. split; [done|]. split; [done|].
    by rewrite (dependencies_satisfied_view j _ _ Hv).
Qed.



(** ** Simulated memory *)

(** The record a submission creates has memory usage 0. *)
Lemma memory_usage_at_submission cmd deps p now s :
  (∃ j, all_jobs_ (submit_job cmd p now s).2 !! (submit_job cmd p now s).1
          = Some j ∧ memory_usage_mb j = 0)
  ∧ (∃ j, all_jobs_ (submit_job_with_deps cmd deps p now s).2
            !! (submit_job_with_deps cmd deps p now s).1 = Some j
          ∧ memory_usage_mb j = 0).
Proof.
  split.
  - destruct (submit_job_jobs cmd p now s) as [-> ->].
    eexists. rewrite lookup_app_r, Nat.sub_diag by lia. done.
  - destruct (submit_job_with_deps_jobs cmd deps p now s)
      as (j & -> & -> & Hm & _).
    exists j. rewrite lookup_app_r, Nat.sub_diag by lia. done.
Qed.


Lemma simulate_memory_usage_clamped j :
  memory_usage_mb (simulate_memory_usage j)
    = Z.min (base_memory (command j)) (max_memory_mb (limits j))
  ∧ memory_usage_mb (simulate_memory_usage j) ≤ max_memory_mb (limits j)
  ∧ limits (simulate_memory_usage j) = limits j.
Proof. simpl. split; [done|]. split; [lia|done]. Qed.

(** C10 (fails in the code).  parse_job_script writes
    limits.max_memory_mb of the new job after submit_job has pushed the job
    on the queue, notified a worker and released the mutex.  When the worker
    runs simulate_memory_usage before that write, the usage is clamped to
    the default limit of 1024 MB, and the limit the script declares is
    written afterwards: in a reachable state the job of a script with
    MEMORY_LIMIT 5 has memory_usage_mb = 10 and max_memory_mb = 5.  When
    the write comes first the usage is clamped to 5. *)
Theorem memory_usage_exceeds_script_limit :
  reachable script_job_overtaken
  ∧ (∃ j, all_jobs_ script_job_overtaken !! 0%nat = Some j
          ∧ memory_usage_mb j = 10 ∧ max_memory_mb (limits j) = 5)
  ∧ reachable script_job_running
  ∧ (∃ j, all_jobs_ script_job_running !! 0%nat = Some j
          ∧ memory_usage_mb j = 5 ∧ max_memory_mb (limits j) = 5).
Proof.
  split; [apply reachable_run, reach_new|]. split.
  { destruct (all_jobs_ script_job_overtaken !! 0%nat) as [j|] eqn:Hj;
      [|vm_compute in Hj; discriminate].
    exists j. split; [done|].
    vm_compute in Hj. injection Hj as <-. done. }
  split; [apply reachable_run, reach_new|].
  destruct (all_jobs_ script_job_running !! 0%nat) as [j|] eqn:Hj;
    [|vm_compute in Hj; discriminate].
  exists j. split; [done|].
  vm_compute in Hj. injection Hj as <-. done.
Qed.


(** No step writes the two averages: they keep the value 0 the
    constructor gave them. *)
Lemma step_averages e s :
  average_turnaround_time (stats_ (step e s)) = average_turnaround_time (stats_ s)
  ∧ average_wait_time (stats_ (step e s)) = average_wait_time (stats_ s).
Proof.
  destruct e; simpl; try done.
  - unfold stop_join. by destruct (forallb _ _).
  - unfold submit_job_with_deps, fresh_job_id. simpl.
    by destruct (dependencies_satisfied _ _).
  - unfold submit_job_script_begin, parse_job_script_submit.
    destruct file; [|done].
    destruct (parse_lines _ _); [done|]. destruct (decide _); [done|].
    destruct (v_dependencies _); simpl; [done|].
    unfold submit_job_with_deps, fresh_job_id. simpl.
    by destruct (dependencies_satisfied _ _).
  - unfold caller_step. by destruct (callers_ s !! k).
  - unfold kill_job. by destruct (find_ptr _ _ _).
  - unfold suspend_job_during. destruct (find_ptr _ _ _); [|done].
    destruct (decide _); [|done]. simpl.
    by destruct (unlocked_frame_fields _ _ (run_unlocked_frame during s))
      as (_ & _ & _ & _ & _ & -> & _).
  - unfold resume_job_during. destruct (find_ptr _ _ _); [|done].
    destruct (decide _); [|done]. simpl.
    by destruct (unlocked_frame_fields _ _ (run_unlocked_frame during s))
      as (_ & _ & _ & _ & _ & -> & _).
  - unfold change_job_priority. destruct (find_job_ptr _ _); [|done].
    by destruct (decide _).
  - unfold worker_step. destruct (worker_threads_ s !! w) as [pc|]; [|done].
    destruct pc as [|p|p|p c|p|p|p|]; simpl; try done.
    + unfold worker_take. destruct (running_ s); simpl; [|done].
      destruct (job_queue_ s !! _); simpl; [|done]. by destruct (_ <? _).
    + unfold execute_job_assign, assign_core. by destruct (first_free _).
    + unfold execute_job_launch. by destruct (in_fork i).
    + unfold execute_job_reap. by destruct (in_wait i).
    + unfold execute_job_release. destruct (all_jobs_ s !! p); simpl; [|done].
      unfold release_core. by destruct (core_in_range _ _).
    + unfold worker_finish.
      destruct (erase_first _ _); [|done].
      destruct (all_jobs_ s !! p) as [j|]; [|done].
      destruct (is_terminal _); simpl; [|done].
      set (s2 := if decide (status j = COMPLETED) then _ else _).
      destruct (update_job_dependencies_fields p s2) as (_ & _ & _ & _ & _ & ->).
      subst s2. destruct (decide _); [done|]. by destruct (decide _).
Qed.

(** X21.  No operation of the scheduler writes the two averages of
    SystemStats: in every reachable state get_system_stats reports 0 for
    the average turnaround time and for the average wait time. *)
Lemma averages_never_updated s :
  reachable s →
  average_turnaround_time (get_system_stats s) = 0%Q
  ∧ average_wait_time (get_system_stats s) = 0%Q.
Proof.
  unfold get_system_stats. induction 1 as [n now|e s _ [IH1 IH2]]; [done|].
  destruct (step_averages e s) as [-> ->]. done.
Qed.

(** ** Job scripts: what parse_job_script does *)

(** X22.  When parse_job_script throws (the file cannot be opened, a
    number in a header cannot be converted, or there is no command), the
    scheduler is left as it was: no job is created and no id is used up. *)
Lemma parse_job_script_error path file now s e :
  (parse_job_script path file now s).1 = inl e →
  (parse_job_script path file now s).2 = s.
Proof.
  unfold parse_job_script. destruct file as [content|]; [|done].
  destruct (parse_lines _ _) as [e'|v]; [done|]. destruct (decide _); [done|].
  destruct (match v_dependencies v with [] => _ | _ => _ end). done.
Qed.

(** A file made of header lines only has no command. *)
Lemma parse_lines_all_headers lines v v' :
  Forall (λ l, ends_headers l = false) lines →
  parse_lines lines v = inr v' → v_command v' = v_command v.
Proof.
  intros H. revert v. induction H as [|l lines Hl _ IH]; intros v; simpl.
  - by intros [= <-].
  - rewrite Hl. destruct (parse_header l v) as [e|v1] eqn:Hh; [done|].
    intros Hp. rewrite (IH v1 Hp).
    unfold parse_header in Hh.
    repeat (destruct (Str.contains _ l); [first [by injection Hh as <-|idtac]|]).
    all: try by injection Hh as <-.
    all: repeat match type of Hh with
         | context [stoul ?x] =>
             destruct (stoul x); [|discriminate]; by injection Hh as <-
         | context [stoi ?x] =>
             destruct (stoi x); [|discriminate]; by injection Hh as <-
         | context [parse_deps ?x ?y] =>
             destruct (parse_deps x y); [discriminate|]; by injection Hh as <-
         end.
Qed.

Lemma parse_job_script_no_command path content now s :
  Forall (λ l, ends_headers l = false) (Str.getlines newline content) →
  ∃ e, parse_job_script path (Some content) now s = (inl e, s).
Proof.
  intros H. unfold parse_job_script.
  destruct (parse_lines _ _) as [e|v] eqn:Hp; [by eexists|].
  apply (parse_lines_all_headers _ _ _ H) in Hp. simpl in Hp.
  rewrite decide_True by done. by eexists.
Qed.

(** ** Further facts about the operations *)

Lemma delete_snoc {A} (l : list A) x : delete (length l) (l ++ [x]) = l.
Proof. induction l as [|y l IH]; simpl; [done|]. by f_equal. Qed.

(** One iteration of the loop of submit_job_array, when no other thread
    runs in between: the step that ends with the return of submit_job,
    then the writes to the new record. *)
Lemma submit_array_task_steps t aid i p now s :
  (submit_array_task t aid i p now s).2
  = caller_step (length (callers_ s)) (submit_array_task_begin t aid i p now s)
  ∧ callers_ (submit_array_task t aid i p now s).2 = callers_ s.
Proof.
  unfold submit_array_task, submit_array_task_begin, submit_job, caller_step.
  simpl. rewrite lookup_app_r, Nat.sub_diag by lia. simpl.
  rewrite delete_snoc. by destruct s.
Qed.

(** submit_job_array, when no other thread runs in between, is the run of
    its loop iterations. *)
Lemma submit_job_array_run template size p now s :
  (submit_job_array template size p now s).2
  = run (concat ((λ i : nat,
                    [E_submit_array_task template (next_job_id_ s)
                       (Z.of_nat i) p (now i);
                     E_caller (length (callers_ s))])
                 <$> seq 0 (Z.to_nat size))) s.
Proof.
  unfold submit_job_array, run.
  set (aid := next_job_id_ s). clearbody aid.
  set (k := length (callers_ s)).
  assert (Hk : length (callers_ s) = k) by done. clearbody k.
  set (f := λ (acc : list nat * JobScheduler) (i : nat),
              let '(ptr, s') :=
                submit_array_task template aid (Z.of_nat i) p (now i) acc.2 in
              (acc.1 ++ [ptr], s')).
  assert (H : ∀ l acc s0, length (callers_ s0) = k →
            (foldl f (acc, s0) l).2
            = foldl (λ s1 e, step e s1) s0
                (concat ((λ i : nat,
                            [E_submit_array_task template aid (Z.of_nat i) p
                               (now i); E_caller k]) <$> l))).
  { induction l as [|i l IH]; intros acc s0 Hs0; [done|].
    destruct (submit_array_task_steps template aid (Z.of_nat i) p (now i) s0)
      as [E1 E2].
    assert (Hf : f (acc, s0) i
                 = (acc ++ [(submit_array_task template aid (Z.of_nat i) p
                               (now i) s0).1],
                    (submit_array_task template aid (Z.of_nat i) p
                       (now i) s0).2)).
    { unfold f. cbn [fst snd].
      by destruct (submit_array_task template aid (Z.of_nat i) p (now i) s0). }
    change (foldl f (acc, s0) (i :: l)) with (foldl f (f (acc, s0) i) l).
    rewrite Hf, IH by by rewrite E2. rewrite E1, Hs0. reflexivity. }
  by apply H.
Qed.

(** The entry top() may return has the largest priority rank of the
    queue. *)
Lemma is_top_max_priority jobs q p jp x jx :
  is_top JobCompare jobs q p → jobs !! p = Some jp →
  x ∈ q → jobs !! x = Some jx →
  priority_rank (priority jx) ≤ priority_rank (priority jp).
Proof.
  intros [_ Htop] Hp Hx Hjx. specialize (Htop x jp jx Hx Hp Hjx).
  unfold JobCompare in Htop. by apply Z.ltb_ge in Htop.
Qed.

(** Whatever the status was, execute_job stores COMPLETED or FAILED once
    waitpid has returned. *)
Lemma execute_job_reap_status p i s j :
  all_jobs_ s !! p = Some j →
  status_at (execute_job_reap p i s).2 p = Some COMPLETED
  ∨ status_at (execute_job_reap p i s).2 p = Some FAILED.
Proof.
  intros Hj. unfold execute_job_reap, status_at.
  destruct (in_wait i) as [code|]; simpl;
    rewrite list_alter_alter_eq, list_lookup_alter_eq, Hj; simpl.
  - destruct (decide (code = 0)); auto.
  - auto.
Qed.

(** No step removes an entry from completed_jobs_. *)
Lemma completed_jobs_grow e s :
  completed_jobs_ s `prefix_of` completed_jobs_ (step e s).
Proof.
  destruct e; simpl; try done.
  - unfold stop_join. by destruct (forallb _ _).
  - unfold submit_job_with_deps, fresh_job_id. simpl.
    by destruct (dependencies_satisfied _ _).
  - unfold submit_job_script_begin, parse_job_script_submit.
    destruct file; [|done].
    destruct (parse_lines _ _); [done|]. destruct (decide _); [done|].
    destruct (v_dependencies _); simpl; [done|].
    unfold submit_job_with_deps, fresh_job_id. simpl.
    by destruct (dependencies_satisfied _ _).
  - unfold caller_step. by destruct (callers_ s !! k).
  - unfold kill_job. by destruct (find_ptr _ _ _).
  - unfold suspend_job_during. destruct (find_ptr _ _ _); [|done].
    destruct (decide _); [|done]. simpl.
    by destruct (unlocked_frame_fields _ _ (run_unlocked_frame during s))
      as (_ & _ & -> & _).
  - unfold resume_job_during. destruct (find_ptr _ _ _); [|done].
    destruct (decide _); [|done]. simpl.
    by destruct (unlocked_frame_fields _ _ (run_unlocked_frame during s))
      as (_ & _ & -> & _).
  - unfold change_job_priority. destruct (find_job_ptr _ _); [|done].
    by destruct (decide _).
  - unfold worker_step. destruct (worker_threads_ s !! w) as [pc|]; [|done].
    destruct pc as [|p|p|p c|p|p|p|]; simpl; try done.
    + unfold worker_take. destruct (running_ s); simpl; [|done].
      destruct (job_queue_ s !! _); simpl; [|done]. by destruct (_ <? _).
    + unfold execute_job_assign, assign_core. by destruct (first_free _).
    + unfold execute_job_launch. by destruct (in_fork i).
    + unfold execute_job_reap. by destruct (in_wait i).
    + unfold execute_job_release. destruct (all_jobs_ s !! p); simpl; [|done].
      unfold release_core. by destruct (core_in_range _ _).
    + unfold worker_finish.
      destruct (erase_first _ _); [|done].
      destruct (all_jobs_ s !! p) as [j|]; [|done].
      destruct (is_terminal _); simpl; [|done].
      set (s2 := if decide (status j = COMPLETED) then _ else _).
      destruct (update_job_dependencies_fields p s2) as (_ & _ & -> & _).
      subst s2. destruct (decide _); [by apply prefix_app_r|].
      destruct (decide _); by apply prefix_app_r.
Qed.




(** parse_job_script, when no other thread runs in between, is the step
    that ends with the return of submit_job followed by the writes to the
    new record. *)
Lemma parse_job_script_run path file now s :
  (parse_job_script path file now s).2
  = run [E_submit_job_script path file now; E_caller (length (callers_ s))] s.
Proof.
  unfold run. simpl.
  unfold parse_job_script, submit_job_script_begin, parse_job_script_submit,
    caller_step.
  assert (Hnone : callers_ s !! length (callers_ s) = None)
    by by apply lookup_ge_None_2.
  destruct file as [content|]; [|by rewrite Hnone].
  destruct (parse_lines _ _) as [e|v]; [by rewrite Hnone|].
  destruct (decide (v_command v = "")); [by rewrite Hnone|].
  assert (Hc : callers_ (match v_dependencies v with
                         | [] => submit_job (v_command v) (v_priority v) now s
                         | _ => submit_job_with_deps (v_command v)
                                  (v_dependencies v) (v_priority v) now s
                         end).2 = callers_ s).
  { destruct (v_dependencies v); [done|].
    unfold submit_job_with_deps, fresh_job_id. simpl.
    by destruct (dependencies_satisfied _ _). }
  destruct (match v_dependencies v with [] => _ | _ => _ end) as [ptr s'].
  simpl in *. rewrite Hc, lookup_app_r, Nat.sub_diag by lia. simpl.
  rewrite <- Hc, delete_snoc. by destruct s'.
Qed.

(** kill_job succeeds exactly on the ids found in active_jobs_, whatever
    the status of the job. *)
Lemma kill_job_found id s p :
  find_ptr id (all_jobs_ s) (active_jobs_ s) = Some p →
  (kill_job id s).1 = true
  ∧ status_at (kill_job id s).2 p = Some KILLED.
Proof.
  intros Hf. unfold kill_job. rewrite Hf. simpl. split; [done|].
  apply find_ptr_Some in Hf as (_ & j & Hj & _).
  unfold status_at. simpl. by rewrite list_lookup_alter_eq, Hj.
Qed.


(** ** Core table: assign_core and release_core *)

Lemma first_free_lt cores i :
  first_free cores = Some i → ∀ k, (k < i)%nat → cores !! k = Some false.
Proof.
  revert i. induction cores as [|[] cores IH]; intros i H k Hk; simpl in *.
  - done.
  - injection H as <-. lia.
  - destruct (first_free cores) as [i'|]; simpl in H; [|done].
    injection H as <-. destruct k; simpl; [done|]. apply (IH i'); [done|lia].
Qed.

(** X1.  assign_core hands out the lowest free slot: the id returned is
    the index of a slot that was free, every lower slot was taken, and only
    that slot of the table changes (it becomes unavailable and its last-used
    time is the current time); with no free slot the result is -1 and the
    scheduler is unchanged. *)
Theorem assign_core_lowest_free now s :
  Z.of_nat (length (core_availability_ s)) ≤ int_max →
  ((assign_core now s).1 = -1 ∧ (assign_core now s).2 = s
   ∧ ∀ i, core_availability_ s !! i ≠ Some true)
  ∨ ∃ i : nat,
      (assign_core now s).1 = Z.of_nat i
      ∧ core_availability_ s !! i = Some true
      ∧ (∀ k, (k < i)%nat → core_availability_ s !! k = Some false)
      ∧ core_availability_ (assign_core now s).2
        = <[i:=false]> (core_availability_ s)
      ∧ core_last_used_ (assign_core now s).2 = <[i:=now]> (core_last_used_ s).
Proof.
  intros Hlen. unfold assign_core.
  destruct (first_free (core_availability_ s)) as [i|] eqn:E; simpl.
  - right. exists i. pose proof (first_free_Some _ _ E) as Hi.
    pose proof (lookup_lt_Some _ _ _ Hi) as Hlt.
    split; [|split; [done|split; [by apply first_free_lt|done]]].
    apply to_int_small. unfold int_min, int_max in *. lia.
  - left. split; [done|]. split; [done|]. by apply first_free_None.
Qed.

Lemma assign_core_lowest_free_witness :
  (assign_core 5 (one_job_running "sleep 5")).1 = -1
  ∨ ∃ i : nat, (assign_core 5 (one_job_running "sleep 5")).1 = Z.of_nat i.
Proof.
  destruct (assign_core_lowest_free 5 (one_job_running "sleep 5"))
    as [(H & _)|(i & H & _)].
  - vm_compute. discriminate.
  - by left.
  - right. by exists i.
Defined.

(** X2.  A core handed out by assign_core and given back by release_core
    leaves the availability table as it was; this includes the case where
    assign_core found no free slot and returned -1, which release_core
    ignores. *)
Theorem assign_release_round_trip now s :
  Z.of_nat (length (core_availability_ s)) ≤ int_max →
  core_availability_
    (release_core (assign_core now s).1 (assign_core now s).2)
  = core_availability_ s.
Proof.
  intros Hlen. unfold assign_core.
  destruct (first_free (core_availability_ s)) as [i|] eqn:E; simpl.
  - pose proof (first_free_Some _ _ E) as Hi.
    pose proof (lookup_lt_Some _ _ _ Hi) as Hlt.
    rewrite to_int_small by (unfold int_min, int_max in *; lia).
    unfold release_core, core_in_range. simpl. rewrite length_insert.
    rewrite to_int_small by (unfold int_min, int_max in *; lia).
    replace (0 <=? Z.of_nat i) with true by (symmetry; apply Z.leb_le; lia).
    replace (Z.of_nat i <? Z.of_nat (length (core_availability_ s))) with true
      by (symmetry; apply Z.ltb_lt; lia).
    simpl. rewrite Nat2Z.id, list_insert_insert_eq. by apply list_insert_id.
  - unfold release_core, core_in_range. simpl. done.
Qed.

Lemma assign_release_round_trip_witness :
  core_availability_
    (release_core (assign_core 7 (JobScheduler_new 2 0)).1
                  (assign_core 7 (JobScheduler_new 2 0)).2)
  = [true; true].
Proof.
  rewrite (assign_release_round_trip 7 (JobScheduler_new 2 0)).
  - reflexivity.
  - vm_compute. discriminate.
Defined.

Lemma with_cores_id s : with_cores (core_availability_ s) (core_last_used_ s) s = s.
Proof. by destruct s. Qed.

(** X3.  Releasing a core twice is harmless, and so is releasing an id
    outside the table: release_core of a slot that is already available, or
    of an id that is negative or not below the number of cores, returns
    the scheduler unchanged. *)
Theorem release_core_free_noop c s :
  core_in_range c s = false
  ∨ core_availability_ s !! Z.to_nat c = Some true →
  release_core c s = s.
Proof.
  intros H. unfold release_core.
  destruct (core_in_range c s); [|done].
  destruct H as [H|H]; [done|].
  rewrite list_insert_id by done. apply with_cores_id.
Qed.

Lemma release_core_free_noop_witness :
  release_core 1 (release_core 1 (one_job_running "sleep 5"))
  = release_core 1 (one_job_running "sleep 5").
Proof.
  apply (release_core_free_noop 1 (release_core 1 (one_job_running "sleep 5"))).
  left. vm_compute. reflexivity.
Defined.

(** ** Submission *)

(** X9.  An empty dependency list makes submit_job_with_deps behave as
    submit_job: the same record is created, queued and counted. *)
Theorem submit_job_with_deps_nil cmd p now s :
  submit_job_with_deps cmd [] p now s = submit_job cmd p now s.
Proof.
  unfold submit_job_with_deps, submit_job, fresh_job_id. simpl.
  unfold dependencies_satisfied. simpl. rewrite elements_empty. simpl. done.
Qed.

(** ** suspend_job and resume_job *)

Lemma find_ptr_alter f k id jobs ptrs :
  (∀ j, job_id (f j) = job_id j) →
  find_ptr id (alter f k jobs) ptrs = find_ptr id jobs ptrs.
Proof.
  intros Hf. induction ptrs as [|x ptrs IH]; simpl; [done|].
  destruct (decide (k = x)) as [->|Hne].
  - rewrite list_lookup_alter_eq. destruct (jobs !! x) as [j|]; simpl; [|done].
    rewrite Hf, IH. done.
  - rewrite list_lookup_alter_ne by done. by rewrite IH.
Qed.

Lemma set_status_back st j : set_status (status j) (set_status st j) = j.
Proof. by destruct j. Qed.

(** With no step of another thread between the test and the store, the
    steps of the transition system are suspend_job and resume_job as they
    are written. *)
Lemma suspend_job_during_nil id s : suspend_job_during id [] s = suspend_job id s.
Proof. done. Qed.

Lemma resume_job_during_nil id s : resume_job_during id [] s = resume_job id s.
Proof. done. Qed.

(** X6.  resume_job undoes suspend_job: when suspend_job succeeds, a
    resume_job for the same id succeeds as well and gives back the scheduler
    state from before the suspension. *)
Theorem suspend_resume_round_trip id s :
  (suspend_job id s).1 = true →
  resume_job id (suspend_job id s).2 = (true, s).
Proof.
  unfold suspend_job.
  destruct (find_ptr id (all_jobs_ s) (active_jobs_ s)) as [p|] eqn:Hf; [|done].
  destruct (decide (status_at s p = Some RUNNING)) as [Hst|]; [|done].
  intros _. simpl. unfold resume_job. simpl.
  rewrite find_ptr_alter by done. rewrite Hf.
  apply status_at_Some in Hst as (j & Hj & Hs).
  unfold status_at. simpl. rewrite list_lookup_alter_eq, Hj. simpl.
  f_equal.
  assert (E : alter (set_status RUNNING) p
                (alter (set_status SUSPENDED) p (all_jobs_ s)) = all_jobs_ s).
  { rewrite list_alter_alter_eq. apply list_eq. intros k.
    destruct (decide (p = k)) as [->|Hne].
    - rewrite list_lookup_alter_eq, Hj. simpl. rewrite <- Hs.
      by rewrite set_status_back.
    - by rewrite list_lookup_alter_ne. }
  rewrite E. by destruct s.
Qed.

Lemma suspend_resume_round_trip_witness :
  resume_job 1 (suspend_job 1 (one_job_running "sleep 5")).2
  = (true, one_job_running "sleep 5").
Proof.
  apply (suspend_resume_round_trip 1 (one_job_running "sleep 5")).
  vm_compute. reflexivity.
Defined.

(** ** Fields that are stored and never read *)

Ltac ops_unfold :=
  unfold stop_join, submit_job_with_deps, submit_array_task_begin,
    submit_job_script_begin, parse_job_script_submit, submit_job, caller_step,
    kill_job, change_job_priority,
    set_scheduling_policy, set_max_concurrent_jobs, enable_cpu_affinity,
    worker_step, worker_take, execute_job_assign, execute_job_launch,
    execute_job_reap,
    execute_job_release, worker_finish, update_job_dependencies, assign_core,
    release_core, core_in_range, fresh_job_id, status_at, update_job,
    stop_flag, start.

Ltac destruct_inner :=
  match goal with
  | |- context [match ?x with _ => _ end] =>
      lazymatch x with
      | context [match _ with _ => _ end] => fail
      | _ => destruct x eqn:?
      end
  end.

(** The two sides of a frame property for a field no operation reads:
    after unfolding, both run the same tests. *)
Ltac frame_step :=
  cbn -[dependencies_satisfied find_job_ptr find_ptr]; ops_unfold; cbn -[dependencies_satisfied find_job_ptr find_ptr];
  repeat match goal with
         | |- context [dependencies_satisfied ?j ?l] =>
             destruct (dependencies_satisfied j l)
         end;
  repeat (destruct_inner; simpl); try reflexivity.

(** The same for the steps that take no lock, and for the operations that
    let such steps in. *)
Ltac frame_unlocked worker caller :=
  let u := fresh "u" in
  intros u; intros; destruct u as [w i|k]; simpl; [|apply caller];
  destruct (worker_threads_ _ !! w) as [pc|]; [|done];
  destruct (lock_free pc); [apply worker|done].

Ltac frame_run_unlocked one :=
  let us := fresh "us" in
  let IH := fresh "IH" in
  intros us; induction us as [|u us IH]; intros; [done|];
  simpl; rewrite one; apply IH.

Ltac frame_during run :=
  intros; cbn -[find_ptr]; unfold suspend_job_during, resume_job_during,
    status_at; cbn -[find_ptr];
  destruct (find_ptr _ _ _); [|done];
  destruct (decide _); [|done];
  simpl; rewrite run; reflexivity.

Lemma worker_step_with_policy w i p s :
  worker_step w i (with_policy p s) = with_policy p (worker_step w i s).
Proof. frame_step. Qed.

Lemma caller_step_with_policy k p s :
  caller_step k (with_policy p s) = with_policy p (caller_step k s).
Proof. frame_step. Qed.

Lemma unlocked_step_with_policy u p s :
  unlocked_step u (with_policy p s) = with_policy p (unlocked_step u s).
Proof.
  revert u p s. frame_unlocked worker_step_with_policy caller_step_with_policy.
Qed.

Lemma run_unlocked_with_policy us p s :
  run_unlocked us (with_policy p s) = with_policy p (run_unlocked us s).
Proof.
  revert us p s. unfold run_unlocked.
  frame_run_unlocked unlocked_step_with_policy.
Qed.

Lemma suspend_job_with_policy id during p s :
  (suspend_job_during id during (with_policy p s)).2
  = with_policy p (suspend_job_during id during s).2.
Proof. frame_during run_unlocked_with_policy. Qed.

Lemma resume_job_with_policy id during p s :
  (resume_job_during id during (with_policy p s)).2
  = with_policy p (resume_job_during id during s).2.
Proof. frame_during run_unlocked_with_policy. Qed.

Lemma step_with_policy e p s :
  (∀ p2, e ≠ E_set_scheduling_policy p2) →
  step e (with_policy p s) = with_policy p (step e s).
Proof.
  intros H. destruct e; try (by destruct (H p0));
    try first [ apply suspend_job_with_policy
              | apply resume_job_with_policy
              | apply worker_step_with_policy ];
    frame_step.
Qed.

Lemma worker_step_with_cpu_affinity w i b s :
  worker_step w i (with_cpu_affinity b s)
  = with_cpu_affinity b (worker_step w i s).
Proof. frame_step. Qed.

Lemma caller_step_with_cpu_affinity k b s :
  caller_step k (with_cpu_affinity b s) = with_cpu_affinity b (caller_step k s).
Proof. frame_step. Qed.

Lemma unlocked_step_with_cpu_affinity u b s :
  unlocked_step u (with_cpu_affinity b s)
  = with_cpu_affinity b (unlocked_step u s).
Proof.
  revert u b s.
  frame_unlocked worker_step_with_cpu_affinity caller_step_with_cpu_affinity.
Qed.

Lemma run_unlocked_with_cpu_affinity us b s :
  run_unlocked us (with_cpu_affinity b s)
  = with_cpu_affinity b (run_unlocked us s).
Proof.
  revert us b s. unfold run_unlocked.
  frame_run_unlocked unlocked_step_with_cpu_affinity.
Qed.

Lemma suspend_job_with_cpu_affinity id during b s :
  (suspend_job_during id during (with_cpu_affinity b s)).2
  = with_cpu_affinity b (suspend_job_during id during s).2.
Proof. frame_during run_unlocked_with_cpu_affinity. Qed.

Lemma resume_job_with_cpu_affinity id during b s :
  (resume_job_during id during (with_cpu_affinity b s)).2
  = with_cpu_affinity b (resume_job_during id during s).2.
Proof. frame_during run_unlocked_with_cpu_affinity. Qed.

Lemma step_with_cpu_affinity e b s :
  (∀ b2, e ≠ E_enable_cpu_affinity b2) →
  step e (with_cpu_affinity b s) = with_cpu_affinity b (step e s).
Proof.
  intros H. destruct e; try (by destruct (H b0));
    try first [ apply suspend_job_with_cpu_affinity
              | apply resume_job_with_cpu_affinity
              | apply worker_step_with_cpu_affinity ];
    frame_step.
Qed.

(** X7.  The scheduling policy is stored and never read: two schedulers
    that differ only in the policy go, under the same sequence of events,
    to states that differ only in the policy.  In particular every policy
    dispatches jobs in the same way. *)
Theorem scheduling_policy_ignored evs p q s :
  with_policy q (run evs (set_scheduling_policy p s))
  = with_policy q (run evs s).
Proof.
  unfold set_scheduling_policy. revert p s. induction evs as [|e evs IH]; intros p s; [done|].
  change (with_policy q (run evs (step e (with_policy p s)))
          = with_policy q (run evs (step e s))).
  assert (Hc : (∃ p2, e = E_set_scheduling_policy p2)
               ∨ ∀ p2, e ≠ E_set_scheduling_policy p2)
    by (destruct e; eauto).
  destruct Hc as [[p2 ->]|Hne]; [done|].
  rewrite step_with_policy by done. apply IH.
Qed.

(** X8.  The CPU affinity flag is stored and never read: enabling or
    disabling it changes nothing but the flag, whatever happens
    afterwards. *)
Theorem cpu_affinity_ignored evs b c s :
  with_cpu_affinity c (run evs (enable_cpu_affinity b s))
  = with_cpu_affinity c (run evs s).
Proof.
  unfold enable_cpu_affinity.
  revert b s. induction evs as [|e evs IH]; intros b s; [done|].
  change (with_cpu_affinity c (run evs (step e (with_cpu_affinity b s)))
          = with_cpu_affinity c (run evs (step e s))).
  assert (Hc : (∃ b2, e = E_enable_cpu_affinity b2)
               ∨ ∀ b2, e ≠ E_enable_cpu_affinity b2)
    by (destruct e; eauto).
  destruct Hc as [[b2 ->]|Hne]; [done|].
  rewrite step_with_cpu_affinity by done. apply IH.
Qed.

(** ** Job ids *)

Lemma fmap_alter_same {A B} (g : A → B) (f : A → A) p (l : list A) :
  (∀ x, g (f x) = g x) → g <$> alter f p l = g <$> l.
Proof.
  intros H. apply list_eq. intros k. rewrite !list_lookup_fmap.
  destruct (decide (p = k)) as [->|Hne].
  - rewrite list_lookup_alter_eq. destruct (l !! k); simpl; [|done]. by rewrite H.
  - by rewrite list_lookup_alter_ne.
Qed.

Lemma update_loop_fmap {B} (g : JobMetadata → B) cid l :
  (∀ j, g (set_status PENDING j) = g j) →
  ∀ jobs q, g <$> (foldl (update_one cid) (jobs, q) l).1 = g <$> jobs.
Proof.
  intros Hg. induction l as [|i l IH]; intros jobs q; [done|].
  change (foldl (update_one cid) (jobs, q) (i :: l))
    with (foldl (update_one cid) (update_one cid (jobs, q) i) l).
  destruct (update_one cid (jobs, q) i) as [jobs1 q1] eqn:E.
  rewrite IH. unfold update_one in E.
  destruct (jobs !! i) as [j|]; [|by injection E as <- <-].
  destruct (bool_decide _); [|by injection E as <- <-].
  destruct (_ && _); injection E as <- <-; [|done].
  by apply fmap_alter_same.
Qed.

Lemma update_job_dependencies_fmap {B} (g : JobMetadata → B) p s :
  (∀ j, g (set_status PENDING j) = g j) →
  g <$> all_jobs_ (update_job_dependencies p s) = g <$> all_jobs_ s.
Proof.
  intros Hg. unfold update_job_dependencies.
  destruct (all_jobs_ s !! p) as [c|]; [|done].
  pose proof (update_loop_fmap g (job_id c) (seq 0 (length (all_jobs_ s))) Hg
                (all_jobs_ s) (job_queue_ s)) as H.
  destruct (foldl _ _ _) as [jobs q]. exact H.
Qed.

Lemma update_job_dependencies_next p s :
  next_job_id_ (update_job_dependencies p s) = next_job_id_ s
  ∧ running_ (update_job_dependencies p s) = running_ s
  ∧ max_concurrent_jobs_ (update_job_dependencies p s) = max_concurrent_jobs_ s.
Proof.
  unfold update_job_dependencies. destruct (all_jobs_ s !! p); [|done].
  destruct (foldl _ _ _). done.
Qed.

Lemma worker_step_job_ids w i s :
  job_id <$> all_jobs_ (worker_step w i s) = job_id <$> all_jobs_ s
  ∧ next_job_id_ (worker_step w i s) = next_job_id_ s.
Proof.
  unfold worker_step. destruct (worker_threads_ s !! w) as [pc|]; [|done].
  destruct pc as [|p|p|p c|p|p|p|]; simpl; try done.
  - unfold worker_take. destruct (running_ s); simpl; [|done].
    destruct (job_queue_ s !! _); simpl; [|done]. by destruct (_ <? _).
  - by rewrite fmap_alter_same.
  - unfold execute_job_assign, assign_core. by destruct (first_free _).
  - unfold execute_job_launch. destruct (in_fork i); simpl;
      by rewrite !fmap_alter_same.
  - unfold execute_job_reap. destruct (in_wait i); simpl;
      by rewrite !fmap_alter_same.
  - unfold execute_job_release. destruct (all_jobs_ s !! p); simpl; [|done].
    unfold release_core. by destruct (core_in_range _ _).
  - unfold worker_finish.
    destruct (erase_first _ _); [|done].
    destruct (all_jobs_ s !! p) as [j|]; [|done].
    destruct (is_terminal _); simpl; [|done].
    set (s2 := if decide (status j = COMPLETED) then _ else _).
    rewrite (update_job_dependencies_fmap job_id p s2) by done.
    destruct (update_job_dependencies_next p s2) as (-> & _).
    subst s2. destruct (decide _); [done|]. by destruct (decide _).
Qed.

Lemma caller_step_job_ids k s :
  job_id <$> all_jobs_ (caller_step k s) = job_id <$> all_jobs_ s
  ∧ next_job_id_ (caller_step k s) = next_job_id_ s.
Proof.
  unfold caller_step. destruct (callers_ s !! k) as [c|]; [|done]. simpl.
  split; [|done]. apply fmap_alter_same. intros j.
  by destruct (caller_write_fields c j) as (_ & _ & ? & _).
Qed.

Lemma run_unlocked_job_ids us s :
  job_id <$> all_jobs_ (run_unlocked us s) = job_id <$> all_jobs_ s
  ∧ next_job_id_ (run_unlocked us s) = next_job_id_ s.
Proof.
  revert s. induction us as [|u us IH]; intros s; [done|].
  change (run_unlocked (u :: us) s) with (run_unlocked us (unlocked_step u s)).
  destruct (IH (unlocked_step u s)) as [-> ->].
  destruct u as [w i|k]; simpl; [|apply caller_step_job_ids].
  destruct (worker_threads_ s !! w) as [pc|]; [|done].
  destruct (lock_free pc); [apply worker_step_job_ids|done].
Qed.

(** What a step does to the list of job ids: nothing, or the id
    [next_job_id_] is appended and the counter incremented. *)
Lemma step_job_ids e s :
  (job_id <$> all_jobs_ (step e s) = job_id <$> all_jobs_ s
   ∧ next_job_id_ (step e s) = next_job_id_ s)
  ∨ (job_id <$> all_jobs_ (step e s) = (job_id <$> all_jobs_ s) ++ [next_job_id_ s]
     ∧ next_job_id_ (step e s) = to_int (next_job_id_ s + 1)).
Proof.
  destruct e; simpl; try by left.
  - unfold stop_join. destruct (forallb _ _); by left.
  - right. by rewrite fmap_app.
  - right. unfold submit_job_with_deps, fresh_job_id. simpl.
    destruct (dependencies_satisfied _ _); simpl; by rewrite fmap_app.
  - right. by rewrite fmap_app.
  - unfold submit_job_script_begin, parse_job_script_submit.
    destruct file; [|by left].
    destruct (parse_lines _ _); [by left|]. destruct (decide _); [by left|].
    right. destruct (v_dependencies _); simpl.
    + by rewrite fmap_app.
    + unfold submit_job_with_deps, fresh_job_id. simpl.
      destruct (dependencies_satisfied _ _); simpl; by rewrite fmap_app.
  - left. apply caller_step_job_ids.
  - left. unfold kill_job. destruct (find_ptr _ _ _); [|done]. simpl.
    by rewrite fmap_alter_same.
  - left. unfold suspend_job_during. destruct (find_ptr _ _ _); [|done].
    destruct (decide _); [|done]. simpl. rewrite fmap_alter_same by done.
    apply run_unlocked_job_ids.
  - left. unfold resume_job_during. destruct (find_ptr _ _ _); [|done].
    destruct (decide _); [|done]. simpl. rewrite fmap_alter_same by done.
    apply run_unlocked_job_ids.
  - left. unfold change_job_priority. destruct (find_job_ptr _ _); [|done].
    destruct (decide _); [|done]. simpl. by rewrite fmap_alter_same.
  - left. apply worker_step_job_ids.
Qed.

Lemma to_int_succ z : to_int (to_int z + 1) = to_int (z + 1).
Proof.
  unfold to_int.
  replace ((z + 2 ^ 31) mod 2 ^ 32 - 2 ^ 31 + 1 + 2 ^ 31)
    with ((z + 2 ^ 31) mod 2 ^ 32 + 1) by lia.
  replace (z + 1 + 2 ^ 31) with ((z + 2 ^ 31) + 1) by lia.
  by rewrite Zplus_mod_idemp_l.
Qed.

(** The ids of the records, in the order of [all_jobs_]: the counter
    started at 1 and was incremented (as an int) at every submission. *)
Lemma reachable_job_ids s :
  reachable s →
  job_id <$> all_jobs_ s
    = (λ p : nat, to_int (Z.of_nat p + 1)) <$> seq 0 (length (all_jobs_ s))
  ∧ next_job_id_ s = to_int (Z.of_nat (length (all_jobs_ s)) + 1).
Proof.
  induction 1 as [n now|e s _ [IH1 IH2]]; [done|].
  destruct (step_job_ids e s) as [[E1 E2]|[E1 E2]].
  - assert (length (all_jobs_ (step e s)) = length (all_jobs_ s)) as ->.
    { apply (f_equal length) in E1. by rewrite !length_fmap in E1. }
    by rewrite E1, E2.
  - assert (length (all_jobs_ (step e s)) = S (length (all_jobs_ s))) as ->.
    { apply (f_equal length) in E1.
      rewrite length_app, !length_fmap in E1. simpl in E1. lia. }
    rewrite E1, E2, IH1, IH2, seq_S, fmap_app. simpl. split; [done|].
    rewrite to_int_succ. f_equal. lia.
Qed.

Lemma reachable_job_id s p j :
  reachable s → Z.of_nat (length (all_jobs_ s)) ≤ int_max →
  all_jobs_ s !! p = Some j → job_id j = Z.of_nat p + 1.
Proof.
  intros Hr Hlen Hj. destruct (reachable_job_ids s Hr) as [E _].
  apply (f_equal (λ l, l !! p)) in E.
  rewrite !list_lookup_fmap, Hj in E. simpl in E.
  pose proof (lookup_lt_Some _ _ _ Hj) as Hp.
  rewrite (lookup_seq_lt 0 _ p Hp) in E. simpl in E. injection E as ->.
  apply to_int_small. unfold int_min, int_max in *. lia.
Qed.

Lemma find_job_first jobs p j :
  jobs !! p = Some j →
  (∀ p' j', (p' < p)%nat → jobs !! p' = Some j' → job_id j' ≠ job_id j) →
  find_job (job_id j) jobs = Some j.
Proof.
  revert p. induction jobs as [|x jobs IH]; intros p Hp Hne; [done|]. simpl.
  destruct p as [|p]; simpl in Hp.
  - injection Hp as ->. by rewrite decide_True.
  - rewrite decide_False by (apply (Hne 0%nat x); [lia|done]).
    apply (IH p Hp). intros p' j' Hlt Hj'. apply (Hne (S p') j'); [lia|done].
Qed.

(** X4.  Job ids are handed out in submission order: as long as fewer than
    2^31 jobs have been submitted, the record at position [p] of all_jobs_
    has id [p + 1]; no two records share an id, and a search by id finds the
    record. *)
Theorem job_ids_sequential s p j :
  reachable s →
  Z.of_nat (length (all_jobs_ s)) ≤ int_max →
  all_jobs_ s !! p = Some j →
  job_id j = Z.of_nat p + 1
  ∧ (∀ p' j', all_jobs_ s !! p' = Some j' → job_id j' = job_id j → p' = p)
  ∧ find_job (job_id j) (all_jobs_ s) = Some j.
Proof.
  intros Hr Hlen Hj.
  pose proof (reachable_job_id s p j Hr Hlen Hj) as Hid.
  split; [done|]. split.
  - intros p' j' Hj' E.
    pose proof (reachable_job_id s p' j' Hr Hlen Hj'). lia.
  - apply (find_job_first _ p); [done|]. intros p' j' Hlt Hj'.
    pose proof (reachable_job_id s p' j' Hr Hlen Hj'). lia.
Qed.

Lemma job_ids_sequential_witness :
  find_job 3 (all_jobs_ aged_queue)
  = Some (JobMetadata_new 3 "echo b" HIGH (minutes 201)).
Proof.
  assert (Hr : reachable aged_queue).
  { unfold aged_queue, one_job_running. do 2 apply reachable_run. constructor. }
  destruct (job_ids_sequential aged_queue 2%nat
              (JobMetadata_new 3 "echo b" HIGH (minutes 201)) Hr)
    as (_ & _ & H3).
  - vm_compute. discriminate.
  - vm_compute. reflexivity.
  - exact H3.
Defined.

(** ** Dependencies that can never be satisfied *)

Lemma step_jobs_length e s :
  (length (all_jobs_ s) ≤ length (all_jobs_ (step e s)))%nat.
Proof.
  destruct (step_job_ids e s) as [[E _]|[E _]];
    apply (f_equal length) in E; rewrite ?length_app, !length_fmap in E;
    simpl in E; lia.
Qed.

Lemma run_jobs_length evs s :
  (length (all_jobs_ s) ≤ length (all_jobs_ (run evs s)))%nat.
Proof.
  revert s. induction evs as [|e evs IH]; intros s; [done|].
  etransitivity; [apply (step_jobs_length e)|apply IH].
Qed.

(** A step keeps the id and the dependency set of every record. *)
Lemma step_record_kept e s p j :
  Inv s → all_jobs_ s !! p = Some j →
  ∃ j', all_jobs_ (step e s) !! p = Some j'
        ∧ job_id j' = job_id j ∧ dependencies j' = dependencies j.
Proof.
  intros I Hj.
  destruct (not_finishing_dec e s) as [Hnf|(w & i & p0 & -> & Hw)].
  - pose proof (jobs_kept_step e s I Hnf) as Hk.
    destruct (Hk p j Hj) as (j' & Hj' & Hid & Hd & _). eauto.
  - simpl. destruct (worker_finish_jobs w i s p0 Hw) as [[-> _]|(c & _ & -> & _)].
    + eauto.
    + destruct (update_loop_spec (job_id c) (seq 0 (length (all_jobs_ s)))
                  (all_jobs_ s) (job_queue_ s)) as (Hv & _ & Hk).
      destruct (Hk p j Hj) as (j' & Hj' & Hd & _).
      exists j'. split; [done|]. split; [|done].
      apply (f_equal (λ l, fst <$> l !! p)) in Hv. unfold completed_view in Hv.
      rewrite !list_lookup_fmap, Hj', Hj in Hv. simpl in Hv. congruence.
Qed.

(** X10.  A job that lists its own id among its dependencies is never
    released: whatever happens afterwards, it stays WAITING_DEPS. *)
Theorem self_dependency_never_released evs s p j :
  reachable s →
  all_jobs_ s !! p = Some j → status j = WAITING_DEPS →
  job_id j ∈ dependencies j →
  Z.of_nat (length (all_jobs_ (run evs s))) ≤ int_max →
  ∃ j', all_jobs_ (run evs s) !! p = Some j' ∧ status j' = WAITING_DEPS.
Proof.
  revert s j. induction evs as [|e evs IH]; intros s j Hr Hj Hst Hself Hlen.
  { eauto. }
  change (run (e :: evs) s) with (run evs (step e s)) in *.
  assert (Hlen0 : Z.of_nat (length (all_jobs_ s)) ≤ int_max).
  { pose proof (step_jobs_length e s). pose proof (run_jobs_length evs (step e s)).
    lia. }
  pose proof (reachable_Inv s Hr) as I.
  destruct (step_record_kept e s p j I Hj) as (j1 & Hj1 & Hid & Hd).
  apply (IH (step e s) j1); [by constructor|done| |by rewrite Hid, Hd|done].
  destruct (decide (status j1 = WAITING_DEPS)) as [|Hne]; [done|]. exfalso.
  destruct (release_from_waiting e s p j j1 I Hj Hst Hj1 Hne) as (_ & _ & Hs & _).
  destruct (dependencies_satisfied_true j _ _ Hs Hself) as (dj & Hf & Hc).
  rewrite (find_job_first _ p j Hj) in Hf.
  - injection Hf as <-. congruence.
  - intros p' j' Hlt Hj'.
    rewrite (reachable_job_id s p' j' Hr Hlen0 Hj').
    rewrite (reachable_job_id s p j Hr Hlen0 Hj). lia.
Qed.

Lemma self_dependency_never_released_witness :
  let s := run [E_start; E_submit_job_with_deps "echo never" [1] HIGH 0]
               (JobScheduler_new 1 0) in
  ∃ j', all_jobs_ (run [E_worker 0 (input_at (ms 10) 0)] s) !! 0%nat = Some j'
        ∧ status j' = WAITING_DEPS.
Proof.
  intros s.
  destruct (all_jobs_ s !! 0%nat) as [j|] eqn:Hj; [|vm_compute in Hj; discriminate].
  apply (self_dependency_never_released [E_worker 0 (input_at (ms 10) 0)] s 0%nat j).
  - apply reachable_run, reach_new.
  - exact Hj.
  - vm_compute in Hj. injection Hj as <-. reflexivity.
  - vm_compute in Hj. injection Hj as <-. vm_compute. reflexivity.
  - vm_compute. discriminate.
Defined.

(** ** submit_job_array *)

Lemma alter_snoc {A} (f : A → A) (l : list A) x :
  alter f (length l) (l ++ [x]) = l ++ [f x].
Proof.
  apply list_eq. intros k. destruct (decide (length l = k)) as [<-|Hne].
  - rewrite list_lookup_alter_eq, !lookup_app_r, Nat.sub_diag by lia. done.
  - rewrite list_lookup_alter_ne by done.
    destruct (decide (k < length l)%nat).
    + by rewrite !lookup_app_l by lia.
    + rewrite !lookup_app_r by lia.
      destruct (k - length l)%nat eqn:E; [lia|done].
Qed.

Lemma submit_job_array_loop template aid p now s n :
  int_min ≤ aid ≤ int_max → aid + Z.of_nat n - 1 ≤ int_max →
  next_job_id_ s = aid →
  let r := foldl (λ (acc : list nat * JobScheduler) (i : nat),
                    let '(ptr, s') :=
                      submit_array_task template aid (Z.of_nat i) p (now i)
                        acc.2 in
                    (acc.1 ++ [ptr], s'))
                 ([], s) (seq 0 n) in
  r.1 = seq (length (all_jobs_ s)) n
  ∧ all_jobs_ r.2 = all_jobs_ s ++ (array_task template aid p now <$> seq 0 n)
  ∧ job_queue_ r.2 = job_queue_ s ++ seq (length (all_jobs_ s)) n
  ∧ next_job_id_ r.2 = to_int (aid + Z.of_nat n)
  ∧ total_jobs_submitted (stats_ r.2)
    = total_jobs_submitted (stats_ s) + Z.of_nat n.
Proof.
  intros Hlo Hhi Hid. induction n as [|n IH].
  - simpl. rewrite !app_nil_r, Z.add_0_r. repeat split; try done.
    + rewrite Hid. symmetry. apply to_int_small. unfold int_max in *. lia.
    + lia.
  - rewrite !seq_S, foldl_app, fmap_app.
    destruct IH as (E1 & E2 & E3 & E4 & E5); [lia|].
    set (r := foldl _ _ (seq 0 n)) in *. clearbody r. destruct r as [ptrs s1].
    cbn [foldl fst snd] in *.
    unfold submit_array_task, submit_job, fresh_job_id.
    cbn [fst snd all_jobs_ job_queue_ next_job_id_ stats_ with_jobs with_queue
         with_stats with_next_job_id incr_submitted total_jobs_submitted].
    rewrite E1, E2, E3, E4, E5.
    rewrite alter_snoc, length_app, length_fmap, length_seq, !app_assoc.
    split; [done|]. split; [|split; [done|split]].
    + do 2 f_equal. unfold array_task. simpl.
      rewrite to_int_small by (unfold int_min, int_max in *; lia). done.
    + rewrite to_int_succ. f_equal. lia.
    + lia.
Qed.

(** X11.  submit_job_array, run without interference, appends one record
    per task to all_jobs_ and to the queue, in task order: task [i] has the
    next free id, the template with its first "$ARRAY_ID" replaced by [i],
    array index [i], type ARRAY_JOB and the array id that was the next job
    id when the call began (the id of task 0).  A size of zero or less
    creates nothing. *)
Theorem submit_job_array_tasks template size p now s :
  int_min ≤ next_job_id_ s ≤ int_max → next_job_id_ s + size - 1 ≤ int_max →
  let n := Z.to_nat size in
  let r := submit_job_array template size p now s in
  r.1 = seq (length (all_jobs_ s)) n
  ∧ all_jobs_ r.2
    = all_jobs_ s ++ (array_task template (next_job_id_ s) p now <$> seq 0 n)
  ∧ job_queue_ r.2 = job_queue_ s ++ seq (length (all_jobs_ s)) n
  ∧ total_jobs_submitted (stats_ r.2)
    = total_jobs_submitted (stats_ s) + Z.of_nat n.
Proof.
  intros Hlo Hhi n r.
  destruct (submit_job_array_loop template (next_job_id_ s) p now s n Hlo)
    as (E1 & E2 & E3 & _ & E5); [unfold int_max in *; lia|done|].
  done.
Qed.

Lemma submit_job_array_tasks_witness :
  command <$> all_jobs_
    (submit_job_array "echo $ARRAY_ID of 3" 3 LOW (λ _, 0)
       (JobScheduler_new 2 0)).2
  = ["echo 0 of 3"; "echo 1 of 3"; "echo 2 of 3"].
Proof.
  destruct (submit_job_array_tasks "echo $ARRAY_ID of 3" 3 LOW (λ _, 0)
              (JobScheduler_new 2 0)) as (_ & E & _).
  - vm_compute. split; discriminate.
  - vm_compute. discriminate.
  - rewrite E. vm_compute. reflexivity.
Defined.

(** ** Active jobs, completed jobs and the owners of cores *)

Ltac inve_destruct E :=
  destruct E as [Ean Eah Ecn Ecq Ech Ect Eb El].

Lemma begun_holds pc p : begun pc = Some p → holds pc = Some p.
Proof. destruct pc; simpl; congruence. Qed.

Lemma owned_core_has_core jobs pc :
  (∀ p, has_core pc ≠ Some p) → ∀ jobs', owned_core jobs' pc = owned_core jobs pc.
Proof. intros H jobs'. destruct pc; simpl; try done; by destruct (H job). Qed.

Lemma owned_core_ext_core jobs jobs' pc :
  (∀ p, has_core pc = Some p →
        assigned_core_id <$> jobs' !! p = assigned_core_id <$> jobs !! p) →
  owned_core jobs' pc = owned_core jobs pc.
Proof. destruct pc; simpl; auto. Qed.

(** A write to the record at [p]. *)
Lemma InvE_alter f p ws q a c jobs cores n :
  InvE ws q a c jobs cores n →
  (∀ j, jobs !! p = Some j →
        (assigned_core_id (f j) = assigned_core_id j
         ∨ (∀ w pc, ws !! w = Some pc → has_core pc ≠ Some p))
        ∧ (is_terminal (status j) = true →
           is_terminal (status (f j)) = true ∨ (p ∉ c))
        ∧ (status (f j) = PENDING →
           status j = PENDING
           ∨ ∀ w pc, ws !! w = Some pc → begun pc ≠ Some p)) →
  InvE ws q a c (alter f p jobs) cores n.
Proof.
  intros E Hf. inve_destruct E. constructor; try done.
  - intros x Hx. destruct (Ect x Hx) as (j & Hj & Ht).
    destruct (decide (x = p)) as [->|Hne].
    + exists (f j). rewrite list_lookup_alter_eq, Hj. split; [done|].
      destruct (Hf j Hj) as (_ & H & _). destruct (H Ht) as [?|?]; done.
    + exists j. by rewrite list_lookup_alter_ne.
  - intros w pc x j' Hw Hb Hj'.
    apply lookup_alter_Some in Hj' as [(-> & j & Hj & ->)|[Hne Hj]].
    + intros Hp. destruct (Hf j Hj) as (_ & _ & H).
      destruct (H Hp) as [Hp'|Hn]; [by eapply (Eb w pc p j)|].
      by destruct (Hn w pc Hw).
    + by eapply Eb.
  - intros Hn i Hi. destruct (El Hn i Hi) as (w & pc & Hw & Ho).
    exists w, pc. split; [done|]. rewrite <- Ho.
    apply owned_core_ext_core. intros x Hx.
    destruct (decide (x = p)) as [->|Hne]; [|by rewrite list_lookup_alter_ne].
    rewrite list_lookup_alter_eq.
    destruct (jobs !! p) as [j|] eqn:Hj; [|done]. simpl.
    destruct (Hf j eq_refl) as ([->|Hno] & _); [done|].
    by destruct (Hno w pc Hw).
Qed.

Lemma InvE_alter_same f p ws q a c jobs cores n :
  InvE ws q a c jobs cores n →
  (∀ j, assigned_core_id (f j) = assigned_core_id j
        ∧ (is_terminal (status j) = true → is_terminal (status (f j)) = true)
        ∧ (status (f j) = PENDING → status j = PENDING)) →
  InvE ws q a c (alter f p jobs) cores n.
Proof.
  intros E Hf. apply InvE_alter; [done|]. intros j _.
  destruct (Hf j) as (? & ? & ?). auto.
Qed.

(** A change of the queue that brings in no completed job. *)
Lemma InvE_queue q' ws q a c jobs cores n :
  InvE ws q a c jobs cores n →
  (∀ p, p ∈ c → p ∉ q') →
  InvE ws q' a c jobs cores n.
Proof. intros E Hq. inve_destruct E. by constructor. Qed.

(** A new record. *)
Lemma InvE_append j q' ws q a c jobs cores n :
  InvC ws q a jobs cores n →
  InvE ws q a c jobs cores n →
  (∀ x, x ∈ q' → x ∈ q ∨ x = length jobs) →
  InvE ws q' a c (jobs ++ [j]) cores n.
Proof.
  intros I E Hq. inve_destruct E. constructor; try done.
  - intros x Hx [Hx'| ->]%Hq; [by eapply Ecq|].
    destruct (Ect _ Hx) as (j0 & Hj0 & _).
    apply lookup_lt_Some in Hj0. lia.
  - intros x Hx. destruct (Ect x Hx) as (j0 & Hj0 & Ht).
    exists j0. split; [by apply lookup_app_l_Some|done].
  - intros w pc x j0 Hw Hb Hj0.
    destruct (inv_held _ _ _ _ _ _ I w pc x Hw (begun_holds _ _ Hb))
      as (j1 & Hj1 & _).
    rewrite (lookup_app_l_Some _ _ _ _ Hj1) in Hj0. injection Hj0 as <-.
    by eapply Eb.
  - intros Hn i Hi. destruct (El Hn i Hi) as (w & pc & Hw & Ho).
    exists w, pc. split; [done|]. rewrite <- Ho.
    apply owned_core_ext. intros x Hx.
    destruct (inv_held _ _ _ _ _ _ I w pc x Hw Hx) as (j1 & Hj1 & _).
    by rewrite (lookup_app_l_Some _ _ _ _ Hj1), Hj1.
Qed.

(** A job leaves WAITING_DEPS and enters the queue. *)
Lemma InvE_promote i j ws q a c jobs cores n :
  InvC ws q a jobs cores n →
  InvE ws q a c jobs cores n →
  jobs !! i = Some j → status j = WAITING_DEPS →
  InvE ws (q ++ [i]) a c (alter (set_status PENDING) i jobs) cores n.
Proof.
  intros I E Hi Hst. apply InvE_alter.
  - apply (InvE_queue (q ++ [i])) in E; [done|].
    intros x Hx [Hq| ->%list_elem_of_singleton]%elem_of_app.
    + by eapply (e_c_q _ _ _ _ _ _ _ E).
    + destruct (e_c_term _ _ _ _ _ _ _ E _ Hx) as (j0 & Hj0 & Ht).
      assert (j0 = j) as -> by congruence. by rewrite Hst in Ht.
  - intros j0 Hj0. assert (j0 = j) as -> by congruence.
    split; [by left|]. split; [by rewrite Hst|].
    intros _. right. intros w pc Hw Hb.
    destruct (inv_held _ _ _ _ _ _ I w pc i Hw (begun_holds _ _ Hb))
      as (j1 & Hj1 & Hne).
    congruence.
Qed.

Lemma InvE_update_loop ws a c cores n cid l :
  ∀ jobs q, InvC ws q a jobs cores n → InvE ws q a c jobs cores n →
  InvE ws (foldl (update_one cid) (jobs, q) l).2 a c
       (foldl (update_one cid) (jobs, q) l).1 cores n.
Proof.
  induction l as [|i l IH]; intros jobs q I E; [done|].
  change (foldl (update_one cid) (jobs, q) (i :: l))
    with (foldl (update_one cid) (update_one cid (jobs, q) i) l).
  assert (E' : InvC ws (update_one cid (jobs, q) i).2 a
                 (update_one cid (jobs, q) i).1 cores n
               ∧ InvE ws (update_one cid (jobs, q) i).2 a c
                   (update_one cid (jobs, q) i).1 cores n).
  { unfold update_one.
    destruct (jobs !! i) as [j|] eqn:Hi; [|done].
    destruct (bool_decide (status j = WAITING_DEPS)) eqn:Hst; [|done].
    destruct (bool_decide (cid ∈ dependencies j)
              && dependencies_satisfied j jobs); [|done].
    simpl. apply bool_decide_eq_true in Hst.
    split; [by eapply InvC_promote|by eapply InvE_promote]. }
  destruct (update_one cid (jobs, q) i) as [jobs' q'].
  destruct E' as [I' E']. by apply IH.
Qed.

(** The program point of worker [w] changes; it keeps its job. *)
Lemma InvE_workers w pc pc' ws q a c jobs cores n :
  InvE ws q a c jobs cores n →
  ws !! w = Some pc → holds pc' = holds pc →
  (Z.of_nat n ≤ int_max → ∀ i, cores !! i = Some false →
      owned_core jobs pc = Some (Z.of_nat i) →
      owned_core jobs pc' = Some (Z.of_nat i)) →
  (∀ x j, begun pc' = Some x → jobs !! x = Some j → status j ≠ PENDING) →
  InvE (<[w:=pc']> ws) q a c jobs cores n.
Proof.
  intros E Hw Hh Hc Hr. inve_destruct E.
  assert (Hlt : (w < length ws)%nat) by by eapply lookup_lt_Some.
  assert (Hheld : ∀ x, (∃ w0 pc0, <[w:=pc']> ws !! w0 = Some pc0
                                  ∧ holds pc0 = Some x)
                       ↔ ∃ w0 pc0, ws !! w0 = Some pc0 ∧ holds pc0 = Some x).
  { intros x. split.
    - intros (w0 & pc0 & [[-> ->]|[Hne Hw0]]%lookup_insert_worker & Hx).
      + exists w, pc. split; [done|congruence].
      + eauto.
    - intros (w0 & pc0 & Hw0 & Hx). destruct (decide (w0 = w)) as [->|Hne].
      + exists w, pc'. split; [by apply list_lookup_insert_eq|].
        assert (pc0 = pc) as -> by congruence. congruence.
      + exists w0, pc0. by rewrite list_lookup_insert_ne. }
  constructor; try done.
  - intros x. rewrite Hheld. apply Eah.
  - intros x w0 pc0 Hx Hw0 Hx'.
    assert (Hex : ∃ w1 pc1, ws !! w1 = Some pc1 ∧ holds pc1 = Some x)
      by (apply Hheld; eauto).
    destruct Hex as (w1 & pc1 & Hw1 & Hx1). by eapply (Ech x w1 pc1).
  - intros w0 pc0 x j [[-> ->]|[Hne Hw0]]%lookup_insert_worker Hx Hj.
    + by eapply Hr.
    + by eapply Eb.
  - intros Hn i Hi. destruct (El Hn i Hi) as (w0 & pc0 & Hw0 & Ho).
    destruct (decide (w0 = w)) as [->|Hne].
    + assert (pc0 = pc) as -> by congruence.
      exists w, pc'. split; [by apply list_lookup_insert_eq|]. by apply Hc.
    + exists w0, pc0. by rewrite list_lookup_insert_ne.
Qed.

(** A change of the core table in which every unavailable slot is either
    unavailable before or owned. *)
Lemma InvE_cores cores' ws q a c jobs cores n :
  InvE ws q a c jobs cores n →
  (Z.of_nat n ≤ int_max → ∀ i, cores' !! i = Some false →
     cores !! i = Some false
     ∨ (∃ w pc, ws !! w = Some pc ∧ owned_core jobs pc = Some (Z.of_nat i))) →
  InvE ws q a c jobs cores' n.
Proof.
  intros E H. inve_destruct E. constructor; try done.
  intros Hn i Hi. destruct (H Hn i Hi) as [?|?]; [by apply El|done].
Qed.

(** A worker takes the job at position [k] of the queue. *)
Lemma InvE_take w pc k p ws q a c jobs cores n :
  InvC ws q a jobs cores n →
  InvE ws q a c jobs cores n →
  ws !! w = Some pc → holds pc = None → q !! k = Some p →
  InvE (<[w:=W_Popped p]> ws) (delete k q) (a ++ [p]) c jobs cores n.
Proof.
  intros I E Hw Hh Hk. inve_destruct E.
  assert (Hlt : (w < length ws)%nat) by by eapply lookup_lt_Some.
  assert (Hpq : p ∈ q) by (apply list_elem_of_lookup; eauto).
  assert (Hpa : p ∉ a).
  { intros (w0 & pc0 & Hw0 & Hp)%Eah.
    by eapply (inv_q_held _ _ _ _ _ _ I p w0 pc0). }
  constructor.
  - apply NoDup_app. split; [done|]. split; [|apply NoDup_singleton].
    intros x Hx ->%list_elem_of_singleton. done.
  - intros x. rewrite elem_of_app, list_elem_of_singleton, Eah. split.
    + intros [(w0 & pc0 & Hw0 & Hx)| ->].
      * exists w0, pc0. split; [|done]. rewrite list_lookup_insert_ne; [done|].
        intros ->. congruence.
      * exists w, (W_Popped p). split; [by apply list_lookup_insert_eq|done].
    + intros (w0 & pc0 & [[-> ->]|[Hne Hw0]]%lookup_insert_worker & Hx).
      * right. simpl in Hx. congruence.
      * left. eauto.
  - done.
  - intros x Hx Hd. apply list_elem_of_delete_inv in Hd. by eapply Ecq.
  - intros x w0 pc0 Hx [[-> ->]|[Hne Hw0]]%lookup_insert_worker Hx'.
    + simpl in Hx'. injection Hx' as ->. by eapply Ecq.
    + by eapply Ech.
  - done.
  - intros w0 pc0 x j [[-> ->]|[Hne Hw0]]%lookup_insert_worker Hx Hj; [done|].
    by eapply Eb.
  - intros Hn i Hi. destruct (El Hn i Hi) as (w0 & pc0 & Hw0 & Ho).
    exists w0, pc0. split; [|done].
    rewrite list_lookup_insert_ne; [done|]. intros ->.
    assert (pc0 = pc) as -> by congruence.
    by rewrite (owned_core_None pc jobs Hh) in Ho.
Qed.

Lemma erase_first_NoDup p l r :
  NoDup l → erase_first p l = Some r →
  NoDup r ∧ (p ∉ r) ∧ ∀ x, x ∈ l ↔ x = p ∨ x ∈ r.
Proof.
  revert r. induction l as [|y l IH]; simpl; intros r Hnd; [done|].
  apply NoDup_cons in Hnd as [Hy Hnd].
  destruct (decide (y = p)) as [->|Hne].
  - intros [= ->]. split; [done|]. split; [done|].
    intros x. by rewrite elem_of_cons.
  - destruct (erase_first p l) as [r'|]; simpl; [|done].
    intros [= <-]. destruct (IH r' Hnd eq_refl) as (Hnd' & Hp & Hiff).
    split; [|split].
    + apply NoDup_cons. split; [|done]. intros Hy'. apply Hy, Hiff. by right.
    + intros [?|?]%elem_of_cons; [congruence|done].
    + intros x. rewrite !elem_of_cons, Hiff. tauto.
Qed.

Lemma erase_first_is_Some p l : p ∈ l → is_Some (erase_first p l).
Proof.
  induction l as [|y l IH]; simpl; [by intros ?%elem_of_nil|].
  intros [->|Hp]%elem_of_cons.
  - rewrite decide_True by done. eauto.
  - destruct (decide (y = p)); [eauto|].
    destruct (IH Hp) as [r ->]. simpl. eauto.
Qed.

(** The end of the loop body of worker_function: the job leaves the active
    list; it enters the completed list when its status is COMPLETED, FAILED
    or KILLED. *)
Lemma InvE_finish w p j rest c' ws q a c jobs cores n :
  InvC ws q a jobs cores n →
  InvE ws q a c jobs cores n →
  ws !! w = Some (W_Finish p) → erase_first p a = Some rest →
  jobs !! p = Some j →
  (c' = c ++ [p] ∧ is_terminal (status j) = true) ∨ c' = c →
  InvE (<[w:=W_Idle]> ws) q rest c' jobs cores n.
Proof.
  intros I E Hw He Hj Hc'.
  assert (Hlt : (w < length ws)%nat) by by eapply lookup_lt_Some.
  pose proof (inv_inj _ _ _ _ _ _ I) as Iinj.
  assert (Hpq : p ∉ q).
  { intros Hq. by eapply (inv_q_held _ _ _ _ _ _ I p w _ Hq Hw). }
  inve_destruct E.
  destruct (erase_first_NoDup p a rest Ean He) as (Hnd & Hpr & Hiff).
  assert (Hpc : p ∉ c) by (intros Hc; by eapply (Ech p w)).
  assert (Hin : ∀ x, x ∈ c' → x ∈ c ∨ (x = p ∧ is_terminal (status j) = true)).
  { intros x Hx. destruct Hc' as [[-> Ht]| ->]; [|by left].
    apply elem_of_app in Hx as [?| ->%list_elem_of_singleton]; auto. }
  constructor.
  - done.
  - intros x. split.
    + intros Hx. assert (Hxa : x ∈ a) by (apply Hiff; auto).
      apply Eah in Hxa as (w0 & pc0 & Hw0 & Hx0).
      exists w0, pc0. split; [|done].
      rewrite list_lookup_insert_ne; [done|]. intros ->.
      assert (pc0 = W_Finish p) as -> by congruence.
      simpl in Hx0. congruence.
    + intros (w0 & pc0 & [[-> ->]|[Hne Hw0]]%lookup_insert_worker & Hx);
        [by simpl in Hx|].
      assert (Hxa : x ∈ a) by (apply Eah; eauto).
      apply Hiff in Hxa as [->|?]; [|done].
      destruct Hne. by eapply (Iinj w0 w pc0 (W_Finish p) p).
  - destruct Hc' as [[-> _]| ->]; [|done].
    apply NoDup_app. split; [done|]. split; [|apply NoDup_singleton].
    intros x Hx ->%list_elem_of_singleton. done.
  - intros x [Hx|[-> _]]%Hin; [by apply Ecq|done].
  - intros x w0 pc0 Hx [[-> ->]|[Hne Hw0]]%lookup_insert_worker Hx'; [done|].
    apply Hin in Hx as [Hx|[-> _]].
    + by eapply Ech.
    + destruct Hne. by eapply (Iinj w0 w pc0 (W_Finish p) p).
  - intros x [Hx|[-> Ht]]%Hin; [by apply Ect|]. eauto.
  - intros w0 pc0 x j0 [[-> ->]|[Hne Hw0]]%lookup_insert_worker Hx Hj0; [done|].
    by eapply Eb.
  - intros Hn i Hi. destruct (El Hn i Hi) as (w0 & pc0 & Hw0 & Ho).
    exists w0, pc0. split; [|done].
    rewrite list_lookup_insert_ne; [done|]. intros ->.
    assert (pc0 = W_Finish p) as -> by congruence. done.
Qed.

Lemma InvE_start k ws q a c jobs cores n :
  InvE ws q a c jobs cores n → InvE (ws ++ replicate k W_Idle) q a c jobs cores n.
Proof.
  intros E.
  assert (Hlk : ∀ w pc, (ws ++ replicate k W_Idle) !! w = Some pc →
            ws !! w = Some pc ∨ pc = W_Idle).
  { intros w pc [?|[_ [? _]%lookup_replicate]]%lookup_app_Some; auto. }
  inve_destruct E. constructor; try done.
  - intros x. rewrite Eah. split.
    + intros (w & pc & Hw & Hx). exists w, pc.
      split; [by apply lookup_app_l_Some|done].
    + intros (w & pc & [Hw| ->]%Hlk & Hx); [eauto|done].
  - intros x w pc Hx [Hw| ->]%Hlk; [by eapply Ech|done].
  - intros w pc x j [Hw| ->]%Hlk Hx Hj; [by eapply Eb|done].
  - intros Hn i Hi. destruct (El Hn i Hi) as (w & pc & Hw & Ho).
    exists w, pc. split; [by apply lookup_app_l_Some|done].
Qed.

Lemma InvE_stop_join ws q a c jobs cores n :
  InvE ws q a c jobs cores n → forallb worker_exited ws = true →
  InvE [] q [] c jobs cores n.
Proof.
  intros E Hex. inve_destruct E. constructor; try done.
  - apply NoDup_nil_2.
  - intros x. split; [by intros ?%elem_of_nil|]. by intros (w & pc & Hw & _).
  - intros Hn i Hi. destruct (El Hn i Hi) as (w & pc & Hw & Ho).
    exfalso. rewrite forallb_forall in Hex.
    assert (Hin : In pc ws).
    { apply list_elem_of_In, list_elem_of_lookup. eauto. }
    specialize (Hex pc Hin). by destruct pc.
Qed.

Lemma InvE_new n : InvE [] [] [] [] [] (replicate n true) n.
Proof.
  constructor; try done; try apply NoDup_nil_2.
  - intros x. split; [by intros ?%elem_of_nil|]. by intros (w & pc & Hw & _).
  - by intros x ?%elem_of_nil.
  - by intros x ?%elem_of_nil.
  - intros _ i [? _]%lookup_replicate. done.
Qed.

Lemma InvX_update_job f p s :
  InvX s →
  (∀ j, all_jobs_ s !! p = Some j →
        (assigned_core_id (f j) = assigned_core_id j
         ∨ (∀ w pc, worker_threads_ s !! w = Some pc → has_core pc ≠ Some p))
        ∧ (is_terminal (status j) = true →
           is_terminal (status (f j)) = true ∨ (p ∉ completed_jobs_ s))
        ∧ (status (f j) = PENDING →
           status j = PENDING
           ∨ ∀ w pc, worker_threads_ s !! w = Some pc → begun pc ≠ Some p)) →
  InvX (update_job f p s).
Proof. intros E H. unfold InvX, update_job. simpl. by apply InvE_alter. Qed.

Lemma InvX_update_job_same f p s :
  InvX s →
  (∀ j, assigned_core_id (f j) = assigned_core_id j
        ∧ (is_terminal (status j) = true → is_terminal (status (f j)) = true)
        ∧ (status (f j) = PENDING → status j = PENDING)) →
  InvX (update_job f p s).
Proof. intros E H. unfold InvX, update_job. simpl. by apply InvE_alter_same. Qed.

Lemma InvX_submit_job cmd p now s :
  Inv s → InvX s → InvX (submit_job cmd p now s).2.
Proof.
  intros I E. unfold InvX, submit_job, fresh_job_id. simpl.
  eapply InvE_append; [exact I|exact E|].
  intros x [?| ->%list_elem_of_singleton]%elem_of_app; auto.
Qed.

Lemma InvX_submit_job_with_deps cmd deps p now s :
  Inv s → InvX s → InvX (submit_job_with_deps cmd deps p now s).2.
Proof.
  intros I E. unfold InvX, submit_job_with_deps, fresh_job_id. simpl.
  destruct (dependencies_satisfied _ _); simpl.
  - eapply InvE_append; [exact I|exact E|].
    intros x [?| ->%list_elem_of_singleton]%elem_of_app; auto.
  - eapply InvE_append; [exact I|exact E|]. auto.
Qed.

Lemma InvX_submit_array_task_begin t aid i p now s :
  Inv s → InvX s → InvX (submit_array_task_begin t aid i p now s).
Proof.
  intros I E. unfold submit_array_task_begin.
  pose proof (InvX_submit_job (replace_array_id t i) p now s I E) as E'.
  destruct (submit_job _ _ _ _) as [ptr s']. exact E'.
Qed.

Lemma InvX_submit_job_script_begin path file now s :
  Inv s → InvX s → InvX (submit_job_script_begin path file now s).
Proof.
  intros I E. unfold submit_job_script_begin, parse_job_script_submit.
  destruct file as [content|]; [|done].
  destruct (parse_lines _ _) as [e|v]; [done|].
  destruct (decide (v_command v = "")); [done|].
  assert (E' : InvX (match v_dependencies v with
                     | [] => submit_job (v_command v) (v_priority v) now s
                     | _ => submit_job_with_deps (v_command v) (v_dependencies v)
                              (v_priority v) now s
                     end).2).
  { destruct (v_dependencies v);
      [by apply InvX_submit_job|by apply InvX_submit_job_with_deps]. }
  destruct (match v_dependencies v with [] => _ | _ => _ end) as [ptr s'].
  exact E'.
Qed.

Lemma InvX_caller_step k s : InvX s → InvX (caller_step k s).
Proof.
  intros E. unfold caller_step.
  destruct (callers_ s !! k) as [c|]; [|done].
  change (InvX (update_job (caller_write c) (caller_job c) s)).
  apply InvX_update_job_same; [done|]. intros j.
  destruct (caller_write_fields c j) as (-> & ? & _). auto.
Qed.

Lemma InvX_kill_job id s : InvX s → InvX (kill_job id s).2.
Proof.
  intros E. unfold kill_job.
  destruct (find_ptr _ _ _) as [p|]; [|done]. simpl.
  change (InvX (with_stats (incr_killed (stats_ s))
                  (update_job (set_status KILLED) p s))).
  assert (E' : InvX (update_job (set_status KILLED) p s))
    by by apply InvX_update_job_same.
  exact E'.
Qed.

Lemma InvX_change_job_priority id pr s :
  InvX s → InvX (change_job_priority id pr s).2.
Proof.
  intros E. unfold change_job_priority.
  destruct (find_job_ptr _ _) as [p|]; [|done].
  destruct (decide _); [|done]. simpl.
  by apply (InvX_update_job_same _ p s).
Qed.

(** A worker whose program point keeps the job, the core and the outcome. *)
Lemma InvE_idle w pc pc' ws q a c jobs cores n :
  InvE ws q a c jobs cores n →
  ws !! w = Some pc → holds pc = None → holds pc' = None →
  InvE (<[w:=pc']> ws) q a c jobs cores n.
Proof.
  intros E Hw Hh Hh'. eapply InvE_workers; [done|done|congruence| |].
  - intros _ i _ Ho. by rewrite (owned_core_None pc jobs Hh) in Ho.
  - intros x j Hx. apply begun_holds in Hx. congruence.
Qed.

Lemma InvX_worker_take w pc i s :
  Inv s → InvX s → worker_threads_ s !! w = Some pc → holds pc = None →
  InvX (with_workers (<[w:=(worker_take i s).1]> (worker_threads_ (worker_take i s).2))
          (worker_take i s).2).
Proof.
  intros I E Hw Hh. unfold worker_take.
  destruct (running_ s); simpl.
  - destruct (job_queue_ s !! in_top i) as [p|] eqn:Hq; simpl.
    + destruct (_ <? _); simpl.
      * unfold InvX. simpl. by eapply InvE_take.
      * unfold InvX. simpl. by eapply InvE_idle.
    + unfold InvX. simpl. by eapply InvE_idle.
  - unfold InvX. simpl. by eapply InvE_idle.
Qed.

(** No other worker holds the job of worker [w]. *)
Lemma held_once s w pc p :
  Inv s → worker_threads_ s !! w = Some pc → holds pc = Some p →
  ∀ w0 pc0, worker_threads_ s !! w0 = Some pc0 → holds pc0 = Some p →
            pc0 = pc.
Proof.
  intros I Hw Hp w0 pc0 Hw0 Hp0.
  assert (w0 = w) as ->
    by by eapply (inv_inj _ _ _ _ _ _ I w0 w pc0 pc p).
  congruence.
Qed.

Lemma InvX_worker_begin w p now s :
  Inv s → InvX s → worker_threads_ s !! w = Some (W_Popped p) →
  InvX (with_workers (<[w:=W_Started p]> (worker_threads_ s))
          (update_job (set_started w now) p s)).
Proof.
  intros I E Hw. unfold InvX. simpl.
  eapply InvE_workers; [|exact Hw|done|done|].
  - apply InvE_alter; [exact E|]. intros j Hj. split; [by left|].
    split; [|done]. intros _. right.
    intros Hc. by eapply (e_c_held _ _ _ _ _ _ _ E p w).
  - intros x j [= <-] Hj.
    apply lookup_alter_Some in Hj as [(_ & j0 & _ & ->)|[? _]]; done.
Qed.

Lemma InvX_worker_assign w p i s :
  Inv s → InvX s → worker_threads_ s !! w = Some (W_Started p) →
  InvX (with_workers
          (<[w:=(execute_job_assign p i s).1]>
             (worker_threads_ (execute_job_assign p i s).2))
          (execute_job_assign p i s).2).
Proof.
  intros I E Hw.
  assert (Hlt : (w < length (worker_threads_ s))%nat) by by eapply lookup_lt_Some.
  assert (Hadv : ∀ c, InvE (<[w:=W_Assigned p c]> (worker_threads_ s))
                        (job_queue_ s) (active_jobs_ s) (completed_jobs_ s)
                        (all_jobs_ s) (core_availability_ s) (num_cores_ s)).
  { intros c. eapply InvE_workers; [exact E|exact Hw|done|done|].
    intros x j [= <-] Hj. by eapply (e_begun _ _ _ _ _ _ _ E w (W_Started p)). }
  unfold execute_job_assign, assign_core.
  destruct (first_free _) as [k|] eqn:Hk; unfold InvX; simpl; [|apply Hadv].
  apply (InvE_cores _ _ _ _ _ _ (core_availability_ s)); [apply Hadv|].
  intros Hn i0 Hi0.
  apply list_lookup_insert_Some in Hi0 as [(Hki & _ & Hlt')|[Hne Hi0]];
    [|by left].
  subst i0. right. exists w, (W_Assigned p (to_int (Z.of_nat k))).
  split; [by apply list_lookup_insert_eq|]. simpl. f_equal.
  apply to_int_small. rewrite (inv_len _ _ _ _ _ _ I) in Hlt'.
  unfold int_min, int_max in *. lia.
Qed.

Lemma InvX_worker_launch w p c i s :
  Inv s → InvX s → worker_threads_ s !! w = Some (W_Assigned p c) →
  InvX (with_workers
          (<[w:=(execute_job_launch p c i s).1]>
             (worker_threads_ (execute_job_launch p c i s).2))
          (execute_job_launch p c i s).2).
Proof.
  intros I E Hw.
  assert (Hlt : (w < length (worker_threads_ s))%nat) by by eapply lookup_lt_Some.
  destruct (inv_held _ _ _ _ _ _ I w _ p Hw eq_refl) as (j & Hj & _).
  assert (Hnc : ∀ w0 pc0, worker_threads_ s !! w0 = Some pc0 →
                          has_core pc0 ≠ Some p).
  { intros w0 pc0 Hw0 Hc.
    rewrite (held_once s w _ p I Hw eq_refl w0 pc0 Hw0 (has_core_holds _ _ Hc))
      in Hc. done. }
  pose proof (e_begun _ _ _ _ _ _ _ E w _ p j Hw eq_refl Hj) as Hnp.
  set (jobs3 := alter simulate_memory_usage p
                  (alter (simulate_cpu_usage (in_rand1 i) (in_rand2 i)) p
                     (alter (set_assigned_core_id c) p (all_jobs_ s)))).
  assert (E3' : InvE (worker_threads_ s) (job_queue_ s) (active_jobs_ s)
                  (completed_jobs_ s) jobs3
                  (core_availability_ s) (num_cores_ s)).
  { apply InvE_alter_same; [apply InvE_alter_same; [apply InvE_alter|]|];
      [exact E| |done|done].
    intros x _. split; [by right|]. split; [by left|by left]. }
  assert (Hfin : ∀ g pc',
            (∀ x, assigned_core_id (g x) = assigned_core_id x
                  ∧ (is_terminal (status x) = true
                     → is_terminal (status (g x)) = true)
                  ∧ (status (g x) = PENDING → status x = PENDING)) →
            holds pc' = Some p → has_core pc' = Some p →
            InvE (<[w:=pc']> (worker_threads_ s)) (job_queue_ s) (active_jobs_ s)
              (completed_jobs_ s) (alter g p jobs3)
              (core_availability_ s) (num_cores_ s)).
  { intros g pc' Hg Hh Hc.
    assert (Hp' : alter g p jobs3 !! p
                  = Some (g (simulate_memory_usage
                               (simulate_cpu_usage (in_rand1 i) (in_rand2 i)
                                  (set_assigned_core_id c j))))).
    { subst jobs3. by rewrite !list_lookup_alter_eq, Hj. }
    eapply InvE_workers; [|exact Hw|done| |].
    - by apply InvE_alter_same.
    - intros _ k _ Ho. simpl in Ho. injection Ho as ->.
      destruct pc'; simpl in Hc; try done; injection Hc as ->; simpl;
        rewrite Hp'; simpl; by rewrite (proj1 (Hg _)).
    - intros x j0 Hx Hj0. apply begun_holds in Hx.
      assert (x = p) as -> by congruence.
      rewrite Hp' in Hj0. injection Hj0 as <-.
      intros Hpe. by apply (proj2 (proj2 (Hg _))) in Hpe. }
  unfold execute_job_launch.
  destruct (in_fork i) as [pid|]; unfold InvX; simpl.
  - by apply (Hfin (set_process_id (Z.pos pid)) (W_Waitpid p)).
  - by apply (Hfin (set_outcome FAILED (-1)) (W_Release p)).
Qed.

Lemma InvX_worker_reap w p i s :
  Inv s → InvX s → worker_threads_ s !! w = Some (W_Waitpid p) →
  InvX (with_workers
          (<[w:=(execute_job_reap p i s).1]>
             (worker_threads_ (execute_job_reap p i s).2))
          (execute_job_reap p i s).2).
Proof.
  intros I E Hw.
  destruct (inv_held _ _ _ _ _ _ I w _ p Hw eq_refl) as (j & Hj & _).
  unfold execute_job_reap.
  set (f := match in_wait i with
            | Exited code =>
                set_outcome (if decide (code = 0) then COMPLETED else FAILED) code
            | NotExited => set_outcome FAILED (-1)
            end).
  assert (Hf : ∀ x, assigned_core_id (f x) = assigned_core_id x
                    ∧ is_terminal (status (f x)) = true).
  { intros x. subst f. destruct (in_wait i) as [code|]; simpl; [|done].
    destruct (decide (code = 0)); done. }
  assert (Eq : (let s0 := update_job (set_ended (in_now i)) p s in
               match in_wait i with
               | Exited code =>
                   update_job
                     (set_outcome (if decide (code = 0) then COMPLETED else FAILED)
                        code) p s0
               | NotExited => update_job (set_outcome FAILED (-1)) p s0
               end) = update_job f p (update_job (set_ended (in_now i)) p s)).
  { subst f. simpl. destruct (in_wait i); done. }
  simpl in Eq. simpl. rewrite Eq. unfold InvX. simpl.
  assert (Hlk : alter f p (alter (set_ended (in_now i)) p (all_jobs_ s)) !! p
                = Some (f (set_ended (in_now i) j))).
  { by rewrite !list_lookup_alter_eq, Hj. }
  eapply InvE_workers; [|exact Hw|done|done|].
  - apply InvE_alter_same; [apply InvE_alter_same; [exact E|done]|].
    intros x. destruct (Hf x) as [? Ht]. split; [done|]. split; [done|].
    intros Hp. rewrite Hp in Ht. done.
  - intros x j0 [= <-] Hj0. rewrite Hlk in Hj0. injection Hj0 as <-.
    destruct (Hf (set_ended (in_now i) j)) as [_ Ht].
    intros Hp. rewrite Hp in Ht. done.
Qed.

Lemma InvX_worker_release w p s :
  Inv s → InvX s → worker_threads_ s !! w = Some (W_Release p) →
  InvX (with_workers
          (<[w:=(execute_job_release p s).1]>
             (worker_threads_ (execute_job_release p s).2))
          (execute_job_release p s).2).
Proof.
  intros I E Hw. unfold execute_job_release.
  destruct (inv_held _ _ _ _ _ _ I w _ p Hw eq_refl) as (j & Hj & _).
  rewrite Hj. simpl.
  assert (Hlen : length (core_availability_ s) = num_cores_ s)
    by apply (inv_len _ _ _ _ _ _ I).
  assert (Hfree : Z.of_nat (num_cores_ s) ≤ int_max → ∀ k,
            assigned_core_id j = Z.of_nat k →
            core_availability_ (release_core (assigned_core_id j) s) !! k
            ≠ Some false).
  { intros Hn k Hk. unfold release_core, core_in_range.
    rewrite Hlen, to_int_small by (unfold int_min, int_max in *; lia).
    rewrite Hk.
    destruct (decide (k < num_cores_ s)%nat) as [Hlt|Hge].
    - replace (0 <=? Z.of_nat k) with true by (symmetry; apply Z.leb_le; lia).
      replace (Z.of_nat k <? Z.of_nat (num_cores_ s)) with true
        by (symmetry; apply Z.ltb_lt; lia).
      simpl. rewrite Nat2Z.id, list_lookup_insert_eq by lia. done.
    - replace (Z.of_nat k <? Z.of_nat (num_cores_ s)) with false
        by (symmetry; apply Z.ltb_ge; lia).
      rewrite andb_false_r. rewrite lookup_ge_None_2 by lia. done. }
  assert (Hsame : worker_threads_ (release_core (assigned_core_id j) s)
                  = worker_threads_ s
                  ∧ job_queue_ (release_core (assigned_core_id j) s) = job_queue_ s
                  ∧ active_jobs_ (release_core (assigned_core_id j) s)
                    = active_jobs_ s
                  ∧ completed_jobs_ (release_core (assigned_core_id j) s)
                    = completed_jobs_ s
                  ∧ all_jobs_ (release_core (assigned_core_id j) s) = all_jobs_ s
                  ∧ num_cores_ (release_core (assigned_core_id j) s)
                    = num_cores_ s).
  { unfold release_core. by destruct (core_in_range _ _). }
  destruct Hsame as (E1 & E2 & E3 & E4 & E5 & E6).
  unfold InvX. simpl. rewrite E1, E2, E3, E4, E5, E6.
  eapply InvE_workers; [|exact Hw|done| |].
  - apply (InvE_cores _ _ _ _ _ _ (core_availability_ s)); [exact E|].
    intros _ k Hk. left. unfold release_core in Hk.
    destruct (core_in_range _ _); [|done]. simpl in Hk.
    apply list_lookup_insert_Some in Hk as [(_ & ? & _)|[_ ?]]; done.
  - intros Hn k Hfalse Ho. simpl in Ho. rewrite Hj in Ho.
    injection Ho as Hk. by destruct (Hfree Hn k Hk).
  - intros x j0 [= <-] Hj0.
    by eapply (e_begun _ _ _ _ _ _ _ E w (W_Release p) p).
Qed.

Lemma InvX_fields ws s s' :
  InvX (with_workers ws s) →
  job_queue_ s' = job_queue_ s → active_jobs_ s' = active_jobs_ s →
  completed_jobs_ s' = completed_jobs_ s →
  all_jobs_ s' = all_jobs_ s → core_availability_ s' = core_availability_ s →
  num_cores_ s' = num_cores_ s →
  InvX (with_workers ws s').
Proof. unfold InvX. simpl. by intros E -> -> -> -> -> ->. Qed.

Lemma InvX_update_job_dependencies p s :
  Inv s → InvX s → InvX (update_job_dependencies p s).
Proof.
  intros I E. unfold update_job_dependencies.
  destruct (all_jobs_ s !! p) as [c|]; [|done].
  pose proof (InvE_update_loop _ _ _ _ _ (job_id c) (seq 0 (length (all_jobs_ s)))
                _ _ I E) as E'.
  destruct (foldl _ _ _) as [jobs q]. exact E'.
Qed.

Lemma InvX_worker_finish w p s :
  Inv s → InvX s → worker_threads_ s !! w = Some (W_Finish p) →
  InvX (with_workers
          (<[w:=(worker_finish p s).1]> (worker_threads_ (worker_finish p s).2))
          (worker_finish p s).2).
Proof.
  intros I E Hw.
  destruct (inv_held _ _ _ _ _ _ I w _ p Hw eq_refl) as (j & Hj & _).
  assert (Hpa : p ∈ active_jobs_ s).
  { apply (e_a_held _ _ _ _ _ _ _ E). by exists w, (W_Finish p). }
  destruct (erase_first_is_Some p _ Hpa) as [rest He].
  pose proof (Inv_worker_finish w p s I Hw) as I'. revert I'.
  unfold worker_finish. rewrite He, Hj.
  destruct (is_terminal (status j)) eqn:Ht; simpl.
  2: { intros _. unfold InvX. simpl. eapply InvE_finish; eauto. }
  set (s2 := if decide (status j = COMPLETED) then _ else _).
  destruct (update_job_dependencies_fields p s2) as (E1 & _).
  rewrite E1.
  assert (E7 : worker_threads_ s2 = worker_threads_ s).
  { subst s2. destruct (decide _); [done|]. destruct (decide _); done. }
  rewrite E7. intros _.
  assert (I2 : Inv (with_workers (<[w:=W_Idle]> (worker_threads_ s)) s2)).
  { apply (Inv_fields _ (with_active rest s)).
    - unfold Inv. simpl. eapply InvC_drop; [exact I|exact Hw|done|].
      by eapply erase_first_sub.
    - subst s2. destruct (decide _); [done|]. by destruct (decide _).
    - subst s2. destruct (decide _); [done|]. by destruct (decide _).
    - subst s2. destruct (decide _); [done|]. by destruct (decide _).
    - subst s2. destruct (decide _); [done|]. by destruct (decide _).
    - subst s2. destruct (decide _); [done|]. by destruct (decide _). }
  assert (E2 : InvX (with_workers (<[w:=W_Idle]> (worker_threads_ s)) s2)).
  { apply (InvX_fields _ (with_completed (completed_jobs_ s ++ [p])
                            (with_active rest s))).
    - unfold InvX. simpl. eapply InvE_finish; eauto.
    - subst s2. destruct (decide _); [done|]. by destruct (decide _).
    - subst s2. destruct (decide _); [done|]. by destruct (decide _).
    - subst s2. destruct (decide _); [done|]. by destruct (decide _).
    - subst s2. destruct (decide _); [done|]. by destruct (decide _).
    - subst s2. destruct (decide _); [done|]. by destruct (decide _).
    - subst s2. destruct (decide _); [done|]. by destruct (decide _). }
  apply (InvX_update_job_dependencies p _ I2) in E2.
  unfold InvX in *. simpl in *.
  unfold update_job_dependencies in *. simpl in *.
  destruct (all_jobs_ s2 !! p); [|exact E2].
  destruct (foldl _ _ _). exact E2.
Qed.

Lemma InvX_worker_step w i s : Inv s → InvX s → InvX (worker_step w i s).
Proof.
  intros I E. unfold worker_step.
  destruct (worker_threads_ s !! w) as [pc|] eqn:Hw; [|done].
  destruct pc as [|p|p|p c|p|p|p|].
  - pose proof (InvX_worker_take w _ i s I E Hw eq_refl) as E'.
    destruct (worker_take i s). exact E'.
  - exact (InvX_worker_begin w p (in_now i) s I E Hw).
  - pose proof (InvX_worker_assign w p i s I E Hw) as E'.
    destruct (execute_job_assign p i s). exact E'.
  - pose proof (InvX_worker_launch w p c i s I E Hw) as E'.
    destruct (execute_job_launch p c i s). exact E'.
  - pose proof (InvX_worker_reap w p i s I E Hw) as E'.
    destruct (execute_job_reap p i s). exact E'.
  - pose proof (InvX_worker_release w p s I E Hw) as E'.
    destruct (execute_job_release p s). exact E'.
  - pose proof (InvX_worker_finish w p s I E Hw) as E'.
    destruct (worker_finish p s). exact E'.
  - unfold InvX. simpl. by eapply InvE_idle.
Qed.

Lemma InvX_unlocked_step u s : Inv s → InvX s → InvX (unlocked_step u s).
Proof.
  intros I E. destruct u as [w i|k]; simpl; [|by apply InvX_caller_step].
  destruct (worker_threads_ s !! w) as [pc|]; [|done].
  destruct (lock_free pc); [by apply InvX_worker_step|done].
Qed.

Lemma InvX_run_unlocked us s : Inv s → InvX s → InvX (run_unlocked us s).
Proof.
  revert s. induction us as [|u us IH]; intros s I E; [done|].
  apply IH; [by apply Inv_unlocked_step|by apply InvX_unlocked_step].
Qed.

(** The store of suspend_job and resume_job: the job was found in
    active_jobs_ before the steps of the others. *)
Lemma InvX_store_status st p during s :
  Inv s → InvX s → p ∈ active_jobs_ s → st ≠ PENDING →
  InvX (update_job (set_status st) p (run_unlocked during s)).
Proof.
  intros I E Hp Hst.
  destruct (unlocked_frame_fields _ _ (run_unlocked_frame during s))
    as (_ & Ea & _).
  pose proof (InvX_run_unlocked during s I E) as E'.
  apply InvX_update_job; [done|]. intros j _. simpl.
  split; [by left|]. split; [|done]. intros _. right. intros Hc.
  rewrite <- Ea in Hp.
  apply (e_a_held _ _ _ _ _ _ _ E') in Hp as (w & pc & Hw & Hh).
  by eapply (e_c_held _ _ _ _ _ _ _ E' p w pc).
Qed.

Lemma InvX_suspend_job id during s :
  Inv s → InvX s → InvX (suspend_job_during id during s).2.
Proof.
  intros I E. unfold suspend_job_during.
  destruct (find_ptr _ _ _) as [p|] eqn:Hf; [|done].
  destruct (decide _) as [Hst|]; [|done]. simpl.
  apply find_ptr_Some in Hf as [Hp _]. by apply InvX_store_status.
Qed.

Lemma InvX_resume_job id during s :
  Inv s → InvX s → InvX (resume_job_during id during s).2.
Proof.
  intros I E. unfold resume_job_during.
  destruct (find_ptr _ _ _) as [p|] eqn:Hf; [|done].
  destruct (decide _) as [Hst|]; [|done]. simpl.
  apply find_ptr_Some in Hf as [Hp _]. by apply InvX_store_status.
Qed.

Lemma InvX_step e s : Inv s → InvX s → InvX (step e s).
Proof.
  intros I E. destruct e; simpl.
  - unfold InvX, start. simpl. by apply InvE_start.
  - exact E.
  - unfold stop_join. destruct (forallb _ _) eqn:Hex; [|done].
    unfold InvX. simpl. by eapply InvE_stop_join.
  - by apply InvX_submit_job.
  - by apply InvX_submit_job_with_deps.
  - by apply InvX_submit_array_task_begin.
  - by apply InvX_submit_job_script_begin.
  - by apply InvX_caller_step.
  - by apply InvX_kill_job.
  - by apply InvX_suspend_job.
  - by apply InvX_resume_job.
  - by apply InvX_change_job_priority.
  - exact E.
  - exact E.
  - exact E.
  - by apply InvX_worker_step.
Qed.

Lemma reachable_InvX s : reachable s → InvX s.
Proof.
  induction 1 as [n now|e s Hr IH].
  - unfold InvX. simpl. apply InvE_new.
  - apply InvX_step; [by apply reachable_Inv|done].
Qed.

Lemma update_job_dependencies_length p s :
  length (all_jobs_ (update_job_dependencies p s)) = length (all_jobs_ s).
Proof.
  pose proof (update_job_dependencies_fmap job_id p s (λ _, eq_refl)) as H.
  apply (f_equal length) in H. by rewrite !length_fmap in H.
Qed.

Ltac count_tac :=
  simpl; rewrite ?length_alter, ?length_app, ?length_alter; simpl;
  repeat split; lia.

Lemma worker_step_counters w i s :
  total_jobs_submitted (stats_ (worker_step w i s))
    - Z.of_nat (length (all_jobs_ (worker_step w i s)))
  = total_jobs_submitted (stats_ s) - Z.of_nat (length (all_jobs_ s))
  ∧ total_jobs_completed (stats_ s) ≤ total_jobs_completed (stats_ (worker_step w i s))
  ∧ total_jobs_failed (stats_ s) ≤ total_jobs_failed (stats_ (worker_step w i s))
  ∧ total_jobs_killed (stats_ s) ≤ total_jobs_killed (stats_ (worker_step w i s))
  ∧ total_jobs_completed (stats_ (worker_step w i s))
      + total_jobs_failed (stats_ (worker_step w i s))
      - Z.of_nat (length (completed_jobs_ (worker_step w i s)))
    ≤ total_jobs_completed (stats_ s) + total_jobs_failed (stats_ s)
      - Z.of_nat (length (completed_jobs_ s)).
Proof.
  unfold worker_step. destruct (worker_threads_ s !! w) as [pc|]; [|count_tac].
  destruct pc as [|p|p|p c|p|p|p|]; simpl; try count_tac.
  - unfold worker_take. destruct (running_ s); simpl; [|count_tac].
    destruct (job_queue_ s !! _); simpl; [|count_tac].
    destruct (_ <? _); count_tac.
  - unfold execute_job_assign, assign_core. destruct (first_free _); count_tac.
  - unfold execute_job_launch. destruct (in_fork i); count_tac.
  - unfold execute_job_reap. destruct (in_wait i); count_tac.
  - unfold execute_job_release. destruct (all_jobs_ s !! p); simpl; [|count_tac].
    unfold release_core. destruct (core_in_range _ _); count_tac.
  - unfold worker_finish.
    destruct (erase_first _ _); [|count_tac].
    destruct (all_jobs_ s !! p) as [j|]; [|count_tac].
    destruct (is_terminal _); simpl; [|count_tac].
    set (s2 := if decide (status j = COMPLETED) then _ else _).
    rewrite (update_job_dependencies_length p s2).
    destruct (update_job_dependencies_fields p s2) as (_ & _ & -> & _ & _ & ->).
    subst s2. destruct (decide _); [count_tac|].
    destruct (decide _); count_tac.
Qed.

Lemma run_unlocked_length us s :
  length (all_jobs_ (run_unlocked us s)) = length (all_jobs_ s).
Proof.
  destruct (run_unlocked_job_ids us s) as [H _].
  apply (f_equal length) in H. by rewrite !length_fmap in H.
Qed.

(** What a step does to the counters of SystemStats, compared with the
    lists they count. *)
Lemma step_counters e s :
  total_jobs_submitted (stats_ (step e s))
    - Z.of_nat (length (all_jobs_ (step e s)))
  = total_jobs_submitted (stats_ s) - Z.of_nat (length (all_jobs_ s))
  ∧ total_jobs_completed (stats_ s) ≤ total_jobs_completed (stats_ (step e s))
  ∧ total_jobs_failed (stats_ s) ≤ total_jobs_failed (stats_ (step e s))
  ∧ total_jobs_killed (stats_ s) ≤ total_jobs_killed (stats_ (step e s))
  ∧ total_jobs_completed (stats_ (step e s))
      + total_jobs_failed (stats_ (step e s))
      - Z.of_nat (length (completed_jobs_ (step e s)))
    ≤ total_jobs_completed (stats_ s) + total_jobs_failed (stats_ s)
      - Z.of_nat (length (completed_jobs_ s)).
Proof.
  destruct e; simpl; try (repeat split; lia).
  - unfold stop_join. destruct (forallb _ _); count_tac.
  - count_tac.
  - unfold submit_job_with_deps, fresh_job_id. simpl.
    destruct (dependencies_satisfied _ _); count_tac.
  - count_tac.
  - unfold submit_job_script_begin, parse_job_script_submit.
    destruct file; [|count_tac].
    destruct (parse_lines _ _); [count_tac|]. destruct (decide _); [count_tac|].
    destruct (v_dependencies _); [count_tac|].
    unfold submit_job_with_deps, fresh_job_id. simpl.
    destruct (dependencies_satisfied _ _); count_tac.
  - unfold caller_step. destruct (callers_ s !! k); count_tac.
  - unfold kill_job. destruct (find_ptr _ _ _); count_tac.
  - unfold suspend_job_during. destruct (find_ptr _ _ _); [|count_tac].
    destruct (decide _); [|count_tac]. simpl.
    rewrite length_alter, run_unlocked_length.
    destruct (unlocked_frame_fields _ _ (run_unlocked_frame during s))
      as (_ & _ & -> & _ & _ & -> & _).
    repeat split; lia.
  - unfold resume_job_during. destruct (find_ptr _ _ _); [|count_tac].
    destruct (decide _); [|count_tac]. simpl.
    rewrite length_alter, run_unlocked_length.
    destruct (unlocked_frame_fields _ _ (run_unlocked_frame during s))
      as (_ & _ & -> & _ & _ & -> & _).
    repeat split; lia.
  - unfold change_job_priority. destruct (find_job_ptr _ _); [|count_tac].
    destruct (decide _); count_tac.
  - apply worker_step_counters.
Qed.

Lemma NoDup_bounded_length (l : list nat) n :
  NoDup l → (∀ x, x ∈ l → (x < n)%nat) → (length l ≤ n)%nat.
Proof.
  intros Hnd Hb. transitivity (length (seq 0 n)); [|by rewrite length_seq].
  apply submseteq_length, NoDup_submseteq; [done|].
  intros x Hx. apply elem_of_seq. specialize (Hb x Hx). lia.
Qed.

(** X5.  The statistics counters agree with the lists they count: the
    number of submitted jobs is the number of records; the completed and
    failed counters together never exceed the number of entries of the
    completed list, which holds every job at most once and so never exceeds
    the number of submitted jobs. *)
Theorem counters_consistent s :
  reachable s →
  total_jobs_submitted (stats_ s) = Z.of_nat (length (all_jobs_ s))
  ∧ 0 ≤ total_jobs_completed (stats_ s)
  ∧ 0 ≤ total_jobs_failed (stats_ s)
  ∧ 0 ≤ total_jobs_killed (stats_ s)
  ∧ total_jobs_completed (stats_ s) + total_jobs_failed (stats_ s)
    ≤ Z.of_nat (length (completed_jobs_ s))
  ∧ Z.of_nat (length (completed_jobs_ s)) ≤ total_jobs_submitted (stats_ s).
Proof.
  intros Hr.
  assert (H : total_jobs_submitted (stats_ s) = Z.of_nat (length (all_jobs_ s))
              ∧ 0 ≤ total_jobs_completed (stats_ s)
              ∧ 0 ≤ total_jobs_failed (stats_ s)
              ∧ 0 ≤ total_jobs_killed (stats_ s)
              ∧ total_jobs_completed (stats_ s) + total_jobs_failed (stats_ s)
                ≤ Z.of_nat (length (completed_jobs_ s))).
  { induction Hr as [n now|e s Hr IH]; [simpl; lia|].
    pose proof (step_counters e s). lia. }
  destruct H as (H1 & H2 & H3 & H4 & H5).
  repeat (split; [done|]). rewrite H1.
  pose proof (reachable_InvX s Hr) as E. apply inj_le.
  apply NoDup_bounded_length; [apply (e_c_nodup _ _ _ _ _ _ _ E)|].
  intros x Hx. destruct (e_c_term _ _ _ _ _ _ _ E x Hx) as (j & Hj & _).
  by eapply lookup_lt_Some.
Qed.

Lemma length_omap_le {A B} (f : A → option B) (l : list A) :
  (length (omap f l) ≤ length l)%nat.
Proof.
  induction l as [|x l IH]; [done|].
  change (omap f (x :: l))
    with (match f x with Some y => y :: omap f l | None => omap f l end).
  destruct (f x); simpl; lia.
Qed.

(** X13.  A job is in active_jobs_ exactly while a worker thread holds it
    between taking it from the queue and the end of its loop body; it is
    there once.  So no more jobs are active than there are worker
    threads. *)
Theorem active_jobs_held_by_workers s :
  reachable s →
  NoDup (active_jobs_ s)
  ∧ (∀ p, p ∈ active_jobs_ s
          ↔ ∃ w pc, worker_threads_ s !! w = Some pc ∧ holds pc = Some p)
  ∧ (length (active_jobs_ s) ≤ length (worker_threads_ s))%nat.
Proof.
  intros Hr. pose proof (reachable_InvX s Hr) as E.
  pose proof (e_a_nodup _ _ _ _ _ _ _ E) as Hnd.
  pose proof (e_a_held _ _ _ _ _ _ _ E) as Hh.
  split; [done|]. split; [done|].
  etransitivity; [|apply (length_omap_le holds)].
  apply submseteq_length, NoDup_submseteq; [done|].
  intros x (w & pc & Hw & Hx)%Hh. apply list_elem_of_omap.
  exists pc. split; [|done]. apply list_elem_of_lookup. eauto.
Qed.

(** X14.  The core table has no leak and no double booking: when the
    number of cores fits an int, a slot is unavailable exactly when some
    worker has obtained its index from assign_core and has not yet passed
    it to release_core, be it that the worker still has the index in hand
    (assign_core has returned, the store in assigned_core_id is to come) or
    has stored it in the job it executes. *)
Theorem core_unavailable_iff_owned s i :
  reachable s → Z.of_nat (num_cores_ s) ≤ int_max →
  core_availability_ s !! i = Some false
  ↔ ∃ w pc, worker_threads_ s !! w = Some pc
            ∧ owned_core (all_jobs_ s) pc = Some (Z.of_nat i).
Proof.
  intros Hr Hn. split.
  - apply (e_leak _ _ _ _ _ _ _ (reachable_InvX s Hr) Hn).
  - intros (w & pc & Hw & Ho).
    destruct (inv_core _ _ _ _ _ _ (reachable_Inv s Hr) Hn w pc _ Hw Ho)
      as [_ H]; [lia|].
    by rewrite Nat2Z.id in H.
Qed.

(** X15.  Every entry of completed_jobs_ is there once, names a record
    whose status is COMPLETED, FAILED or KILLED, and is neither queued nor
    active nor held by a worker. *)
Theorem completed_jobs_final s p :
  reachable s → p ∈ completed_jobs_ s →
  NoDup (completed_jobs_ s)
  ∧ (∃ j, all_jobs_ s !! p = Some j ∧ is_terminal (status j) = true)
  ∧ (p ∉ job_queue_ s) ∧ (p ∉ active_jobs_ s).
Proof.
  intros Hr Hp. pose proof (reachable_InvX s Hr) as E.
  split; [apply (e_c_nodup _ _ _ _ _ _ _ E)|].
  split; [by apply (e_c_term _ _ _ _ _ _ _ E)|].
  split; [by apply (e_c_q _ _ _ _ _ _ _ E)|].
  intros (w & pc & Hw & Hh)%(e_a_held _ _ _ _ _ _ _ E).
  by eapply (e_c_held _ _ _ _ _ _ _ E p w pc).
Qed.

(** X16.  At the end of its loop body a worker removes the job it has
    executed from active_jobs_.  When the status is COMPLETED, FAILED or
    KILLED the job is appended to completed_jobs_.  Otherwise the status is
    RUNNING or SUSPENDED, stored by a resume_job or suspend_job whose test
    came before the write of the outcome, and the job is in none of the
    queue, active_jobs_ and completed_jobs_ afterwards. *)
Theorem executed_job_leaves_active w i s p :
  reachable s → worker_threads_ s !! w = Some (W_Finish p) →
  ∃ j, all_jobs_ s !! p = Some j
    ∧ (p ∉ active_jobs_ (step (E_worker w i) s))
    ∧ (is_terminal (status j) = true →
       completed_jobs_ (step (E_worker w i) s) = completed_jobs_ s ++ [p])
    ∧ (is_terminal (status j) = false →
       (status j = RUNNING ∨ status j = SUSPENDED)
       ∧ (p ∉ completed_jobs_ (step (E_worker w i) s))
       ∧ (p ∉ job_queue_ (step (E_worker w i) s))).
Proof.
  intros Hr Hw.
  pose proof (reachable_Inv s Hr) as I. pose proof (reachable_InvX s Hr) as E.
  assert (Hr' : reachable (step (E_worker w i) s)) by by constructor.
  pose proof (reachable_Inv _ Hr') as I'.
  pose proof (reachable_InvX _ Hr') as E'.
  destruct (inv_held _ _ _ _ _ _ I w _ p Hw eq_refl) as (j & Hj & Hnw).
  pose proof (e_begun _ _ _ _ _ _ _ E w _ p j Hw eq_refl Hj) as Hnp.
  assert (Hpa : p ∈ active_jobs_ s).
  { apply (e_a_held _ _ _ _ _ _ _ E). by exists w, (W_Finish p). }
  destruct (erase_first_is_Some p _ Hpa) as [rest He].
  destruct (erase_first_NoDup p _ rest (e_a_nodup _ _ _ _ _ _ _ E) He)
    as (_ & Hpr & _).
  assert (Hc : completed_jobs_ (step (E_worker w i) s)
               = if is_terminal (status j) then completed_jobs_ s ++ [p]
                 else completed_jobs_ s).
  { simpl. unfold worker_step. rewrite Hw.
    unfold worker_finish. rewrite He, Hj.
    destruct (is_terminal (status j)); simpl; [|done].
    set (s2 := if decide (status j = COMPLETED) then _ else _).
    destruct (update_job_dependencies_fields p s2) as (_ & _ & -> & _).
    subst s2. destruct (decide _); [done|]. by destruct (decide _). }
  assert (Ha : active_jobs_ (step (E_worker w i) s) = rest).
  { simpl. unfold worker_step. rewrite Hw.
    unfold worker_finish. rewrite He, Hj.
    destruct (is_terminal (status j)); simpl; [|done].
    set (s2 := if decide (status j = COMPLETED) then _ else _).
    destruct (update_job_dependencies_fields p s2) as (_ & -> & _).
    subst s2. destruct (decide _); [done|]. by destruct (decide _). }
  assert (Hq : is_terminal (status j) = false →
               job_queue_ (step (E_worker w i) s) = job_queue_ s).
  { intros Ht. simpl. unfold worker_step. rewrite Hw.
    unfold worker_finish. by rewrite He, Hj, Ht. }
  exists j. split; [done|]. split; [by rewrite Ha|].
  split; intros Ht; rewrite Ht in Hc; [done|].
  split; [by destruct (status j); auto|]. split.
  - rewrite Hc. intros Hin. by eapply (e_c_held _ _ _ _ _ _ _ E p w).
  - rewrite (Hq Ht). intros Hin. by eapply (inv_q_held _ _ _ _ _ _ I p w).
Qed.

Lemma counters_consistent_witness :
  Z.of_nat (length (completed_jobs_ (one_job_done "true" 0)))
  ≤ total_jobs_submitted (stats_ (one_job_done "true" 0)).
Proof.
  apply (counters_consistent (one_job_done "true" 0)).
  unfold one_job_done. apply reachable_run, reachable_run, reach_new.
Defined.

Lemma active_jobs_held_by_workers_witness :
  (length (active_jobs_ (one_job_running "sleep 5"))
   ≤ length (worker_threads_ (one_job_running "sleep 5")))%nat.
Proof.
  apply (active_jobs_held_by_workers (one_job_running "sleep 5")).
  apply reachable_run, reach_new.
Defined.

Lemma core_unavailable_iff_owned_witness :
  ∃ w pc, worker_threads_ (one_job_running "sleep 5") !! w = Some pc
          ∧ owned_core (all_jobs_ (one_job_running "sleep 5")) pc = Some 0.
Proof.
  apply (core_unavailable_iff_owned (one_job_running "sleep 5") 0).
  - apply reachable_run, reach_new.
  - vm_compute. discriminate.
  - vm_compute. reflexivity.
Defined.

Lemma completed_jobs_final_witness :
  ∃ j, all_jobs_ (one_job_done "false" 1) !! 0%nat = Some j
       ∧ is_terminal (status j) = true.
Proof.
  apply (completed_jobs_final (one_job_done "false" 1) 0).
  - unfold one_job_done. apply reachable_run, reachable_run, reach_new.
  - vm_compute. apply list_elem_of_here.
Defined.

(** The second case occurs: the job of [resumed_after_exit] is RUNNING
    when its worker ends its loop body, and is in no list afterwards. *)
Lemma resumed_job_in_no_list :
  let s := step (E_worker 0 (input_at (ms 100) 0)) resumed_after_exit in
  status_at s 0%nat = Some RUNNING
  ∧ job_queue_ s = [] ∧ active_jobs_ s = [] ∧ completed_jobs_ s = []
  ∧ worker_threads_ s = [W_Idle].
Proof. vm_compute. repeat split; reflexivity. Qed.

Lemma executed_job_leaves_active_witness :
  ∃ j, all_jobs_ resumed_after_exit !! 0%nat = Some j
       ∧ 0%nat ∉ active_jobs_
                   (step (E_worker 0 (input_at (ms 100) 0)) resumed_after_exit).
Proof.
  destruct (executed_job_leaves_active 0 (input_at (ms 100) 0)
              resumed_after_exit 0) as (j & Hj & Ha & _).
  - apply reachable_run, reach_new.
  - vm_compute. reflexivity.
  - eauto.
Defined.

(** ** After stop *)

Lemma update_loop_queue_prefix cid l :
  ∀ jobs q, q `prefix_of` (foldl (update_one cid) (jobs, q) l).2.
Proof.
  induction l as [|i l IH]; intros jobs q; [done|].
  change (foldl (update_one cid) (jobs, q) (i :: l))
    with (foldl (update_one cid) (update_one cid (jobs, q) i) l).
  destruct (update_one cid (jobs, q) i) as [jobs1 q1] eqn:E.
  transitivity q1; [|apply IH]. unfold update_one in E.
  destruct (jobs !! i) as [j|]; [|by injection E as <- <-].
  destruct (bool_decide _); [|by injection E as <- <-].
  destruct (_ && _); injection E as <- <-; [|done].
  by apply prefix_app_r.
Qed.

Lemma update_job_dependencies_queue p s :
  job_queue_ s `prefix_of` job_queue_ (update_job_dependencies p s).
Proof.
  unfold update_job_dependencies. destruct (all_jobs_ s !! p) as [c|]; [|done].
  pose proof (update_loop_queue_prefix (job_id c) (seq 0 (length (all_jobs_ s)))
                (all_jobs_ s) (job_queue_ s)) as H.
  destruct (foldl _ _ _) as [jobs q]. exact H.
Qed.

Lemma erase_first_sublist p l r : erase_first p l = Some r → r `sublist_of` l.
Proof.
  revert r. induction l as [|y l IH]; simpl; intros r; [done|].
  destruct (decide (y = p)) as [->|Hne].
  - intros [= ->]. by apply sublist_cons.
  - destruct (erase_first p l) as [r'|]; simpl; [|done].
    intros [= <-]. apply sublist_skip. by apply IH.
Qed.

Lemma stopped_step e s :
  running_ s = false → e ≠ E_start →
  running_ (step e s) = false
  ∧ job_queue_ s `prefix_of` job_queue_ (step e s)
  ∧ active_jobs_ (step e s) `sublist_of` active_jobs_ s.
Proof.
  intros Hrun He. destruct e; simpl; try done.
  - unfold stop_join. destruct (forallb _ _); simpl; [|done].
    split; [done|]. split; [done|]. apply sublist_nil_l.
  - split; [done|]. split; [|done]. by apply prefix_app_r.
  - unfold submit_job_with_deps, fresh_job_id. simpl.
    destruct (dependencies_satisfied _ _); simpl; [|done].
    split; [done|]. split; [|done]. by apply prefix_app_r.
  - split; [done|]. split; [|done]. by apply prefix_app_r.
  - unfold submit_job_script_begin, parse_job_script_submit.
    destruct file; [|done].
    destruct (parse_lines _ _); [done|]. destruct (decide _); [done|].
    destruct (v_dependencies _); simpl.
    + split; [done|]. split; [|done]. by apply prefix_app_r.
    + unfold submit_job_with_deps, fresh_job_id. simpl.
      destruct (dependencies_satisfied _ _); simpl; [|done].
      split; [done|]. split; [|done]. by apply prefix_app_r.
  - unfold caller_step. by destruct (callers_ s !! k).
  - unfold kill_job. by destruct (find_ptr _ _ _).
  - unfold suspend_job_during. destruct (find_ptr _ _ _); [|done].
    destruct (decide _); [|done]. simpl.
    by destruct (unlocked_frame_fields _ _ (run_unlocked_frame during s))
      as (-> & -> & _ & _ & _ & _ & -> & _).
  - unfold resume_job_during. destruct (find_ptr _ _ _); [|done].
    destruct (decide _); [|done]. simpl.
    by destruct (unlocked_frame_fields _ _ (run_unlocked_frame during s))
      as (-> & -> & _ & _ & _ & _ & -> & _).
  - unfold change_job_priority. destruct (find_job_ptr _ _); [|done].
    by destruct (decide _).
  - unfold worker_step. destruct (worker_threads_ s !! w) as [pc|]; [|done].
    destruct pc as [|p|p|p c|p|p|p|]; simpl; try done.
    + unfold worker_take. rewrite Hrun. done.
    + unfold execute_job_assign, assign_core. by destruct (first_free _).
    + unfold execute_job_launch. by destruct (in_fork i).
    + unfold execute_job_reap. by destruct (in_wait i).
    + unfold execute_job_release. destruct (all_jobs_ s !! p); simpl; [|done].
      unfold release_core. by destruct (core_in_range _ _).
    + unfold worker_finish.
      destruct (erase_first _ _) as [rest|] eqn:Her; [|done].
      destruct (all_jobs_ s !! p) as [j|]; [|done].
      apply erase_first_sublist in Her.
      destruct (is_terminal _); simpl; [|done].
      set (s2 := if decide (status j = COMPLETED) then _ else _).
      destruct (update_job_dependencies_next p s2) as (_ & -> & _).
      destruct (update_job_dependencies_fields p s2) as (_ & -> & _).
      pose proof (update_job_dependencies_queue p s2) as Hq.
      assert (E : running_ s2 = false ∧ job_queue_ s2 = job_queue_ s
                  ∧ active_jobs_ s2 = rest).
      { subst s2. destruct (decide _); [done|]. by destruct (decide _). }
      destruct E as (E1 & E2 & E3). rewrite E2 in Hq. by rewrite E1, E3.
Qed.

(** X17.  Once stop() has cleared the running flag, and as long as start()
    is not called again, no job is started: the entries of the queue stay
    where they are (submissions still append to it) and no job is added to
    active_jobs_. *)
Theorem stopped_scheduler_starts_no_job evs s :
  running_ s = false → Forall (λ e, e ≠ E_start) evs →
  running_ (run evs s) = false
  ∧ job_queue_ s `prefix_of` job_queue_ (run evs s)
  ∧ active_jobs_ (run evs s) `sublist_of` active_jobs_ s.
Proof.
  intros Hrun Hevs. revert s Hrun.
  induction Hevs as [|e evs He _ IH]; intros s Hrun; [done|].
  change (run (e :: evs) s) with (run evs (step e s)).
  destruct (stopped_step e s Hrun He) as (H1 & H2 & H3).
  destruct (IH (step e s) H1) as (H4 & H5 & H6).
  split; [done|]. split; by etransitivity.
Qed.

Lemma stopped_scheduler_starts_no_job_witness :
  job_queue_ (step E_stop_flag (one_job_done "true" 0))
  `prefix_of`
  job_queue_ (run [E_submit_job "echo late" HIGH (ms 200);
                   E_worker 0 (input_at (ms 300) 0)]
                  (step E_stop_flag (one_job_done "true" 0))).
Proof.
  apply (stopped_scheduler_starts_no_job
           [E_submit_job "echo late" HIGH (ms 200);
            E_worker 0 (input_at (ms 300) 0)]
           (step E_stop_flag (one_job_done "true" 0))).
  - reflexivity.
  - repeat constructor; discriminate.
Defined.

(** ** Reported and simulated figures *)

(** X12.  get_core_utilization returns one entry per core, and the entry
    of a core that no active job is assigned to is 0. *)
Theorem get_core_utilization_idle_core s c :
  (c < num_cores_ s)%nat →
  (∀ p j, p ∈ active_jobs_ s → all_jobs_ s !! p = Some j →
          assigned_core_id j ≠ Z.of_nat c) →
  length (get_core_utilization s) = num_cores_ s
  ∧ get_core_utilization s !! c = Some 0.
Proof.
  intros Hc. unfold get_core_utilization.
  set (f := λ (u : list Z) (p : nat), _).
  assert (H : ∀ l u,
            length u = num_cores_ s → u !! c = Some 0 →
            (∀ p j, p ∈ l → all_jobs_ s !! p = Some j →
                    assigned_core_id j ≠ Z.of_nat c) →
            length (foldl f u l) = num_cores_ s ∧ foldl f u l !! c = Some 0).
  { induction l as [|p l IH]; intros u Hlen Hu Hno; [done|].
    simpl. apply IH.
    - unfold f. destruct (all_jobs_ s !! p); [|done].
      destruct (_ && _); [|done]. by rewrite length_insert.
    - unfold f. destruct (all_jobs_ s !! p) as [j|] eqn:Hj; [|done].
      destruct (_ && _) eqn:Hr; [|done].
      rewrite list_lookup_insert_ne; [done|].
      apply andb_true_iff in Hr as [Hr _]. apply Z.leb_le in Hr.
      intros <-. apply (Hno p j); [by left|done|].
      by rewrite Z2Nat.id.
    - intros p' j' Hp'. apply Hno. by right. }
  intros Hno. apply H; [by rewrite length_replicate| |done].
  by apply lookup_replicate.
Qed.

Lemma get_core_utilization_idle_core_witness :
  active_jobs_ one_of_two_cores_busy = [0%nat]
  ∧ (assigned_core_id <$> all_jobs_ one_of_two_cores_busy) = [0]
  ∧ get_core_utilization one_of_two_cores_busy !! 1%nat = Some 0.
Proof.
  split; [vm_compute; reflexivity|]. split; [vm_compute; reflexivity|].
  apply (get_core_utilization_idle_core one_of_two_cores_busy 1).
  - vm_compute. lia.
  - intros p j Hp Hj.
    assert (Ha : active_jobs_ one_of_two_cores_busy = [0%nat])
      by (vm_compute; reflexivity).
    rewrite Ha in Hp. apply list_elem_of_singleton in Hp. subst p.
    vm_compute in Hj. injection Hj as <-. discriminate.
Defined.

(** X18.  The simulated CPU figures stay in range: for the non-negative
    values rand() returns, the utilisation stored by simulate_cpu_usage is
    a whole number of percent from 5 to 99 and the number of context
    switches is from 100 to 599; no other field changes. *)
Theorem simulate_cpu_usage_range r1 r2 j :
  0 ≤ r1 → 0 ≤ r2 →
  (∃ u, cpu_utilization (simulate_cpu_usage r1 r2 j) = inject_Z u ∧ 5 ≤ u ≤ 99)
  ∧ 100 ≤ context_switches (simulate_cpu_usage r1 r2 j) ≤ 599
  ∧ simulate_cpu_usage r1 r2 j
    = set_cpu (cpu_utilization (simulate_cpu_usage r1 r2 j))
              (context_switches (simulate_cpu_usage r1 r2 j)) j.
Proof.
  intros H1 H2. unfold simulate_cpu_usage, rand_mod.
  pose proof (Z.rem_bound_pos r1 15 H1). pose proof (Z.rem_bound_pos r1 40 H1).
  pose proof (Z.rem_bound_pos r1 30 H1). pose proof (Z.rem_bound_pos r1 50 H1).
  pose proof (Z.rem_bound_pos r2 500 H2).
  split; [|split; [simpl; lia|done]].
  simpl. eexists. split; [reflexivity|].
  destruct (Str.contains "sleep" _); [lia|].
  destruct (_ || _); [lia|]. destruct (_ || _); lia.
Qed.

Lemma simulate_cpu_usage_range_witness :
  100 ≤ context_switches
          (simulate_cpu_usage 7 9 (JobMetadata_new 1 "make all" LOW 0)) ≤ 599.
Proof.
  apply (simulate_cpu_usage_range 7 9 (JobMetadata_new 1 "make all" LOW 0)); lia.
Defined.

(** ** calculate_priority_score *)

Lemma digits_go_nonneg s acc n : 0 ≤ acc → 0 ≤ (Str.digits_go acc n s).1.
Proof.
  revert acc n. induction s as [|c s IH]; intros acc n Hacc; simpl; [done|].
  destruct (Str.is_digit c) eqn:Hd; [|done].
  apply IH. unfold Str.is_digit in Hd.
  apply andb_true_iff in Hd as [Hd _]. apply Nat.leb_le in Hd. lia.
Qed.

Lemma sleep_match_here_nonneg s v :
  sleep_match_here s = Some (Some v) → 0 ≤ v.
Proof.
  unfold sleep_match_here. destruct (String.prefix "sleep" s); [|done].
  destruct (Str.drop 5 s) as [|c r]; [done|].
  destruct (Str.is_space c); [|done].
  pose proof (digits_go_nonneg (Str.skip_spaces (String c r)) 0 0%nat
                (Z.le_refl 0)) as H.
  destruct (Str.digits_go 0 0 _) as [v' k]. simpl in H.
  destruct k; [done|]. destruct (v' <=? int_max); [|done]. by intros [= <-].
Qed.

Lemma sleep_search_nonneg s v : sleep_search s = Some (Some v) → 0 ≤ v.
Proof.
  induction s as [|c s IH]; [done|].
  change (sleep_search (String c s))
    with (match sleep_match_here (String c s) with
          | Some r => Some r
          | None => sleep_search s
          end).
  destruct (sleep_match_here (String c s)) as [r|] eqn:E; [|done].
  intros [= ->]. by eapply sleep_match_here_nonneg.
Qed.

(** The estimate of get_estimated_runtime is never negative (for commands
    shorter than 2^31 characters). *)
Lemma get_estimated_runtime_nonneg j r :
  Z.of_nat (String.length (command j)) < 2 ^ 31 →
  get_estimated_runtime j = Some r → 0 ≤ r.
Proof.
  intros Hlen. unfold get_estimated_runtime.
  destruct (Str.contains "sleep" _).
  - destruct (sleep_search _) as [[v|]|] eqn:E.
    + intros [= <-]. by eapply sleep_search_nonneg.
    + done.
    + intros [= <-]. lia.
  - intros [= <-].
    set (b := if _ || _ || _ then _ else _).
    assert (Hb : 5 ≤ b ≤ 600).
    { subst b. repeat (destruct (_ || _)); lia. }
    clearbody b.
    pose proof (Z.div_pos (Z.of_nat (String.length (command j))) 20).
    assert (Z.of_nat (String.length (command j)) / 20 < 2 ^ 31 / 20 + 1).
    { apply Z.lt_succ_r. apply Z.div_le_mono; lia. }
    rewrite to_int_small; unfold int_min, int_max;
      change (2 ^ 31 / 20) with 107374182 in *; lia.
Qed.

Lemma runtime_factor_bound (r : Z) :
  0 ≤ r →
  (0 < 1 / (1 + inject_Z r / 60) ∧ 1 / (1 + inject_Z r / 60) <= 1)%Q.
Proof.
  intros Hr.
  assert (H : (1 <= 1 + inject_Z r / 60)%Q).
  { assert (0 <= inject_Z r / 60)%Q.
    { apply Qle_shift_div_l; [reflexivity|]. rewrite Qmult_0_l.
      change 0%Q with (inject_Z 0). rewrite <- Zle_Qle. exact Hr. }
    lra. }
  split.
  - apply Qlt_shift_div_l; lra.
  - apply Qle_shift_div_r; lra.
Qed.

(** X19.  In calculate_priority_score the priority level outweighs the
    runtime bonus: of two jobs submitted at the same time, with the same
    status and type, the one with the higher priority has the strictly
    higher score, whatever their commands are. *)
Theorem priority_dominates_score now a b sa sb :
  Z.of_nat (String.length (command a)) < 2 ^ 31 →
  Z.of_nat (String.length (command b)) < 2 ^ 31 →
  submit_time a = submit_time b → status a = status b → type a = type b →
  priority_rank (priority a) < priority_rank (priority b) →
  calculate_priority_score now a = Some sa →
  calculate_priority_score now b = Some sb →
  (sa < sb)%Q.
Proof.
  intros Hla Hlb Ht Hs Hty Hp. unfold calculate_priority_score.
  destruct (get_estimated_runtime a) as [ra|] eqn:Ea; [|done].
  destruct (get_estimated_runtime b) as [rb|] eqn:Eb; [|done].
  destruct (runtime_factor_bound ra (get_estimated_runtime_nonneg a ra Hla Ea))
    as [Ha1 Ha2].
  destruct (runtime_factor_bound rb (get_estimated_runtime_nonneg b rb Hlb Eb))
    as [Hb1 Hb2].
  rewrite Ht, Hs, Hty.
  set (fa := (1 / (1 + inject_Z ra / 60))%Q) in *.
  set (fb := (1 / (1 + inject_Z rb / 60))%Q) in *.
  set (W := (inject_Z (to_minutes (now - submit_time b)) * (1 # 100))%Q).
  clearbody fa fb W.
  intros [= <-] [= <-].
  destruct (decide (status b = WAITING_DEPS)), (decide (type b = INTERACTIVE));
    destruct (priority a), (priority b); simpl in Hp; try lia;
    simpl; unfold inject_Z; lra.
Qed.

Lemma priority_dominates_score_witness :
  ∃ sa sb,
    calculate_priority_score 0 (JobMetadata_new 1 "sleep 1" LOW 0) = Some sa
    ∧ calculate_priority_score 0 (JobMetadata_new 2 "make world" MEDIUM 0)
      = Some sb
    ∧ (sa < sb)%Q.
Proof.
  eexists _, _. split; [reflexivity|]. split; [reflexivity|].
  apply (priority_dominates_score 0 (JobMetadata_new 1 "sleep 1" LOW 0)
           (JobMetadata_new 2 "make world" MEDIUM 0));
    try reflexivity; simpl; lia.
Defined.

(** ** The queue *)

(** X26.  Every entry of the job queue is there once and names a record
    that is PENDING with no core assigned; a queued job is not in
    active_jobs_ and no worker holds it. *)
Theorem queued_jobs_pending s p :
  reachable s → p ∈ job_queue_ s →
  NoDup (job_queue_ s)
  ∧ (∃ j, all_jobs_ s !! p = Some j ∧ status j = PENDING
          ∧ assigned_core_id j = -1)
  ∧ (p ∉ active_jobs_ s)
  ∧ ∀ w pc, worker_threads_ s !! w = Some pc → holds pc ≠ Some p.
Proof.
  intros Hr Hp. pose proof (reachable_Inv s Hr) as I.
  split; [apply (inv_q_nodup _ _ _ _ _ _ I)|].
  split; [by apply (inv_q _ _ _ _ _ _ I)|].
  split; [by apply (inv_q_active _ _ _ _ _ _ I)|].
  intros w pc Hw. by apply (inv_q_held _ _ _ _ _ _ I p w pc).
Qed.

Lemma queued_jobs_pending_witness :
  ∃ j, all_jobs_ aged_queue !! 2%nat = Some j ∧ status j = PENDING
       ∧ assigned_core_id j = -1.
Proof.
  apply (queued_jobs_pending aged_queue 2).
  - unfold aged_queue, one_job_running. do 2 apply reachable_run. constructor.
  - vm_compute. apply list_elem_of_further, list_elem_of_here.
Defined.

(** ** Instances of the properties above *)

Lemma averages_never_updated_witness :
  average_turnaround_time (get_system_stats (one_job_done "true" 0)) = 0%Q.
Proof.
  apply (averages_never_updated (one_job_done "true" 0)).
  unfold one_job_done. apply reachable_run, reachable_run, reach_new.
Defined.

Lemma parse_job_script_error_witness :
  (parse_job_script "job.txt" (Some (unlines ["# MEMORY_LIMIT: lots"; "echo hi"]))
     0 (JobScheduler_new 2 0)).2
  = JobScheduler_new 2 0.
Proof.
  apply (parse_job_script_error "job.txt"
           (Some (unlines ["# MEMORY_LIMIT: lots"; "echo hi"])) 0
           (JobScheduler_new 2 0) (ConversionError "stoul")).
  vm_compute. reflexivity.
Defined.




(** ** The shell: reading a line *)

Example parse_and_execute_ex :
  Shell.parse_and_execute "  sleep 5 &  " = Shell.Submit [("sleep 5", LOW)]
  ∧ Shell.parse_and_execute "make && make test &"
    = Shell.Submit [("make", MEDIUM); ("make test", MEDIUM)]
  ∧ Shell.parse_and_execute "kill 3" = Shell.Builtin "kill 3"
  ∧ Shell.split_args " 12   HIGH " = ["12"; "HIGH"]
  ∧ Shell.center_text "ab" 5 = Some " ab  "
  ∧ Shell.truncate_text "abcdefgh" 6 = "abc...".
Proof. vm_compute. repeat split; reflexivity. Qed.

Lemma find_first_not_ws_Some s k :
  Shell.find_first_not_ws s = Some k → Str.drop k s = ltrim_ws s.
Proof.
  revert k. induction s as [|c s IH]; intros k; simpl; [done|].
  destruct (Shell.is_ws c).
  - destruct (Shell.find_first_not_ws s) as [k'|]; simpl; [|done].
    intros [= <-]. simpl. by apply IH.
  - by intros [= <-].
Qed.

Lemma find_first_not_ws_None s :
  Shell.find_first_not_ws s = None → ltrim_ws s = "".
Proof.
  induction s as [|c s IH]; simpl; [done|].
  destruct (Shell.is_ws c); [|done].
  destruct (Shell.find_first_not_ws s); simpl; [done|]. intros _. by apply IH.
Qed.

Lemma find_last_not_ws_shift s k :
  Shell.find_first_not_ws s = Some k →
  ∃ l, Shell.find_last_not_ws (ltrim_ws s) = Some l
       ∧ Shell.find_last_not_ws s = Some (k + l)%nat.
Proof.
  revert k. induction s as [|c s IH]; intros k; [done|].
  simpl. destruct (Shell.is_ws c) eqn:Hc.
  - destruct (Shell.find_first_not_ws s) as [k'|]; simpl; [|done].
    intros [= <-]. destruct (IH k' eq_refl) as (l & H1 & H2).
    exists l. split; [done|]. rewrite H2. done.
  - intros [= <-]. simpl. rewrite Hc.
    destruct (Shell.find_last_not_ws s) as [i|]; eauto.
Qed.

Lemma find_last_not_ws_lt t l :
  Shell.find_last_not_ws t = Some l → (l < String.length t)%nat.
Proof.
  revert l. induction t as [|c t IH]; intros l; simpl; [done|].
  destruct (Shell.find_last_not_ws t) as [i|].
  - intros [= <-]. specialize (IH i eq_refl). lia.
  - destruct (Shell.is_ws c); [done|]. intros [= <-]. lia.
Qed.

Lemma find_last_not_ws_take t :
  match Shell.find_last_not_ws t with
  | Some l => Str.take (S l) t = rtrim_ws t ∧ rtrim_ws t ≠ ""
  | None => rtrim_ws t = ""
  end.
Proof.
  induction t as [|c t IH]; simpl; [done|].
  destruct (Shell.find_last_not_ws t) as [i|].
  - destruct IH as [IH Hne]. destruct t as [|d t]; [done|].
    rewrite IH. destruct (rtrim_ws (String d t)); [done|]. done.
  - rewrite IH. destruct (Shell.is_ws c); done.
Qed.

Lemma length_ltrim_ws s : (String.length (ltrim_ws s) ≤ String.length s)%nat.
Proof.
  induction s as [|c s IH]; simpl; [done|].
  destruct (Shell.is_ws c); simpl; lia.
Qed.

Lemma length_rtrim_ws s : (String.length (rtrim_ws s) ≤ String.length s)%nat.
Proof.
  induction s as [|c s IH]; simpl; [done|].
  destruct (rtrim_ws s); [destruct (Shell.is_ws c)|]; simpl in *; lia.
Qed.

(** trim_command removes the white space at both ends. *)
Lemma trim_command_eq s :
  Z.of_nat (String.length s) < 2 ^ 64 →
  Shell.trim_command s = rtrim_ws (ltrim_ws s).
Proof.
  intros Hlen. unfold Shell.trim_command.
  destruct (Shell.find_first_not_ws s) as [k|] eqn:Hk.
  - destruct (find_last_not_ws_shift s k Hk) as (l & Hl & ->).
    pose proof (find_last_not_ws_lt _ _ Hl) as Hlt.
    pose proof (length_ltrim_ws s).
    unfold Shell.substr. rewrite (find_first_not_ws_Some s k Hk).
    replace (Z.of_nat (k + l) - Z.of_nat k + 1) with (Z.of_nat (S l)) by lia.
    unfold to_size_t. rewrite Z.mod_small by lia. rewrite Nat2Z.id.
    pose proof (find_last_not_ws_take (ltrim_ws s)) as H'.
    rewrite Hl in H'. by destruct H'.
  - by rewrite (find_first_not_ws_None s Hk).
Qed.

Lemma rtrim_ws_idem s : rtrim_ws (rtrim_ws s) = rtrim_ws s.
Proof.
  induction s as [|c s IH]; simpl; [done|].
  destruct (rtrim_ws s) as [|d r] eqn:E.
  - destruct (Shell.is_ws c) eqn:Hc; simpl; [done|]. by rewrite Hc.
  - change (rtrim_ws (String c (String d r)))
      with (match rtrim_ws (String d r) with
            | "" => if Shell.is_ws c then "" else String c ""
            | r' => String c r'
            end).
    by rewrite IH.
Qed.

Lemma ltrim_rtrim_ltrim s : ltrim_ws (rtrim_ws (ltrim_ws s)) = rtrim_ws (ltrim_ws s).
Proof.
  induction s as [|c s IH]; [done|].
  change (ltrim_ws (String c s))
    with (if Shell.is_ws c then ltrim_ws s else String c s).
  destruct (Shell.is_ws c) eqn:Hc; [exact IH|].
  simpl. destruct (rtrim_ws s); rewrite ?Hc; simpl; by rewrite Hc.
Qed.

(** X27.  trim_command is idempotent: a trimmed line is not changed by
    trimming it again (the shell trims a line up to three times on its way
    to submit_job). *)
Theorem trim_command_idempotent s :
  Z.of_nat (String.length s) < 2 ^ 64 →
  Shell.trim_command (Shell.trim_command s) = Shell.trim_command s.
Proof.
  intros Hlen. rewrite (trim_command_eq s Hlen).
  pose proof (length_rtrim_ws (ltrim_ws s)). pose proof (length_ltrim_ws s).
  rewrite trim_command_eq by lia.
  by rewrite ltrim_rtrim_ltrim, rtrim_ws_idem.
Qed.

Lemma trim_command_idempotent_witness :
  Shell.trim_command (Shell.trim_command "  ls -l  ") = "ls -l".
Proof.
  rewrite (trim_command_idempotent "  ls -l  ").
  - reflexivity.
  - vm_compute. reflexivity.
Defined.

Lemma has_char_append c a b :
  has_char c (a +:+ b) = has_char c a || has_char c b.
Proof.
  induction a as [|x a IH]; simpl; [done|]. rewrite IH. by rewrite orb_assoc.
Qed.

Lemma has_char_take c n s : has_char c s = false → has_char c (Str.take n s) = false.
Proof.
  revert n. induction s as [|x s IH]; intros [|n]; simpl; try done.
  intros [-> H]%orb_false_iff. simpl. by apply IH.
Qed.

Lemma has_char_drop c n s : has_char c s = false → has_char c (Str.drop n s) = false.
Proof.
  revert n. induction s as [|x s IH]; intros [|n]; simpl; try done.
  intros [_ H]%orb_false_iff. by apply IH.
Qed.

Lemma has_char_trim_command c s :
  has_char c s = false → has_char c (Shell.trim_command s) = false.
Proof.
  intros H. unfold Shell.trim_command.
  destruct (Shell.find_first_not_ws s); [|done].
  unfold Shell.substr. by apply has_char_take, has_char_drop.
Qed.

Lemma split_go_no_delim d s :
  ∀ cur p, has_char d cur = false → p ∈ Str.split_go d cur s →
           has_char d p = false.
Proof.
  induction s as [|c s IH]; intros cur p Hcur; simpl.
  - destruct cur; [by intros ?%elem_of_nil|].
    by intros ->%list_elem_of_singleton.
  - destruct (Ascii.eqb c d) eqn:Hc.
    + intros [->|Hp]%elem_of_cons; [done|]. by apply (IH "").
    + apply IH. rewrite has_char_append, Hcur. simpl. by rewrite Hc.
Qed.

Lemma back_has_char s c : Shell.back s = Some c → has_char c s = true.
Proof.
  induction s as [|x s IH]; simpl; [done|].
  destruct s as [|y s].
  - intros [= ->]. simpl. by rewrite Ascii.eqb_refl.
  - intros H. rewrite (IH H). by rewrite orb_true_r.
Qed.

Lemma chain_piece_commands commands piece :
  Forall chain_command commands → has_char "&" piece = false →
  Forall chain_command (Shell.chain_piece commands piece).
Proof.
  intros Hc Hp. unfold Shell.chain_piece.
  destruct (decide (piece = "")); [done|].
  set (cmd := match commands, piece with
              | _ :: _, String "&" rest => rest
              | _, _ => piece
              end).
  assert (Hcmd : has_char "&" cmd = false).
  { subst cmd. destruct commands; [done|]. destruct piece as [|x r]; [done|].
    simpl in Hp. apply orb_false_iff in Hp as [Hx Hr].
    destruct x as [[] [] [] [] [] [] [] []]; done. }
  destruct (decide (Shell.trim_command cmd = "")); [done|].
  apply Forall_app. split; [done|]. apply Forall_singleton.
  split; [by apply has_char_trim_command|done].
Qed.

Lemma parse_command_chain_commands input :
  Str.contains "&&" input = true →
  Forall chain_command (Shell.parse_command_chain input).
Proof.
  intros H. unfold Shell.parse_command_chain. rewrite H.
  assert (Hp : ∀ p, p ∈ Str.getlines "&" input → has_char "&" p = false).
  { intros p. by apply split_go_no_delim. }
  revert Hp. generalize (Str.getlines "&" input).
  assert (G : ∀ l acc, Forall chain_command acc →
                (∀ p, p ∈ l → has_char "&" p = false) →
                Forall chain_command (foldl Shell.chain_piece acc l)).
  { induction l as [|p l IH]; intros acc Hacc Hl; [done|].
    simpl. apply IH.
    - apply chain_piece_commands; [done|]. apply Hl. by left.
    - intros p' Hp'. apply Hl. by right. }
  intros l Hl. by apply G.
Qed.

(** X28.  In a command chain no job runs in the background: when the
    line contains "&&", parse_and_execute submits every command with
    priority MEDIUM, and no submitted command contains '&' (the line is cut
    at every '&', so a trailing '&' does not make the last command a
    background job). *)
Theorem chain_jobs_never_background input jobs c p :
  Str.contains "&&" (Shell.trim_command input) = true →
  Shell.parse_and_execute input = Shell.Submit jobs →
  (c, p) ∈ jobs →
  p = MEDIUM ∧ has_char "&" c = false ∧ c ≠ "".
Proof.
  intros Hchain. unfold Shell.parse_and_execute.
  destruct (decide _); [done|].
  destruct (Shell.is_builtin_command _); [done|].
  intros [= <-] Hin. apply list_elem_of_omap in Hin as (x & Hx & Hs).
  pose proof (parse_command_chain_commands _ Hchain) as Hall.
  rewrite Forall_forall in Hall. destruct (Hall x Hx) as [Hamp Hne].
  unfold Shell.submission in Hs.
  assert (Hb : Shell.is_background_job x = false).
  { unfold Shell.is_background_job.
    destruct (Shell.back x) as [b|] eqn:Eb; [|done].
    destruct (Ascii.eqb b "&") eqn:E; [|done].
    apply Ascii.eqb_eq in E as ->. apply back_has_char in Eb. congruence. }
  rewrite Hb in Hs.
  destruct (decide (Shell.trim_command x = "")); [done|].
  injection Hs as <- <-. split; [done|]. split; [|done].
  by apply has_char_trim_command.
Qed.

Lemma chain_jobs_never_background_witness :
  Shell.parse_and_execute "make && make test &"
  = Shell.Submit [("make", MEDIUM); ("make test", MEDIUM)]
  ∧ has_char "&" "make test" = false.
Proof.
  assert (H : Shell.parse_and_execute "make && make test &"
              = Shell.Submit [("make", MEDIUM); ("make test", MEDIUM)])
    by (vm_compute; reflexivity).
  split; [exact H|].
  apply (chain_jobs_never_background "make && make test &" _ "make test"
           MEDIUM eq_refl H).
  apply list_elem_of_further, list_elem_of_here.
Defined.

Lemma append_cons x (a b : string) : String x a +:+ b = String x (a +:+ b).
Proof. done. Qed.

Lemma append_assoc (a b c : string) : (a +:+ b) +:+ c = a +:+ (b +:+ c).
Proof. induction a as [|x a IH]; [done|]. rewrite !append_cons. by f_equal. Qed.

Lemma append_empty_r (a : string) : a +:+ "" = a.
Proof. induction a as [|x a IH]; [done|]. rewrite append_cons. by f_equal. Qed.

Lemma split_args_go_word w item rest :
  no_space w = true →
  Shell.split_args_go item (w +:+ rest) = Shell.split_args_go (item +:+ w) rest.
Proof.
  revert item. induction w as [|c w IH]; intros item; simpl.
  - by rewrite append_empty_r.
  - intros [Hc Hw]%andb_true_iff. apply negb_true_iff in Hc. rewrite Hc.
    rewrite IH by done. by rewrite append_assoc.
Qed.

Lemma split_args_go_space item rest :
  item ≠ "" →
  Shell.split_args_go item (String " " rest)
  = item :: Shell.split_args_go "" rest.
Proof.
  intros Hne.
  change (Shell.split_args_go item (String " " rest))
    with (if decide (item = "") then Shell.split_args_go "" rest
          else item :: Shell.split_args_go "" rest).
  by rewrite decide_False.
Qed.

Lemma split_args_go_end item :
  item ≠ "" → Shell.split_args_go item "" = [item].
Proof. intros Hne. simpl. by rewrite decide_False. Qed.

(** X29.  split_args inverts the joining of words: a list of non-empty
    words without white space, joined by single spaces, is split into the
    same list. *)
Theorem split_args_unwords ws :
  Forall is_word ws → Shell.split_args (unwords ws) = ws.
Proof.
  unfold Shell.split_args, unwords.
  induction 1 as [|w ws [Hne Hw] Hws IH]; [done|].
  destruct ws as [|y ws].
  - change (String.concat " " [w]) with w.
    rewrite <- (append_empty_r w) at 1.
    rewrite split_args_go_word by done.
    change ("" +:+ w) with w. by apply split_args_go_end.
  - change (String.concat " " (w :: y :: ws))
      with (w +:+ String " " (String.concat " " (y :: ws))).
    rewrite split_args_go_word by done.
    change ("" +:+ w) with w.
    rewrite split_args_go_space by done. by rewrite IH.
Qed.

Lemma split_args_unwords_witness :
  Shell.split_args (unwords ["7"; "CRITICAL"]) = ["7"; "CRITICAL"].
Proof.
  apply (split_args_unwords ["7"; "CRITICAL"]).
  repeat constructor; discriminate.
Defined.





